(** * Charm metadata (meta.go): decoding, validation and re-encoding

    A shallow embedding of [meta.go] of the charm package: the data model
    ([Relation], [Storage], [Meta]), the validator [Meta.Check], the hook
    table [Meta.Hooks], the decoder [ReadMeta] with its two custom schema
    coercers, and the encoder [Meta.GetYAML].

    Conventions of the embedding.
    - Go's [int] and [int64] are both 64-bit; values are kept in [Z] and the
      conversion [int(x)] of an [int64] is the identity.  The only place
      where the range matters is [strconv.Atoi], which checks it.
    - A Go map or slice can be [nil]; [nil] and "empty but allocated" are
      different values (the validator tests [!= nil]), so a map is an
      [option (gmap string V)] and a slice an [option (list A)], where
      [None] is [nil].
    - Go iterates over a map in an unspecified order.  Loops over a map run
      here over [map_to_list]; which error is reported first may differ
      from a given Go run, whether an error is reported does not.
    - A function that can panic (failed type assertion, slice bounds, nil
      dereference) returns an [outcome] with a [Panic] case.
    - The maps of a document have string keys.
    - What belongs to other packages is a parameter: the series predicate,
      the two lists of hooks, what [schema.Int()] and [schema.Bool()] make
      of a string, and the YAML library, which need not read back the tree
      that it wrote. *)

From Stdlib Require Import Ascii.
From stdpp Require Import gmap strings list fin_maps pretty.

#[local] Set Warnings "-register-all".
#[local] Open Scope string_scope.

(** ** String-typed enumerations *)

Definition RelationScope := string.
Definition ScopeGlobal : RelationScope := "global".
Definition ScopeContainer : RelationScope := "container".

Definition RelationRole := string.
Definition RoleProvider : RelationRole := "provider".
Definition RoleRequirer : RelationRole := "requirer".
Definition RolePeer : RelationRole := "peer".

Definition StorageType := string.
Definition StorageBlock : StorageType := "block".
Definition StorageFilesystem : StorageType := "filesystem".

(** ** Records *)

Record Filesystem := mkFilesystem {
  fs_Type : string;
  fs_MkfsOptions : option (list string);
  fs_MountOptions : option (list string)
}.

Record Storage := mkStorage {
  st_Name : string;
  st_Type : StorageType;
  st_Shared : bool;
  st_ReadOnly : bool;
  st_Persistent : bool;
  st_CountMin : Z;
  st_CountMax : Z;
  st_Location : string;
  st_Filesystem : option (list Filesystem)
}.

Record Relation := mkRelation {
  Name : string;
  Role : RelationRole;
  Interface : string;
  Optional : bool;
  Limit : Z;
  Scope : RelationScope
}.

Record Meta := mkMeta {
  m_Name : string;
  m_Summary : string;
  m_Description : string;
  m_Subordinate : bool;
  m_Provides : option (gmap string Relation);
  m_Requires : option (gmap string Relation);
  m_Peers : option (gmap string Relation);
  m_Format : Z;
  m_OldRevision : Z;
  m_Categories : option (list string);
  m_Tags : option (list string);
  m_Series : string;
  m_Storage : option (gmap string Storage)
}.

(** ** Go maps and slices *)

(** [for k, v := range m]: the entries of a possibly nil map. *)
Definition range {V : Type} (m : option (gmap string V)) : list (string * V) :=
  match m with
  | Some g => map_to_list g
  | None => []
  end.

(** [v, found := m[k]]: indexing a nil map finds nothing. *)
Definition index {V : Type} (m : option (gmap string V)) (k : string) : option V :=
  match m with
  | Some g => g !! k
  | None => None
  end.

(** [names[name]] on a [map[string]bool]: a missing key reads as false. *)
Definition flag (names : gmap string bool) (name : string) : bool :=
  default false (names !! name).

(** ** The untyped document tree

    What [yaml.Unmarshal] hands to the schema and what the schema hands
    back: nil, bool, integer, string, list, string-keyed map, and the
    [[2]int] pair that the storage count coercer produces. *)

Inductive Value : Type :=
  | VNil
  | VBool (b : bool)
  | VInt (n : Z)
  | VStr (s : string)
  | VList (l : list Value)
  | VMap (m : gmap string Value)
  | VCount (lo hi : Z).

(** ** Errors *)

(** The errors of [Meta.Check], one constructor per [fmt.Errorf] call, with
    the arguments of the call. *)
Inductive CheckError : Type :=
  | MismatchedRelationName (charm relName expected : string)
  | MismatchedRole (charm : string) (role expected : RelationRole)
  | ReservedRelationName (charm name : string)
  | ReservedInterface (charm name iface : string)
  | DuplicatedRelationName (charm name : string)
  | SubordinateLacksContainer (charm : string)
  | InvalidSeries (charm series : string)
  | LocationNotAllowed (charm name : string) (ty : StorageType)
  | FilesystemNotAllowed (charm name : string) (ty : StorageType)
  | StorageTypeMissing (charm name : string)
  | InvalidMinimumCount (charm name : string) (n : Z)
  | InvalidMaximumCount (charm name : string) (n : Z)
  | DuplicatedStorageName (charm name : string).

Inductive error : Type :=
  | SchemaMismatch (expected : string) (path : list string)
  | UnknownKey (key : string) (path : list string)
  | InvalidCount (where_ : string) (m : Z)
  | CountNoMatch (where_ : string) (s : string)
  | AtoiError (s : string)
  | MetadataError (e : error)
  | Invalid (e : CheckError).

Inductive outcome (A : Type) : Type :=
  | Ok (a : A)
  | Err (e : error)
  | Panic.
Arguments Ok {A} a.
Arguments Err {A} e.
Arguments Panic {A}.

#[global] Instance outcome_ret : MRet outcome := λ A a, Ok a.
#[global] Instance outcome_bind : MBind outcome := λ A B f x,
  match x with
  | Ok a => f a
  | Err e => Err e
  | Panic => Panic
  end.
#[global] Instance outcome_fmap : FMap outcome := λ A B f x,
  match x with
  | Ok a => Ok (f a)
  | Err e => Err e
  | Panic => Panic
  end.

(** [for _, x := range l { y, err := f(x); if err != nil { return err }; out = append(out, y) }] *)
Fixpoint mapM {A B : Type} (f : A → outcome B) (l : list A) : outcome (list B) :=
  match l with
  | [] => Ok []
  | x :: l' => y ← f x; ys ← mapM f l'; Ok (y :: ys)
  end.

(** The results of the iterations that produced one. *)
Definition somes {A : Type} (l : list (option A)) : list A :=
  omap (λ x : option A, x) l.

(** [for k, v := range m { ...; result[k] = w }]: a loop that builds a new
    map with one entry per entry of [m]. *)
Definition map_mapM {A B : Type} (f : string → A → outcome B)
    (m : gmap string A) : outcome (gmap string B) :=
  list_to_map <$> mapM (λ kv, w ← f kv.1 kv.2; Ok (kv.1, w)) (map_to_list m).

(** ** Relations *)

(** [Relation.IsImplicit] *)
Definition Relation_IsImplicit (r : Relation) : bool :=
  (Name r =? "juju-info") && (Interface r =? "juju-info") && (Role r =? RoleProvider).

(** The [Charm] interface, of which only [Meta() *Meta] is used.  The
    interface value can be nil ([None]) and so can the pointer its method
    returns; using either panics. *)
Record CharmImpl := { charm_Meta : option Meta }.
Definition Charm := option CharmImpl.

(** [ch.Meta().F]: call the method and dereference the result. *)
Definition Charm_Meta (ch : Charm) : outcome Meta :=
  match ch with
  | Some c => match charm_Meta c with Some m => Ok m | None => Panic end
  | None => Panic
  end.

(** [Relation.ImplementedBy] *)
Definition Relation_ImplementedBy (r : Relation) (ch : Charm) : outcome bool :=
  if Relation_IsImplicit r then Ok true
  else
    m ← (if Role r =? RoleProvider then m_Provides <$> Charm_Meta ch
         else if Role r =? RoleRequirer then m_Requires <$> Charm_Meta ch
         else if Role r =? RolePeer then m_Peers <$> Charm_Meta ch
         else Panic);
    match index m (Name r) with
    | None => Ok false
    | Some rel =>
        if Interface rel =? Interface r then
          if Scope r =? ScopeGlobal then Ok (negb (Scope rel =? ScopeContainer))
          else if Scope r =? ScopeContainer then Ok true
          else Panic
        else Ok false
    end.

(** [reservedName] *)
Definition reservedName (name : string) : bool :=
  (name =? "juju") || String.prefix "juju-" name.

(** ** Error texts of the validator *)


Section Messages.
(** [quote] is what the [%q] verb prints for a string ([strconv.Quote]). *)
Variable quote : string → string.

End Messages.


(** ** The validator: [Meta.Check] *)

Section Validator.
(** [IsValidSeries] lives in another file of the package. *)
Variable IsValidSeries : string → bool.

(** The body of the loop of the [checkRelations] closure: an error, or
    the [names] map with this relation's name recorded. *)
Definition checkRelation (meta : Meta) (role : RelationRole)
    (names : gmap string bool) (name : string) (rel : Relation)
    : CheckError + gmap string bool :=
  if negb (Name rel =? name) then
    inl (MismatchedRelationName (m_Name meta) (Name rel) name)
  else if negb (Role rel =? role) then
    inl (MismatchedRole (m_Name meta) (Role rel) role)
  else if (negb (m_Subordinate meta) || negb (role =? RoleRequirer)
             || negb (Scope rel =? ScopeContainer)) && reservedName name then
    inl (ReservedRelationName (m_Name meta) name)
  else if negb (role =? RoleRequirer) && reservedName (Interface rel) then
    inl (ReservedInterface (m_Name meta) name (Interface rel))
  else if flag names name then
    inl (DuplicatedRelationName (m_Name meta) name)
  else inr (<[name := true]> names).

Fixpoint checkRelationsLoop (meta : Meta) (role : RelationRole)
    (l : list (string * Relation)) (names : gmap string bool)
    : CheckError + gmap string bool :=
  match l with
  | [] => inr names
  | (name, rel) :: l' =>
      match checkRelation meta role names name rel with
      | inl e => inl e
      | inr names' => checkRelationsLoop meta role l' names'
      end
  end.

(** The [checkRelations] closure; [names] is the variable it captures. *)
Definition checkRelations (meta : Meta) (src : option (gmap string Relation))
    (role : RelationRole) (names : gmap string bool) : CheckError + gmap string bool :=
  checkRelationsLoop meta role (range src) names.

(** The subordinate rule: [valid] after the loop over [meta.Requires]. *)
Definition hasContainerScope (meta : Meta) : bool :=
  match m_Requires meta with
  | Some _ => existsb (λ kv, Scope kv.2 =? ScopeContainer) (range (m_Requires meta))
  | None => false
  end.

Definition checkSubordinate (meta : Meta) : option CheckError :=
  if m_Subordinate meta && negb (hasContainerScope meta) then
    Some (SubordinateLacksContainer (m_Name meta))
  else None.

Definition checkSeries (meta : Meta) : option CheckError :=
  if negb (m_Series meta =? EmptyString) && negb (IsValidSeries (m_Series meta)) then
    Some (InvalidSeries (m_Name meta) (m_Series meta))
  else None.

(** The body of the loop over [meta.Storage]. *)
Definition checkStore (meta : Meta) (names : gmap string bool)
    (name : string) (store : Storage) : CheckError + gmap string bool :=
  if negb (st_Location store =? EmptyString) && negb (st_Type store =? StorageFilesystem) then
    inl (LocationNotAllowed (m_Name meta) name (st_Type store))
  else if bool_decide (st_Filesystem store ≠ None) && negb (st_Type store =? StorageFilesystem) then
    inl (FilesystemNotAllowed (m_Name meta) name (st_Type store))
  else if st_Type store =? EmptyString then
    inl (StorageTypeMissing (m_Name meta) name)
  else if (st_CountMin store <? 0)%Z then
    inl (InvalidMinimumCount (m_Name meta) name (st_CountMin store))
  else if (st_CountMax store =? 0)%Z || (st_CountMax store <? -1)%Z then
    inl (InvalidMaximumCount (m_Name meta) name (st_CountMax store))
  else if flag names name then
    inl (DuplicatedStorageName (m_Name meta) name)
  else inr (<[name := true]> names).

Fixpoint checkStorageLoop (meta : Meta) (l : list (string * Storage))
    (names : gmap string bool) : option CheckError :=
  match l with
  | [] => None
  | (name, store) :: l' =>
      match checkStore meta names name store with
      | inl e => Some e
      | inr names' => checkStorageLoop meta l' names'
      end
  end.

(** The three calls of [checkRelations], which share [names]. *)
Definition checkAllRelations (meta : Meta) : option CheckError :=
  let names : gmap string bool := ∅ in
  match checkRelations meta (m_Provides meta) RoleProvider names with
  | inl e => Some e
  | inr names =>
  match checkRelations meta (m_Requires meta) RoleRequirer names with
  | inl e => Some e
  | inr names =>
  match checkRelations meta (m_Peers meta) RolePeer names with
  | inl e => Some e
  | inr _ => None
  end end end.

(** The loop over [meta.Storage], with a fresh [names]. *)
Definition checkStorage (meta : Meta) : option CheckError :=
  let names : gmap string bool := ∅ in
  checkStorageLoop meta (range (m_Storage meta)) names.

(** [Meta.Check]; [None] is the nil error. *)
Definition Meta_Check (meta : Meta) : option CheckError :=
  match checkAllRelations meta with
  | Some e => Some e
  | None =>
  match checkSubordinate meta with
  | Some e => Some e
  | None =>
  match checkSeries meta with
  | Some e => Some e
  | None => checkStorage meta
  end end end.
End Validator.

(** ** The hook table: [Meta.Hooks] *)

Section HookTable.
(** [hooks.UnitHooks()] and [hooks.RelationHooks()] of the hooks
    package, with each [hooks.Kind] as the string it is. *)
Variables UnitHooks RelationHooks : list string.

(** [generateRelationHooks]; the map argument is updated in place, here
    the updated map is returned. *)
Definition generateRelationHooks (relName : string) (allHooks : gmap string bool)
    : gmap string bool :=
  foldl (λ all hookName, <[relName +:+ "-" +:+ hookName := true]> all)
    allHooks RelationHooks.

(** [Meta.Hooks] *)
Definition Meta_Hooks (m : Meta) : gmap string bool :=
  let allHooks : gmap string bool := ∅ in
  let allHooks := foldl (λ all hookName, <[hookName := true]> all) allHooks UnitHooks in
  let allHooks := foldl (λ all kv, generateRelationHooks kv.1 all) allHooks
                    (range (m_Provides m)) in
  let allHooks := foldl (λ all kv, generateRelationHooks kv.1 all) allHooks
                    (range (m_Requires m)) in
  let allHooks := foldl (λ all kv, generateRelationHooks kv.1 all) allHooks
                    (range (m_Peers m)) in
  allHooks.
End HookTable.

(** ** Schema checkers

    The combinators of the [schema] package are not part of [meta.go];
    they are modelled from the specification (section 4.1), but for what
    [schema.Int()] and [schema.Bool()] make of a string.  There the
    specification says that a string is never taken for an integer,
    whereas [storageCountC.Coerce] relies on [schema.Int()] taking a
    numeral written as a string (its error message lists the bare [m]
    among the strings that it expects).  So the two conversions are
    parameters of the development: [intOfString s] is the integer that
    [schema.Int()] reads from the string [s], and [boolOfString s] the
    boolean that [schema.Bool()] reads from it, [None] when the checker
    refuses the string.  The package leaves them to [strconv.ParseInt] and
    [strconv.ParseBool]; a package that refuses every string is the
    instance that always answers [None]. *)
Class StringCoercion := {
  intOfString : string → option Z;
  boolOfString : string → option bool
}.

Definition Checker := Value → list string → outcome Value.

(** The map made of the fields that have a value. *)
Definition present (fields : list (string * option Value)) : gmap string Value :=
  list_to_map (omap (λ kv, pair kv.1 <$> kv.2) fields).

Inductive Default : Type :=
  | Omit
  | Dflt (v : Value).

(** Lookup in an ordered table with string keys. *)
Fixpoint assoc {A : Type} (k : string) (l : list (string * A)) : option A :=
  match l with
  | [] => None
  | (k', a) :: l' => if k =? k' then Some a else assoc k l'
  end.

(** Equality of two values as [Const] tests it: only scalars are equal. *)
Definition scalar_eqb (x y : Value) : bool :=
  match x, y with
  | VNil, VNil => true
  | VBool a, VBool b => Bool.eqb a b
  | VInt a, VInt b => (a =? b)%Z
  | VStr a, VStr b => a =? b
  | _, _ => false
  end.

(** Modelled from the spec: [schema.String()], which accepts exactly the
    string scalars. *)
Definition schema_String : Checker := λ v path,
  match v with
  | VStr s => Ok (VStr s)
  | _ => Err (SchemaMismatch "string" path)
  end.

Section Scalars.
Context {coercion : StringCoercion}.

(** Modelled from the spec: [schema.Bool()], which returns a boolean as it
    is; a string is left to [boolOfString], and what it reads is returned
    as a boolean. *)
Definition schema_Bool : Checker := λ v path,
  match v with
  | VBool b => Ok (VBool b)
  | VStr s =>
      match boolOfString s with
      | Some b => Ok (VBool b)
      | None => Err (SchemaMismatch "bool" path)
      end
  | _ => Err (SchemaMismatch "bool" path)
  end.

(** Modelled from the spec: [schema.Int()], which returns an integer as it
    is; a string is left to [intOfString], and what it reads is returned
    as an integer. *)
Definition schema_Int : Checker := λ v path,
  match v with
  | VInt n => Ok (VInt n)
  | VStr s =>
      match intOfString s with
      | Some n => Ok (VInt n)
      | None => Err (SchemaMismatch "int" path)
      end
  | _ => Err (SchemaMismatch "int" path)
  end.
End Scalars.

(** Modelled from the spec: [schema.Any()], which accepts every value. *)
Definition schema_Any : Checker := λ v path, Ok v.

(** Modelled from the spec: [schema.Const(x)]. *)
Definition schema_Const (x : Value) : Checker := λ v path,
  if scalar_eqb x v then Ok v else Err (SchemaMismatch "constant" path).

(** Modelled from the spec: [schema.OneOf(options...)] tries the checkers
    from left to right and returns the first success, or the last failure
    when all fail. *)
Fixpoint schema_OneOf (options : list Checker) : Checker := λ v path,
  match options with
  | [] => Err (SchemaMismatch "one of" path)
  | c :: cs =>
      match c v path with
      | Ok v' => Ok v'
      | Panic => Panic
      | Err e => match cs with [] => Err e | _ => schema_OneOf cs v path end
      end
  end.

(** Modelled from the spec: [schema.List(elem)] applies [elem] to every
    element under that element's path and fails on the first error. *)
Definition schema_List (elem : Checker) : Checker := λ v path,
  match v with
  | VList l =>
      VList <$> mapM (λ ix, elem ix.2 (path ++ ["["; pretty ix.1; "]"])%list) (imap pair l)
  | _ => Err (SchemaMismatch "list" path)
  end.

(** Modelled from the spec: [schema.StringMap(elem)] applies [elem] to
    every value of a map. *)
Definition schema_StringMap (elem : Checker) : Checker := λ v path,
  match v with
  | VMap m => VMap <$> map_mapM (λ k x, elem x (path ++ ["."; k])%list) m
  | _ => Err (SchemaMismatch "map" path)
  end.

Section FieldMaps.
Context {coercion : StringCoercion}.
(** The specification says that a [FieldMap] rejects input keys it does
    not declare ([strict = true]).  Since the package is not at hand,
    the development holds for both readings. *)
Variable strict : bool.

(** Modelled from the spec: one declared field of a [FieldMap], its key
    with its coerced value, or with nothing when the input omits it and
    its default is [Omit]. *)
Definition fieldStep (m : gmap string Value) (defaults : list (string * Default))
    (path : list string) (kc : string * Checker) : outcome (string * option Value) :=
  let vpath := (path ++ ["."; kc.1])%list in
  match m !! kc.1 with
  | Some value => newv ← kc.2 value vpath; Ok (kc.1, Some newv)
  | None =>
      match assoc kc.1 defaults with
      | Some Omit => Ok (kc.1, None)
      | Some (Dflt d) => newv ← kc.2 d vpath; Ok (kc.1, Some newv)
      | None => newv ← kc.2 VNil vpath; Ok (kc.1, Some newv)
      end
  end.

(** Modelled from the spec: the first key of the input that the
    [FieldMap] does not declare, which is an error. *)
Definition unknownKey (fields : list (string * Checker)) (m : gmap string Value)
    : option string :=
  if strict then
    List.find (λ k, negb (bool_decide (k ∈ fields.*1))) (map_to_list m).*1
  else None.

(** Modelled from the spec: [schema.FieldMap(fields, defaults)]. *)
Definition schema_FieldMap (fields : list (string * Checker))
    (defaults : list (string * Default)) : Checker := λ v path,
  match v with
  | VMap m =>
      match unknownKey fields m with
      | Some k => Err (UnknownKey k path)
      | None =>
          outs ← mapM (fieldStep m defaults path) fields;
          Ok (VMap (present outs))
      end
  | _ => Err (SchemaMismatch "map" path)
  end.

(** *** The relation shorthand expander *)

Definition stringC : Checker := schema_String.
Definition mapC : Checker := schema_StringMap schema_Any.

Definition ifaceSchema : Checker :=
  schema_FieldMap
    [ ("interface", schema_String);
      ("limit", schema_OneOf [schema_Const VNil; schema_Int]);
      ("scope", schema_OneOf [schema_Const (VStr ScopeGlobal);
                              schema_Const (VStr ScopeContainer)]);
      ("optional", schema_Bool) ]
    [ ("scope", Dflt (VStr ScopeGlobal));
      ("optional", Dflt (VBool false)) ].

(** [ifaceExpC.Coerce]; [limit] is the field of the receiver. *)
Definition ifaceExpC_Coerce (limit : Value) : Checker := λ v path,
  match stringC v path with
  | Ok s =>
      Ok (VMap (<["interface" := s]> (<["limit" := limit]>
            (<["optional" := VBool false]> (<["scope" := VStr ScopeGlobal]> ∅)))))
  | Panic => Panic
  | Err _ =>
      match mapC v path with
      | Err e => Err e
      | Panic => Panic
      | Ok (VMap m) =>
          let m := match m !! "limit" with
                   | Some _ => m
                   | None => <["limit" := limit]> m
                   end in
          ifaceSchema (VMap m) path
      | Ok _ => Panic
      end
  end.

(** [ifaceExpander] *)
Definition ifaceExpander (limit : Value) : Checker := ifaceExpC_Coerce limit.

(** *** The storage count coercer *)

Definition isDigit (c : Ascii.ascii) : bool :=
  (48 <=? Ascii.nat_of_ascii c)%nat && (Ascii.nat_of_ascii c <=? 57)%nat.

(** The longest prefix of digits, and the rest. *)
Fixpoint spanDigits (s : string) : string * string :=
  match s with
  | String c s' =>
      if isDigit c then (String c (spanDigits s').1, (spanDigits s').2)
      else (EmptyString, s)
  | EmptyString => (EmptyString, EmptyString)
  end.

(** [storageCountRE.FindStringSubmatch].  The pattern is anchored at
    both ends: a first group of one or more digits, a dash, and a second
    group of zero or more digits.  The result is the two groups, or
    nothing when the string does not match. *)
Definition storageCountRE_FindStringSubmatch (s : string) : option (string * string) :=
  match spanDigits s with
  | (String c m, String "-"%char rest) =>
      match spanDigits rest with
      | (n, EmptyString) => Some (String c m, n)
      | _ => None
      end
  | _ => None
  end.

Fixpoint digitsValue (acc : Z) (s : string) : option Z :=
  match s with
  | EmptyString => Some acc
  | String c s' =>
      if isDigit c then digitsValue (acc * 10 + (Z.of_nat (Ascii.nat_of_ascii c) - 48))%Z s'
      else None
  end.

(** [strconv.Atoi]: an optional sign, then decimal digits; the value has
    to fit a 64-bit [int]. *)
Definition Atoi (s : string) : outcome Z :=
  let parse (neg : bool) (digits : string) : outcome Z :=
    match digits with
    | EmptyString => Err (AtoiError s)
    | _ =>
        match digitsValue 0 digits with
        | Some n =>
            let n := if neg then (- n)%Z else n in
            if (- 2 ^ 63 <=? n)%Z && (n <=? 2 ^ 63 - 1)%Z then Ok n else Err (AtoiError s)
        | None => Err (AtoiError s)
        end
    end in
  match s with
  | String "-"%char d => parse true d
  | String "+"%char d => parse false d
  | _ => parse false s
  end.

(** [strings.Join(path[1:], "")]; slicing an empty path panics. *)
Definition joinTail (path : list string) : outcome string :=
  match path with
  | [] => Panic
  | _ :: p => Ok (String.concat EmptyString p)
  end.

(** [storageCountC.Coerce] *)
Definition storageCountC_Coerce : Checker := λ v path,
  match schema_OneOf [schema_Int; stringC] v path with
  | Err e => Err e
  | Panic => Panic
  | Ok (VInt m) =>
      if (m <=? 0)%Z then w ← joinTail path; Err (InvalidCount w m)
      else Ok (VCount (-1) m)
  | Ok (VStr s) =>
      match storageCountRE_FindStringSubmatch s with
      | None => w ← joinTail path; Err (CountNoMatch w s)
      | Some (m1, m2) =>
          m ← Atoi m1;
          n ← (if (String.length m2 =? 0)%nat then Ok (-1)%Z else Atoi m2);
          Ok (VCount m n)
      end
  | Ok _ => Panic
  end.

(** *** The schemas *)

Definition filesystemSchema : Checker :=
  schema_FieldMap
    [ ("type", schema_String);
      ("mkfs-options", schema_List schema_String);
      ("options", schema_List schema_String) ]
    [ ("mkfs-options", Omit);
      ("options", Omit) ].

Definition storageSchema : Checker :=
  schema_FieldMap
    [ ("required", schema_Bool);
      ("shared", schema_Bool);
      ("read-only", schema_Bool);
      ("persistent", schema_Bool);
      ("count", storageCountC_Coerce);
      ("location", schema_String);
      ("type", schema_OneOf [schema_Const (VStr StorageBlock);
                             schema_Const (VStr StorageFilesystem)]);
      ("filesystem", schema_List (schema_OneOf [schema_String; filesystemSchema])) ]
    [ ("required", Dflt (VBool false));
      ("shared", Dflt (VBool false));
      ("read-only", Dflt (VBool false));
      ("persistent", Dflt (VBool false));
      ("count", Omit);
      ("location", Omit);
      ("filesystem", Omit) ].

Definition charmFields : list (string * Checker) :=
  [ ("name", schema_String);
    ("summary", schema_String);
    ("description", schema_String);
    ("peers", schema_StringMap (ifaceExpander (VInt 1)));
    ("provides", schema_StringMap (ifaceExpander VNil));
    ("requires", schema_StringMap (ifaceExpander (VInt 1)));
    ("revision", schema_Int);
    ("format", schema_Int);
    ("subordinate", schema_Bool);
    ("categories", schema_List schema_String);
    ("tags", schema_List schema_String);
    ("series", schema_String);
    ("storage", schema_StringMap storageSchema) ].

Definition charmDefaults : list (string * Default) :=
  [ ("provides", Omit);
    ("requires", Omit);
    ("peers", Omit);
    ("revision", Omit);
    ("format", Dflt (VInt 1));
    ("subordinate", Omit);
    ("categories", Omit);
    ("tags", Omit);
    ("series", Omit);
    ("storage", Omit) ].

Definition charmSchema : Checker := schema_FieldMap charmFields charmDefaults.
End FieldMaps.

(** ** The decoder *)

(** [m[k]] on a [map[string]interface{}]: nil when the key is absent. *)
Definition at_key (m : gmap string Value) (k : string) : Value :=
  default VNil (m !! k).

(** [v == nil] *)
Definition isNil (v : Value) : bool :=
  match v with VNil => true | _ => false end.

(** Type assertions [v.(T)], which panic on any other dynamic type. *)
Definition asString (v : Value) : outcome string :=
  match v with VStr s => Ok s | _ => Panic end.
Definition asBool (v : Value) : outcome bool :=
  match v with VBool b => Ok b | _ => Panic end.
Definition asInt64 (v : Value) : outcome Z :=
  match v with VInt n => Ok n | _ => Panic end.
Definition asMap (v : Value) : outcome (gmap string Value) :=
  match v with VMap m => Ok m | _ => Panic end.
Definition asList (v : Value) : outcome (list Value) :=
  match v with VList l => Ok l | _ => Panic end.

(** [parseStringList] *)
Definition parseStringList (list_ : Value) : outcome (option (list string)) :=
  if isNil list_ then Ok None
  else slice ← asList list_; Some <$> mapM asString slice.

(** The body of the loop of [parseRelations]. *)
Definition parseRelation (name : string) (role : RelationRole) (rel : Value)
    : outcome Relation :=
  relMap ← asMap rel;
  iface ← asString (at_key relMap "interface");
  optional ← asBool (at_key relMap "optional");
  scope ← (if isNil (at_key relMap "scope") then Ok EmptyString
           else asString (at_key relMap "scope"));
  limit ← (if isNil (at_key relMap "limit") then Ok 0%Z
           else asInt64 (at_key relMap "limit"));
  Ok {| Name := name; Role := role; Interface := iface;
        Optional := optional; Limit := limit; Scope := scope |}.

(** [parseRelations] *)
Definition parseRelations (relations : Value) (role : RelationRole)
    : outcome (option (gmap string Relation)) :=
  if isNil relations then Ok None
  else
    m ← asMap relations;
    Some <$> map_mapM (λ name rel, parseRelation name role rel) m.

(** One element of the list in [parseFilesystem]; an element that is
    neither a string nor a map is skipped. *)
Definition parseFilesystemElem (elem : Value) : outcome (option Filesystem) :=
  match elem with
  | VStr s => Ok (Some {| fs_Type := s; fs_MkfsOptions := None; fs_MountOptions := None |})
  | VMap m =>
      ty ← asString (at_key m "type");
      mount ← parseStringList (at_key m "options");
      mkfs ← parseStringList (at_key m "mkfs-options");
      Ok (Some {| fs_Type := ty; fs_MkfsOptions := mkfs; fs_MountOptions := mount |})
  | _ => Ok None
  end.

(** [parseFilesystem] *)
Definition parseFilesystem (filesystems : Value) : outcome (option (list Filesystem)) :=
  if isNil filesystems then Ok None
  else
    slice ← asList filesystems;
    r ← mapM parseFilesystemElem slice;
    Ok (Some (somes r)).

(** The body of the loop of [parseStorage]. *)
Definition parseStore (name : string) (store : Value) : outcome Storage :=
  storeMap ← asMap store;
  ty ← asString (at_key storeMap "type");
  shared ← asBool (at_key storeMap "shared");
  readOnly ← asBool (at_key storeMap "read-only");
  persistent ← asBool (at_key storeMap "persistent");
  required ← asBool (at_key storeMap "required");
  let count : Z * Z := match at_key storeMap "count" with
                       | VCount lo hi => (lo, hi)
                       | _ => ((-1)%Z, 1%Z)
                       end in
  let countMax : Z := snd count in
  let countMin : Z := if (fst count =? -1)%Z
                      then (if required : bool then countMax else 0%Z)
                      else fst count in
  let location : string := match at_key storeMap "location" with
                           | VStr loc => loc
                           | _ => EmptyString
                           end in
  filesystem ← parseFilesystem (at_key storeMap "filesystem");
  Ok {| st_Name := name; st_Type := ty; st_Shared := shared; st_ReadOnly := readOnly;
        st_Persistent := persistent; st_CountMin := countMin; st_CountMax := countMax;
        st_Location := location; st_Filesystem := filesystem |}.

(** [parseStorage] *)
Definition parseStorage (stores : Value) : outcome (option (gmap string Storage)) :=
  if isNil stores then Ok None
  else
    m ← asMap stores;
    Some <$> map_mapM parseStore m.

Section Decoder.
Context {coercion : StringCoercion}.
Variable strict : bool.
Variable IsValidSeries : string → bool.

(** [ReadMeta], from the tree that [yaml.Unmarshal] fills [raw] with. *)
Definition ReadMeta (raw : gmap string Value) : outcome Meta :=
  match charmSchema strict (VMap raw) [] with
  | Err e => Err (MetadataError e)
  | Panic => Panic
  | Ok v =>
      m ← asMap v;
      name ← asString (at_key m "name");
      summary ← asString (at_key m "summary");
      description ← asString (at_key m "description");
      provides ← parseRelations (at_key m "provides") RoleProvider;
      requires ← parseRelations (at_key m "requires") RoleRequirer;
      peers ← parseRelations (at_key m "peers") RolePeer;
      format ← asInt64 (at_key m "format");
      categories ← parseStringList (at_key m "categories");
      tags ← parseStringList (at_key m "tags");
      subordinate ← (if isNil (at_key m "subordinate") then Ok false
                     else asBool (at_key m "subordinate"));
      oldRevision ← (if isNil (at_key m "revision") then Ok 0%Z
                     else asInt64 (at_key m "revision"));
      series ← (if isNil (at_key m "series") then Ok EmptyString
                else asString (at_key m "series"));
      storage ← parseStorage (at_key m "storage");
      let meta := {| m_Name := name; m_Summary := summary; m_Description := description;
                     m_Subordinate := subordinate; m_Provides := provides;
                     m_Requires := requires; m_Peers := peers; m_Format := format;
                     m_OldRevision := oldRevision; m_Categories := categories;
                     m_Tags := tags; m_Series := series; m_Storage := storage |} in
      match Meta_Check IsValidSeries meta with
      | Some err => Err (Invalid err)
      | None => Ok meta
      end
  end.
End Decoder.

(** ** The encoder *)

(** The anonymous struct that [marshaledRelation.GetYAML] fills in the
    full form; [mr_Limit] is the [*int], nil when [None]. *)
Record RelationFields := mkRelationFields {
  mr_Interface : string;
  mr_Limit : option Z;
  mr_Optional : bool;
  mr_Scope : RelationScope
}.

(** What [marshaledRelation.GetYAML] returns: the bare interface string,
    or the struct. *)
Inductive RelationYAML : Type :=
  | Shorthand (iface : string)
  | FullForm (mr : RelationFields).

(** [marshaledRelation.GetYAML] *)
Definition marshaledRelation_GetYAML (r : Relation) : RelationYAML :=
  let noLimit := if Role r =? RoleProvider then 0%Z else 1%Z in
  if negb (Optional r) && (Limit r =? noLimit)%Z && (Scope r =? ScopeGlobal) then
    Shorthand (Interface r)
  else
    FullForm {| mr_Interface := Interface r;
                mr_Limit := if negb (Limit r =? noLimit)%Z then Some (Limit r) else None;
                mr_Optional := Optional r;
                mr_Scope := if negb (Scope r =? ScopeGlobal) then Scope r else EmptyString |}.

(** The anonymous struct that [Meta.GetYAML] returns; the relation maps
    are the ones the [marshaledRelations] closure makes, never nil. *)
Record MetaFields := mkMetaFields {
  y_Name : string;
  y_Summary : string;
  y_Description : string;
  y_Provides : gmap string Relation;
  y_Requires : gmap string Relation;
  y_Peers : gmap string Relation;
  y_Categories : option (list string);
  y_Tags : option (list string);
  y_Subordinate : bool;
  y_Series : string
}.

(** The [marshaledRelations] closure of [Meta.GetYAML]. *)
Definition marshaledRelations (rs : option (gmap string Relation)) : gmap string Relation :=
  foldl (λ mrs kv, <[kv.1 := kv.2]> mrs) ∅ (range rs).

(** [Meta.GetYAML] *)
Definition Meta_GetYAML (m : Meta) : MetaFields :=
  {| y_Name := m_Name m;
     y_Summary := m_Summary m;
     y_Description := m_Description m;
     y_Provides := marshaledRelations (m_Provides m);
     y_Requires := marshaledRelations (m_Requires m);
     y_Peers := marshaledRelations (m_Peers m);
     y_Categories := m_Categories m;
     y_Tags := m_Tags m;
     y_Subordinate := m_Subordinate m;
     y_Series := m_Series m |}.

(** *** The tree that the YAML library is to write for these structs

    The YAML library is not part of [meta.go].  The definitions below are
    modelled from the specification (section 4.6) and the struct tags of
    [meta.go]: they give the tree of the document that [yaml.Marshal]
    writes, not what [yaml.Unmarshal] makes of the text.  That the library
    reads the tree back from the text is a hypothesis wherever a statement
    needs it. *)

(** Modelled from the spec: a field tagged [omitempty] is left out when
    its value is the zero value (false, the empty string, a nil pointer, a
    map or slice of length 0). *)
Definition omitempty (isZero : bool) (v : Value) : option Value :=
  if isZero then None else Some v.

(** Modelled from the spec: a slice of strings is written as a list. *)
Definition yaml_strings (l : option (list string)) : Value :=
  VList (VStr <$> default [] l).

(** Modelled from the spec: a value with a [GetYAML] method is replaced by
    what the method returns, and a struct becomes a map keyed by the field
    tags. *)
Definition yaml_relation (r : Relation) : Value :=
  match marshaledRelation_GetYAML r with
  | Shorthand iface => VStr iface
  | FullForm mr =>
      VMap (present
        [ ("interface", Some (VStr (mr_Interface mr)));
          ("limit", VInt <$> mr_Limit mr);
          ("optional", omitempty (negb (mr_Optional mr)) (VBool (mr_Optional mr)));
          ("scope", omitempty (mr_Scope mr =? EmptyString) (VStr (mr_Scope mr))) ])
  end.

(** Modelled from the spec: a map of relations, tagged [omitempty]. *)
Definition yaml_relations (rs : gmap string Relation) : option Value :=
  omitempty (bool_decide (rs = ∅)) (VMap (yaml_relation <$> rs)).

(** Modelled from the spec: the struct of [Meta.GetYAML] as a map keyed by
    its field tags. *)
Definition yaml_meta (y : MetaFields) : gmap string Value :=
  present
    [ ("name", Some (VStr (y_Name y)));
      ("summary", Some (VStr (y_Summary y)));
      ("description", Some (VStr (y_Description y)));
      ("provides", yaml_relations (y_Provides y));
      ("requires", yaml_relations (y_Requires y));
      ("peers", yaml_relations (y_Peers y));
      ("categories", omitempty (bool_decide (default [] (y_Categories y) = []))
                       (yaml_strings (y_Categories y)));
      ("tags", omitempty (bool_decide (default [] (y_Tags y) = []))
                 (yaml_strings (y_Tags y)));
      ("subordinate", omitempty (negb (y_Subordinate y)) (VBool (y_Subordinate y)));
      ("series", omitempty (y_Series y =? EmptyString) (VStr (y_Series y))) ].

(** Encoding a record: the tree of the document that [yaml.Marshal]
    writes for what [Meta.GetYAML] returns. *)
Definition Encode (m : Meta) : gmap string Value := yaml_meta (Meta_GetYAML m).

(** ** The reader and the text

    [ReadMeta] starts with two calls of libraries that are not part of
    [meta.go]: [ioutil.ReadAll] on its reader, and [yaml.Unmarshal] on the
    text that was read.  The reader is given here by what [ioutil.ReadAll]
    returns for it, and [yaml.Unmarshal] is a parameter.  An error of
    either call is returned as it is ([inl]); what follows is [ReadMeta]
    above. *)
Section Reader.
Context {coercion : StringCoercion} {E Text : Type}.
Variable strict : bool.
Variable IsValidSeries : string → bool.
Variable Unmarshal : Text → E + gmap string Value.

(** [ReadMeta], from its reader. *)
Definition ReadMeta_reader (r : E + Text) : E + outcome Meta :=
  match r with
  | inl err => inl err
  | inr data =>
      match Unmarshal data with
      | inl err => inl err
      | inr raw => inr (ReadMeta strict IsValidSeries raw)
      end
  end.
End Reader.

(** ** Vocabulary of the statements *)

(** A loop body or a loop that returned an error. *)
Definition rejected {A B : Type} (x : A + B) : Prop := ∃ e, x = inl e.

(** The three relation mappings of a record, each with the role that
    [Meta.Check] passes to [checkRelations] for it. *)
Definition mappings (meta : Meta) : list (option (gmap string Relation) * RelationRole) :=
  [ (m_Provides meta, RoleProvider);
    (m_Requires meta, RoleRequirer);
    (m_Peers meta, RolePeer) ].

(** The tests of the body of the storage loop, apart from the one on
    duplicated names. *)
Definition storage_violation (st : Storage) : Prop :=
  (st_Location st ≠ EmptyString ∧ st_Type st ≠ StorageFilesystem)
  ∨ (st_Filesystem st ≠ None ∧ st_Type st ≠ StorageFilesystem)
  ∨ st_Type st = EmptyString
  ∨ (st_CountMin st < 0)%Z
  ∨ st_CountMax st = 0%Z
  ∨ (st_CountMax st < -1)%Z.

(** ** Sample records and documents *)

(** A series predicate that accepts every name. *)
Definition anySeries : string → bool := λ _, true.

Definition relation (name : string) (role : RelationRole) (iface : string)
    (scope : RelationScope) : Relation :=
  {| Name := name; Role := role; Interface := iface; Optional := false;
     Limit := if role =? RoleProvider then 0%Z else 1%Z; Scope := scope |}.

(** The relation that juju itself supplies. *)
Definition juju_info : Relation :=
  relation "juju-info" RoleProvider "juju-info" ScopeGlobal.

Definition charm (subordinate : bool)
    (provides requires peers : option (gmap string Relation))
    (storage : option (gmap string Storage)) : Meta :=
  {| m_Name := "wordpress"; m_Summary := "blog"; m_Description := "a blog engine";
     m_Subordinate := subordinate; m_Provides := provides; m_Requires := requires;
     m_Peers := peers; m_Format := 1; m_OldRevision := 0; m_Categories := None;
     m_Tags := None; m_Series := EmptyString; m_Storage := storage |}.

Definition store (ty : StorageType) (location : string)
    (filesystem : option (list Filesystem)) : Storage :=
  {| st_Name := "data"; st_Type := ty; st_Shared := false; st_ReadOnly := false;
     st_Persistent := false; st_CountMin := 0; st_CountMax := 1;
     st_Location := location; st_Filesystem := filesystem |}.

(** A document with the three required fields of [charm] and more. *)
Definition document (more : list (string * Value)) : gmap string Value :=
  list_to_map
    (("name", VStr "wordpress") :: ("summary", VStr "blog")
       :: ("description", VStr "a blog engine") :: more).

(** A document with one storage entry, [data], of type block. *)
Definition storage_document (required : option bool) (count : option Value)
    : gmap string Value :=
  document
    [ ("storage",
       VMap {[ "data" :=
         VMap (present [ ("type", Some (VStr StorageBlock));
                             ("required", VBool <$> required);
                             ("count", count) ]) ]}) ].

(** The minimum and maximum count of the storage entry [data] of a
    decoded record, when there is one. *)
Definition data_counts (o : outcome Meta) : outcome (option (Z * Z)) :=
  (λ meta, (λ st, (st_CountMin st, st_CountMax st)) <$> index (m_Storage meta) "data") <$> o.

(** The full form of a relation, as the expander yields it in a mapping
    whose default limit is [limit]. *)
Definition expanded (limit : Value) (r : Relation) : Value :=
  VMap (<["interface" := VStr (Interface r)]>
       (<["limit" := if Z.eqb (Limit r) (if Role r =? RoleProvider then 0%Z else 1%Z)
                     then limit else VInt (Limit r)]>
       (<["optional" := VBool (Optional r)]>
       (<["scope" := VStr (Scope r)]> ∅)))).

(** What the decoder reads back for a map or a list that the encoder left
    out because it was empty: nil. *)
Definition nonempty_map {V : Type} (m : option (gmap string V)) : option (gmap string V) :=
  match m with
  | Some g => if bool_decide (g = ∅) then None else Some g
  | None => None
  end.

Definition nonempty_list {A : Type} (l : option (list A)) : option (list A) :=
  match l with
  | Some (x :: l') => Some (x :: l')
  | _ => None
  end.

(** What the encoder keeps of a record: it writes neither the format, nor
    the obsolete revision, nor the storage. *)
Definition encoded_part (m : Meta) : Meta :=
  {| m_Name := m_Name m;
     m_Summary := m_Summary m;
     m_Description := m_Description m;
     m_Subordinate := m_Subordinate m;
     m_Provides := nonempty_map (m_Provides m);
     m_Requires := nonempty_map (m_Requires m);
     m_Peers := nonempty_map (m_Peers m);
     m_Format := 1;
     m_OldRevision := 0;
     m_Categories := nonempty_list (m_Categories m);
     m_Tags := nonempty_list (m_Tags m);
     m_Series := m_Series m;
     m_Storage := None |}.

(** The fields that [charmSchema] yields for the encoding of [R], in the
    order of [charmFields]. *)
Definition coerced (R : Meta) : list (string * option Value) :=
  let relations (limit : Value) (rs : option (gmap string Relation)) :=
    omitempty (bool_decide (default ∅ rs = ∅)) (VMap (expanded limit <$> default ∅ rs)) in
  let strings (l : option (list string)) :=
    omitempty (bool_decide (default [] l = [])) (yaml_strings l) in
  [ ("name", Some (VStr (m_Name R)));
    ("summary", Some (VStr (m_Summary R)));
    ("description", Some (VStr (m_Description R)));
    ("peers", relations (VInt 1) (m_Peers R));
    ("provides", relations VNil (m_Provides R));
    ("requires", relations (VInt 1) (m_Requires R));
    ("revision", None);
    ("format", Some (VInt 1));
    ("subordinate", omitempty (negb (m_Subordinate R)) (VBool (m_Subordinate R)));
    ("categories", strings (m_Categories R));
    ("tags", strings (m_Tags R));
    ("series", omitempty (m_Series R =? EmptyString) (VStr (m_Series R)));
    ("storage", None) ].

(** ** Vocabulary of the further properties *)


(** Two checkers that return the same for every value and path. *)
Definition same_checker (c1 c2 : Checker) : Prop := ∀ v p, c1 v p = c2 v p.

(** A checker that does not panic when it is given a path that is not
    empty, as every checker inside a field map, a map or a list is. *)
Definition safe (c : Checker) : Prop := ∀ v p, p ≠ [] → c v p ≠ Panic.

(** The limit of a decoded relation for a limit value of the schema. *)
Definition limitOf (l : Value) : Z :=
  match l with VInt n => n | _ => 0%Z end.

Section Readings.
Context {coercion : StringCoercion}.

(** The integer that [schema.Int()] reads from a value: the value itself,
    or what [intOfString] makes of a string. *)
Definition reads_int (v : Value) (n : Z) : Prop :=
  v = VInt n ∨ ∃ s, v = VStr s ∧ intOfString s = Some n.

(** The boolean that [schema.Bool()] reads from a value. *)
Definition reads_bool (v : Value) (b : bool) : Prop :=
  v = VBool b ∨ ∃ s, v = VStr s ∧ boolOfString s = Some b.

(** How a decoded relation [r] reads the document entry [x] in a mapping
    whose default limit is [limit0]. *)
Definition relation_of (limit0 : Z) (x : Value) (r : Relation) : Prop :=
  (x = VStr (Interface r) ∧ Optional r = false ∧ Limit r = limit0 ∧ Scope r = ScopeGlobal)
  ∨ (∃ m, x = VMap m
          ∧ m !! "interface" = Some (VStr (Interface r))
          ∧ match m !! "optional" with
            | Some v => reads_bool v (Optional r)
            | None => Optional r = false
            end
          ∧ match m !! "scope" with
            | Some v => v = VStr (Scope r)
            | None => Scope r = ScopeGlobal
            end
          ∧ match m !! "limit" with
            | Some VNil => Limit r = 0%Z
            | Some v => reads_int v (Limit r)
            | None => Limit r = limit0
            end).

(** How the decoded mapping [rels] reads the document field [entry]. *)
Definition mapping_of (limit0 : Z) (entry : option Value)
    (rels : option (gmap string Relation)) : Prop :=
  match entry with
  | None => rels = None
  | Some v =>
      ∃ pm g, v = VMap pm ∧ rels = Some g
              ∧ ∀ k, match pm !! k with
                     | None => g !! k = None
                     | Some x => ∃ r, g !! k = Some r ∧ relation_of limit0 x r
                     end
  end.

(** How a decoded list of strings reads its document field. *)
Definition strings_of (entry : option Value) (l : option (list string)) : Prop :=
  match entry with
  | None => l = None
  | Some v => ∃ l', v = VList (VStr <$> l') ∧ l = Some l'
  end.

(** How the scalar fields and the string lists of a decoded record read
    the document. *)
Definition scalars_of (doc : gmap string Value) (meta : Meta) : Prop :=
  doc !! "name" = Some (VStr (m_Name meta))
  ∧ doc !! "summary" = Some (VStr (m_Summary meta))
  ∧ doc !! "description" = Some (VStr (m_Description meta))
  ∧ reads_int (default (VInt 1) (doc !! "format")) (m_Format meta)
  ∧ reads_bool (default (VBool false) (doc !! "subordinate")) (m_Subordinate meta)
  ∧ reads_int (default (VInt 0) (doc !! "revision")) (m_OldRevision meta)
  ∧ default (VStr EmptyString) (doc !! "series") = VStr (m_Series meta)
  ∧ strings_of (doc !! "categories") (m_Categories meta)
  ∧ strings_of (doc !! "tags") (m_Tags meta).

(** How a decoded filesystem reads an element of the document's list. *)
Definition filesystem_of (x : Value) (f : Filesystem) : Prop :=
  (x = VStr (fs_Type f) ∧ fs_MkfsOptions f = None ∧ fs_MountOptions f = None)
  ∨ (∃ m, x = VMap m
          ∧ m !! "type" = Some (VStr (fs_Type f))
          ∧ strings_of (m !! "options") (fs_MountOptions f)
          ∧ strings_of (m !! "mkfs-options") (fs_MkfsOptions f)).

(** How the counts of a decoded storage entry read the document's count,
    for the entry's [required]: an integer (written as such or as a string
    that is read as one) is the maximum, and a string that is not read as
    an integer gives the two numbers of the count pattern. *)
Definition counts_of (count : option Value) (required : bool) (st : Storage) : Prop :=
  match count with
  | None => st_CountMax st = 1%Z ∧ st_CountMin st = (if required then 1%Z else 0%Z)
  | Some v =>
      (∃ c, reads_int v c ∧ (0 < c)%Z ∧ st_CountMax st = c
            ∧ st_CountMin st = (if required then c else 0%Z))
      ∨ (∃ s a b, v = VStr s ∧ intOfString s = None
                  ∧ storageCountRE_FindStringSubmatch s = Some (a, b)
                  ∧ Atoi a = Ok (st_CountMin st)
                  ∧ match b with
                    | EmptyString => st_CountMax st = (-1)%Z
                    | _ => Atoi b = Ok (st_CountMax st)
                    end)
  end.

(** How a decoded storage entry reads the document's entry. *)
Definition store_of (x : Value) (st : Storage) : Prop :=
  ∃ m required,
    x = VMap m
    ∧ m !! "type" = Some (VStr (st_Type st))
    ∧ reads_bool (default (VBool false) (m !! "required")) required
    ∧ reads_bool (default (VBool false) (m !! "shared")) (st_Shared st)
    ∧ reads_bool (default (VBool false) (m !! "read-only")) (st_ReadOnly st)
    ∧ reads_bool (default (VBool false) (m !! "persistent")) (st_Persistent st)
    ∧ default (VStr EmptyString) (m !! "location") = VStr (st_Location st)
    ∧ match m !! "filesystem" with
      | None => st_Filesystem st = None
      | Some v => ∃ l fl, v = VList l ∧ st_Filesystem st = Some fl
                          ∧ Forall2 filesystem_of l fl
      end
    ∧ counts_of (m !! "count") required st.

(** How the decoded storage reads the document field. *)
Definition storage_of (entry : option Value) (stores : option (gmap string Storage)) : Prop :=
  match entry with
  | None => stores = None
  | Some v =>
      ∃ sm g, v = VMap sm ∧ stores = Some g
              ∧ ∀ k, match sm !! k with
                     | None => g !! k = None
                     | Some x => ∃ st, g !! k = Some st ∧ store_of x st
                     end
  end.
End Readings.

(** What the decoder guarantees of every record it builds, before the
    validator sees it. *)
Definition decoded (meta : Meta) : Prop :=
  (∀ src role k r, (src, role) ∈ mappings meta → index src k = Some r →
     Name r = k ∧ Role r = role ∧ (Scope r = ScopeGlobal ∨ Scope r = ScopeContainer))
  ∧ (∀ k st, index (m_Storage meta) k = Some st →
       st_Name st = k
       ∧ (st_Type st = StorageBlock ∨ st_Type st = StorageFilesystem)
       ∧ (0 ≤ st_CountMin st)%Z ∧ (-1 ≤ st_CountMax st)%Z).

(** The validation errors that a decoded record can give. *)
Definition from_decoder (c : CheckError) : Prop :=
  match c with
  | MismatchedRelationName _ _ _ | MismatchedRole _ _ _ | StorageTypeMissing _ _
  | InvalidMinimumCount _ _ _ | DuplicatedStorageName _ _ => False
  | InvalidMaximumCount _ _ n => n = 0%Z
  | _ => True
  end.

(** The fully specified form of a relation in a document. *)
Definition full_form (i : string) (l : Value) (o : bool) (s : string) : Value :=
  VMap (<["interface" := VStr i]> (<["limit" := l]>
       (<["optional" := VBool o]> (<["scope" := VStr s]> ∅)))).

(** Every relation of the record has the scope global or container. *)
Definition scoped (R : Meta) : Prop :=
  ∀ src role k r, (src, role) ∈ mappings R → index src k = Some r →
    Scope r = ScopeGlobal ∨ Scope r = ScopeContainer.

(** *** Samples *)

(** A sample of the two conversions: it reads decimal numerals and the
    words [true] and [false], and nothing else. *)
Definition decimal : StringCoercion :=
  {| intOfString := λ s, match Atoi s with Ok n => Some n | _ => None end;
     boolOfString := λ s, if s =? "true" then Some true
                          else if s =? "false" then Some false else None |}.


(** A document with relations in both forms, a list of tags and a storage
    entry, and the record that the decoder builds from it. *)
Definition sample_document : gmap string Value :=
  document
    [ ("subordinate", VBool true);
      ("provides", VMap {[ "server" := VStr "mysql" ]});
      ("requires",
       VMap {[ "host" :=
         VMap (<["interface" := VStr "juju-info"]> {[ "scope" := VStr "container" ]}) ]});
      ("tags", VList [VStr "cms"]);
      ("storage",
       VMap {[ "data" :=
         VMap (<["type" := VStr StorageFilesystem]>
              (<["count" := VStr "2-4"]>
              {[ "filesystem" := VList [VStr "ext4"] ]})) ]}) ].

Definition sample_record : Meta :=
  {| m_Name := "wordpress"; m_Summary := "blog"; m_Description := "a blog engine";
     m_Subordinate := true;
     m_Provides := Some {[ "server" := relation "server" RoleProvider "mysql" ScopeGlobal ]};
     m_Requires :=
       Some {[ "host" := relation "host" RoleRequirer "juju-info" ScopeContainer ]};
     m_Peers := None; m_Format := 1; m_OldRevision := 0; m_Categories := None;
     m_Tags := Some ["cms"]; m_Series := EmptyString;
     m_Storage :=
       Some {[ "data" :=
         {| st_Name := "data"; st_Type := StorageFilesystem; st_Shared := false;
            st_ReadOnly := false; st_Persistent := false; st_CountMin := 2;
            st_CountMax := 4; st_Location := EmptyString;
            st_Filesystem :=
              Some [ {| fs_Type := "ext4"; fs_MkfsOptions := None;
                        fs_MountOptions := None |} ] |} ]} |}.

(** A charm whose metadata is the sample record. *)
Definition sample_charm : Charm := Some {| charm_Meta := Some sample_record |}.

(** * Properties *)

(** ** String comparisons *)

Lemma eqb_true (a b : string) : (a =? b) = true ↔ a = b.
Proof. apply String.eqb_eq. Qed.

Lemma eqb_false (a b : string) : (a =? b) = false ↔ a ≠ b.
Proof. apply String.eqb_neq. Qed.

(** Turns the boolean tests of the embedding into equations on strings. *)
Ltac strings :=
  repeat match goal with
  | H : (_ =? _) = true |- _ => apply eqb_true in H
  | H : (_ =? _) = false |- _ => apply eqb_false in H
  | H : negb _ = true |- _ => apply negb_true_iff in H
  | H : negb _ = false |- _ => apply negb_false_iff in H
  | H : _ && _ = true |- _ => apply andb_true_iff in H; destruct H
  | H : _ || _ = false |- _ => apply orb_false_iff in H; destruct H
  end.

(** Membership in [mappings]. *)
Ltac mapping :=
  unfold mappings; apply elem_of_cons;
  first [ by left
        | right; apply elem_of_cons;
          first [ by left | right; apply elem_of_cons; by left ] ].

(** ** Go maps *)

Lemma elem_of_range {V : Type} (m : option (gmap string V)) (k : string) (v : V) :
  (k, v) ∈ range m ↔ index m k = Some v.
Proof.
  destruct m as [g|]; simpl.
  - apply elem_of_map_to_list.
  - split; [by intros ?%elem_of_nil | done].
Qed.

Lemma NoDup_range {V : Type} (m : option (gmap string V)) : NoDup (range m).*1.
Proof.
  destruct m as [g|]; simpl.
  - apply NoDup_fst_map_to_list.
  - constructor.
Qed.

Lemma key_of_range {V : Type} (m : option (gmap string V)) (k : string) :
  k ∈ (range m).*1 ↔ is_Some (index m k).
Proof.
  rewrite list_elem_of_fmap. split.
  - intros [[k' v] [-> Hin]]. apply elem_of_range in Hin. by exists v.
  - intros [v Hv]. exists (k, v). split; [done | by apply elem_of_range].
Qed.

Lemma flag_insert (names : gmap string bool) (k k' : string) :
  flag (<[k := true]> names) k' = bool_decide (k = k') || flag names k'.
Proof.
  unfold flag. rewrite lookup_insert.
  destruct (decide (k = k')) as [->|Hne].
  - by rewrite bool_decide_eq_true_2.
  - by rewrite bool_decide_eq_false_2.
Qed.

Lemma flag_empty (k : string) : flag ∅ k = false.
Proof. unfold flag. by rewrite lookup_empty. Qed.

(** ** The relation loop of the validator *)

Section RelationLoop.
Variables (meta : Meta) (role : RelationRole).

(** An error raised with no name recorded is raised whatever the names
    recorded so far: only the last test reads [names]. *)
Lemma checkRelation_mono names k r e :
  checkRelation meta role ∅ k r = inl e →
  checkRelation meta role names k r = inl e.
Proof.
  unfold checkRelation. rewrite flag_empty.
  repeat (case_match; [done |]). done.
Qed.

Lemma checkRelation_inr names names' k r :
  checkRelation meta role names k r = inr names' →
  flag names k = false ∧ names' = <[k := true]> names.
Proof.
  unfold checkRelation.
  repeat (case_match; [done |]).
  destruct (flag names k); [done |]. by intros [= <-].
Qed.

Lemma loop_rejects_entry l names k r :
  (k, r) ∈ l →
  rejected (checkRelation meta role ∅ k r) →
  rejected (checkRelationsLoop meta role l names).
Proof.
  intros Hin [e He]. revert names.
  induction l as [|[k' r'] l IH]; intros names; [by apply elem_of_nil in Hin |].
  simpl. apply elem_of_cons in Hin as [[= <- <-]|Hin].
  - rewrite (checkRelation_mono names _ _ _ He). by exists e.
  - destruct (checkRelation meta role names k' r') as [e'|names']; [by exists e' |].
    by apply IH.
Qed.

Lemma loop_rejects_flag l names k :
  k ∈ l.*1 → flag names k = true →
  rejected (checkRelationsLoop meta role l names).
Proof.
  revert names. induction l as [|[k' r'] l IH]; intros names Hin Hflag.
  - by apply elem_of_nil in Hin.
  - simpl. destruct (checkRelation meta role names k' r') as [e'|names'] eqn:Hc;
      [by exists e' |].
    apply checkRelation_inr in Hc as [Hk' ->].
    simpl in Hin. apply elem_of_cons in Hin as [->|Hin]; [congruence |].
    apply IH; [done |]. rewrite flag_insert, Hflag. apply orb_true_r.
Qed.

Lemma loop_flags l names names' :
  checkRelationsLoop meta role l names = inr names' →
  ∀ k, flag names' k = flag names k || bool_decide (k ∈ l.*1).
Proof.
  revert names. induction l as [|[k' r'] l IH]; intros names Hl k.
  - injection Hl as <-. rewrite bool_decide_eq_false_2; [by rewrite orb_false_r |].
    rewrite fmap_nil. apply not_elem_of_nil.
  - cbn [checkRelationsLoop] in Hl.
    destruct (checkRelation meta role names k' r') as [e'|names1] eqn:Hc; [done |].
    apply checkRelation_inr in Hc as [_ ->].
    rewrite (IH _ Hl k), flag_insert, fmap_cons. cbn [fst].
    destruct (decide (k' = k)) as [->|Hne].
    + rewrite (bool_decide_eq_true_2 (k = k)) by done.
      rewrite (bool_decide_eq_true_2 (k ∈ k :: l.*1)) by (apply elem_of_cons; by left).
      by rewrite orb_true_r.
    + rewrite (bool_decide_eq_false_2 (k' = k)) by done. cbn [orb]. f_equal.
      apply bool_decide_ext. rewrite elem_of_cons.
      split; [by right | by intros [->|?]].
Qed.

(** Where an error of the loop comes from. *)
Lemma loop_error_origin l names e :
  checkRelationsLoop meta role l names = inl e →
  ∃ k r names0, (k, r) ∈ l ∧ checkRelation meta role names0 k r = inl e.
Proof.
  revert names. induction l as [|[k' r'] l IH]; intros names Hl; simpl in *; [done |].
  destruct (checkRelation meta role names k' r') as [e'|names1] eqn:Hc.
  - injection Hl as ->. exists k', r', names. split; [apply elem_of_cons; by left | done].
  - destruct (IH _ Hl) as (k & r & n0 & Hin & Hk).
    exists k, r, n0. split; [apply elem_of_cons; by right | done].
Qed.

Lemma loop_accepts l names :
  NoDup l.*1 →
  (∀ k, k ∈ l.*1 → flag names k = false) →
  (∀ k r, (k, r) ∈ l → ¬ rejected (checkRelation meta role ∅ k r)) →
  ∃ names', checkRelationsLoop meta role l names = inr names'.
Proof.
  revert names. induction l as [|[k' r'] l IH]; intros names Hnd Hfresh Hok.
  - by exists names.
  - rewrite fmap_cons in Hnd, Hfresh. cbn [fst] in Hnd, Hfresh.
    apply NoDup_cons in Hnd as [Hk' Hnd]. cbn [checkRelationsLoop].
    assert (checkRelation meta role names k' r' = inr (<[k' := true]> names)) as ->.
    { assert (¬ rejected (checkRelation meta role ∅ k' r')) as Hn
        by (apply Hok, elem_of_cons; by left).
      revert Hn. unfold checkRelation, rejected. rewrite flag_empty.
      rewrite (Hfresh k') by (apply elem_of_cons; by left).
      repeat (case_match; [by intros []; eexists |]). done. }
    apply IH; [done | |].
    + intros k Hk. rewrite flag_insert, (Hfresh k) by (apply elem_of_cons; by right).
      rewrite bool_decide_eq_false_2; [done |]. by intros ->.
    + intros k r Hin. apply Hok. apply elem_of_cons; by right.
Qed.
End RelationLoop.

(** ** The validator as a whole *)

Section ValidatorFacts.
Variable IsValidSeries : string → bool.
Implicit Types (meta : Meta) (src : option (gmap string Relation)).

Lemma in_mappings meta src role :
  (src, role) ∈ mappings meta →
  (src = m_Provides meta ∧ role = RoleProvider)
  ∨ (src = m_Requires meta ∧ role = RoleRequirer)
  ∨ (src = m_Peers meta ∧ role = RolePeer).
Proof.
  unfold mappings. rewrite !elem_of_cons, elem_of_nil.
  intros [[= -> ->]|[[= -> ->]|[[= -> ->]|[]]]]; auto.
Qed.

Lemma Check_relations_error meta :
  is_Some (checkAllRelations meta) → Meta_Check IsValidSeries meta ≠ None.
Proof. intros [e He]. unfold Meta_Check. by rewrite He. Qed.

(** An entry that the loop body rejects on its own makes the relation
    phase fail, whichever mapping it is in. *)
Lemma checkAll_rejects_entry meta src role k r :
  (src, role) ∈ mappings meta →
  index src k = Some r →
  rejected (checkRelation meta role ∅ k r) →
  is_Some (checkAllRelations meta).
Proof.
  intros Hm Hk Hr. apply elem_of_range in Hk. unfold checkAllRelations, checkRelations.
  destruct (in_mappings _ _ _ Hm) as [[-> ->]|[[-> ->]|[-> ->]]].
  - destruct (loop_rejects_entry meta _ _ ∅ _ _ Hk Hr) as [e ->]. by eexists.
  - destruct (checkRelationsLoop meta RoleProvider _ ∅) as [e|n1]; [by eexists |].
    destruct (loop_rejects_entry meta _ _ n1 _ _ Hk Hr) as [e ->]. by eexists.
  - destruct (checkRelationsLoop meta RoleProvider _ ∅) as [e|n1]; [by eexists |].
    destruct (checkRelationsLoop meta RoleRequirer _ n1) as [e|n2]; [by eexists |].
    destruct (loop_rejects_entry meta _ _ n2 _ _ Hk Hr) as [e ->]. by eexists.
Qed.

(** A name that two mappings share makes the relation phase fail. *)
Lemma checkAll_rejects_shared meta k :
  (is_Some (index (m_Provides meta) k) ∧ is_Some (index (m_Requires meta) k))
  ∨ (is_Some (index (m_Provides meta) k) ∧ is_Some (index (m_Peers meta) k))
  ∨ (is_Some (index (m_Requires meta) k) ∧ is_Some (index (m_Peers meta) k)) →
  is_Some (checkAllRelations meta).
Proof.
  rewrite <- !key_of_range. unfold checkAllRelations, checkRelations.
  intros Hshared.
  destruct (checkRelationsLoop meta RoleProvider _ ∅) as [e|n1] eqn:H1; [by eexists |].
  pose proof (loop_flags _ _ _ _ _ H1 k) as F1. rewrite flag_empty in F1. simpl in F1.
  destruct (checkRelationsLoop meta RoleRequirer _ n1) as [e|n2] eqn:H2; [by eexists |].
  pose proof (loop_flags _ _ _ _ _ H2 k) as F2.
  destruct Hshared as [[Hp Hr]|[[Hp Hr]|[Hp Hr]]].
  - rewrite bool_decide_eq_true_2 in F1 by done.
    destruct (loop_rejects_flag meta RoleRequirer _ n1 k Hr F1) as [e He]. congruence.
  - rewrite bool_decide_eq_true_2 in F1 by done. rewrite F1 in F2. simpl in F2.
    destruct (loop_rejects_flag meta RolePeer _ n2 k Hr F2) as [e ->]. by eexists.
  - rewrite (bool_decide_eq_true_2 _ Hp), orb_true_r in F2.
    destruct (loop_rejects_flag meta RolePeer _ n2 k Hr F2) as [e ->]. by eexists.
Qed.

(** With no shared name and no entry that the loop body rejects on its
    own, the relation phase passes. *)
Lemma checkAll_accepts meta :
  (∀ src role k r, (src, role) ∈ mappings meta → index src k = Some r →
     ¬ rejected (checkRelation meta role ∅ k r)) →
  (∀ k, ¬ (is_Some (index (m_Provides meta) k) ∧ is_Some (index (m_Requires meta) k))
        ∧ ¬ (is_Some (index (m_Provides meta) k) ∧ is_Some (index (m_Peers meta) k))
        ∧ ¬ (is_Some (index (m_Requires meta) k) ∧ is_Some (index (m_Peers meta) k))) →
  checkAllRelations meta = None.
Proof.
  intros Hok Hfresh. unfold checkAllRelations, checkRelations.
  assert (∀ src role, (src, role) ∈ mappings meta →
            ∀ k r, (k, r) ∈ range src → ¬ rejected (checkRelation meta role ∅ k r)) as Hok'.
  { intros src role Hm k r Hin%elem_of_range. by apply (Hok src role). }
  destruct (loop_accepts meta RoleProvider (range (m_Provides meta)) ∅) as [n1 H1].
  { apply NoDup_range. }
  { intros k _. apply flag_empty. }
  { apply Hok'. mapping. }
  rewrite H1. pose proof (loop_flags _ _ _ _ _ H1) as F1.
  destruct (loop_accepts meta RoleRequirer (range (m_Requires meta)) n1) as [n2 H2].
  { apply NoDup_range. }
  { intros k Hk%key_of_range. rewrite F1, flag_empty. cbn [orb].
    apply bool_decide_eq_false_2. intros Hp%key_of_range.
    by destruct (Hfresh k) as (Hpr & _ & _); destruct Hpr. }
  { apply Hok'. mapping. }
  rewrite H2. pose proof (loop_flags _ _ _ _ _ H2) as F2.
  destruct (loop_accepts meta RolePeer (range (m_Peers meta)) n2) as [n3 H3].
  { apply NoDup_range. }
  { intros k Hk%key_of_range. rewrite F2, F1, flag_empty. cbn [orb].
    apply orb_false_iff. split; apply bool_decide_eq_false_2; intros Hp%key_of_range.
    - by destruct (Hfresh k) as (_ & Hpp & _); destruct Hpp.
    - by destruct (Hfresh k) as (_ & _ & Hrp); destruct Hrp. }
  { apply Hok'. mapping. }
  by rewrite H3.
Qed.

(** An error of the relation phase is the error of the loop body at one
    entry of one of the three mappings. *)
Lemma checkAll_error_origin meta e :
  checkAllRelations meta = Some e →
  ∃ src role k r names0,
    (src, role) ∈ mappings meta ∧ index src k = Some r
    ∧ checkRelation meta role names0 k r = inl e.
Proof.
  unfold checkAllRelations, checkRelations. intros H.
  assert (∀ src role names,
    (src, role) ∈ mappings meta →
    checkRelationsLoop meta role (range src) names = inl e →
    ∃ src role k r names0,
      (src, role) ∈ mappings meta ∧ index src k = Some r
      ∧ checkRelation meta role names0 k r = inl e) as Hfrom.
  { intros src role names Hm Hl.
    destruct (loop_error_origin _ _ _ _ _ Hl) as (k & r & n0 & Hin & Hc).
    exists src, role, k, r, n0. by rewrite <- elem_of_range. }
  destruct (checkRelationsLoop meta RoleProvider _ ∅) as [e1|n1] eqn:H1.
  { injection H as ->. eapply Hfrom; [|done]. mapping. }
  destruct (checkRelationsLoop meta RoleRequirer _ n1) as [e2|n2] eqn:H2.
  { injection H as ->. eapply Hfrom; [|done]. mapping. }
  destruct (checkRelationsLoop meta RolePeer _ n2) as [e3|n3] eqn:H3; [|done].
  injection H as ->. eapply Hfrom; [|done]. mapping.
Qed.

(** Which phase an error of the validator comes from. *)
Lemma Check_error_phase meta e :
  Meta_Check IsValidSeries meta = Some e →
  checkAllRelations meta = Some e ∨ checkSubordinate meta = Some e
  ∨ checkSeries IsValidSeries meta = Some e ∨ checkStorage meta = Some e.
Proof.
  unfold Meta_Check. intros H.
  destruct (checkAllRelations meta); [by left |].
  destruct (checkSubordinate meta); [by right; left |].
  destruct (checkSeries IsValidSeries meta); [by right; right; left |].
  by right; right; right.
Qed.

Lemma Check_passes meta :
  Meta_Check IsValidSeries meta = None ↔
  checkAllRelations meta = None ∧ checkSubordinate meta = None
  ∧ checkSeries IsValidSeries meta = None ∧ checkStorage meta = None.
Proof.
  unfold Meta_Check.
  destruct (checkAllRelations meta); [split; [done | by intros (? & _)] |].
  destruct (checkSubordinate meta); [split; [done | by intros (_ & ? & _)] |].
  destruct (checkSeries IsValidSeries meta); [split; [done | by intros (_ & _ & ? & _)] |].
  split; [done | by intros (_ & _ & _ & ?)].
Qed.
End ValidatorFacts.

(** ** The storage loop of the validator *)

Section StorageLoop.
Variable meta : Meta.

Lemma checkStore_mono names k st e :
  checkStore meta ∅ k st = inl e → checkStore meta names k st = inl e.
Proof.
  unfold checkStore. rewrite flag_empty.
  repeat (case_match; [done |]). done.
Qed.

Lemma checkStore_inr names names' k st :
  checkStore meta names k st = inr names' →
  flag names k = false ∧ names' = <[k := true]> names.
Proof.
  unfold checkStore.
  repeat (case_match; [done |]).
  destruct (flag names k); [done |]. by intros [= <-].
Qed.

Lemma storage_rejects l names k st :
  (k, st) ∈ l →
  rejected (checkStore meta ∅ k st) →
  is_Some (checkStorageLoop meta l names).
Proof.
  intros Hin [e He]. revert names.
  induction l as [|[k' st'] l IH]; intros names; [by apply elem_of_nil in Hin |].
  cbn [checkStorageLoop]. apply elem_of_cons in Hin as [[= <- <-]|Hin].
  - rewrite (checkStore_mono names _ _ _ He). by eexists.
  - destruct (checkStore meta names k' st') as [e'|names']; [by eexists |].
    by apply IH.
Qed.

Lemma storage_accepts l names :
  NoDup l.*1 →
  (∀ k, k ∈ l.*1 → flag names k = false) →
  (∀ k st, (k, st) ∈ l → ¬ rejected (checkStore meta ∅ k st)) →
  checkStorageLoop meta l names = None.
Proof.
  revert names. induction l as [|[k' st'] l IH]; intros names Hnd Hfresh Hok; [done |].
  rewrite fmap_cons in Hnd, Hfresh. cbn [fst] in Hnd, Hfresh.
  apply NoDup_cons in Hnd as [Hk' Hnd]. cbn [checkStorageLoop].
  assert (checkStore meta names k' st' = inr (<[k' := true]> names)) as ->.
  { assert (¬ rejected (checkStore meta ∅ k' st')) as Hn
      by (apply Hok, elem_of_cons; by left).
    revert Hn. unfold checkStore, rejected. rewrite flag_empty.
    rewrite (Hfresh k') by (apply elem_of_cons; by left).
    repeat (case_match; [by intros []; eexists |]). done. }
  apply IH; [done | |].
  - intros k Hk. rewrite flag_insert, (Hfresh k) by (apply elem_of_cons; by right).
    rewrite bool_decide_eq_false_2; [done |]. by intros ->.
  - intros k st Hin. apply Hok. apply elem_of_cons; by right.
Qed.

Lemma storage_error_origin l names e :
  checkStorageLoop meta l names = Some e →
  ∃ k st names0, (k, st) ∈ l ∧ checkStore meta names0 k st = inl e.
Proof.
  revert names. induction l as [|[k' st'] l IH]; intros names Hl; [done |].
  cbn [checkStorageLoop] in Hl.
  destruct (checkStore meta names k' st') as [e'|names1] eqn:Hc.
  - injection Hl as ->. exists k', st', names. split; [apply elem_of_cons; by left | done].
  - destruct (IH _ Hl) as (k & st & n0 & Hin & Hk).
    exists k, st, n0. split; [apply elem_of_cons; by right | done].
Qed.

(** The storage loop passes exactly when its body rejects no entry. *)
Lemma checkStorage_None :
  checkStorage meta = None ↔
  ∀ k st, index (m_Storage meta) k = Some st → ¬ rejected (checkStore meta ∅ k st).
Proof.
  unfold checkStorage. split.
  - intros Hnone k st Hk%elem_of_range Hrej.
    destruct (storage_rejects _ ∅ _ _ Hk Hrej) as [e He]. congruence.
  - intros Hok. apply storage_accepts.
    + apply NoDup_range.
    + intros k _. apply flag_empty.
    + intros k st Hin%elem_of_range. by apply Hok.
Qed.
End StorageLoop.

(** ** Implicit relations *)

Lemma IsImplicit_fields (r : Relation) :
  Relation_IsImplicit r = true →
  Name r = "juju-info" ∧ Interface r = "juju-info" ∧ Role r = RoleProvider.
Proof. unfold Relation_IsImplicit. intros H. strings. done. Qed.

(** C10. For every relation [r] with [IsImplicit(r)] and every charm [ch],
    nil included, [r.ImplementedBy(ch)] returns true: the charm is not
    looked at, so the result is the same for any two charms. *)
Theorem implicit_relation_implemented_by_every_charm (r : Relation) (ch : Charm) :
  Relation_IsImplicit r = true →
  Relation_ImplementedBy r ch = Ok true
  ∧ ∀ ch' : Charm, Relation_ImplementedBy r ch' = Relation_ImplementedBy r ch.
Proof.
  intros H. unfold Relation_ImplementedBy. rewrite H. done.
Qed.

Lemma implicit_relation_implemented_by_nil_charm :
  Relation_IsImplicit juju_info = true
  ∧ Relation_ImplementedBy juju_info None = Ok true.
Proof.
  split; [reflexivity |].
  apply (implicit_relation_implemented_by_every_charm juju_info None). reflexivity.
Defined.

(** A relation that is not implicit does look at the charm: on a nil charm
    the call panics. *)
Example explicit_relation_inspects_charm :
  Relation_ImplementedBy (relation "db" RoleProvider "mysql" ScopeGlobal) None = Panic.
Proof. reflexivity. Qed.

Lemma implicit_rejected_by_body (meta : Meta) (role : RelationRole) (k : string) (r : Relation) :
  Relation_IsImplicit r = true → rejected (checkRelation meta role ∅ k r).
Proof.
  intros (Hn & Hi & Hr)%IsImplicit_fields. unfold checkRelation, rejected.
  destruct (Name r =? k) eqn:Hk; [|by eexists]. strings. subst k.
  destruct (Role r =? role) eqn:Hrole; [|by eexists]. strings. subst role.
  rewrite Hn, Hr. destruct (m_Subordinate meta); by eexists.
Qed.

(** C2, as the code has it.  The validator does not consult [IsImplicit]:
    a record that holds an implicit relation in any of its three mappings,
    under any key, is rejected, and when the relation is the only entry of
    [provides], under its own name, the error is the one for a reserved
    relation name, whatever the subordinate flag. *)
Theorem implicit_relation_is_rejected (IsValidSeries : string → bool)
    (meta : Meta) (r : Relation) :
  Relation_IsImplicit r = true →
  (∀ src role k, (src, role) ∈ mappings meta → index src k = Some r →
     Meta_Check IsValidSeries meta ≠ None)
  ∧ (m_Provides meta = Some {[Name r := r]} →
     Meta_Check IsValidSeries meta = Some (ReservedRelationName (m_Name meta) (Name r))).
Proof.
  intros Himp. split.
  - intros src role k Hm Hk. apply Check_relations_error.
    eapply checkAll_rejects_entry; [done.. |]. by apply implicit_rejected_by_body.
  - intros Hp. unfold Meta_Check, checkAllRelations, checkRelations.
    rewrite Hp. cbn [range]. rewrite map_to_list_singleton. cbn [checkRelationsLoop].
    apply IsImplicit_fields in Himp as (Hn & Hi & Hr).
    unfold checkRelation. rewrite Hr, Hn. cbn. by destruct (m_Subordinate meta).
Qed.

Lemma implicit_relation_is_rejected_witness :
  Relation_IsImplicit juju_info = true
  ∧ Meta_Check anySeries (charm true (Some {[ "juju-info" := juju_info ]}) None None None)
    = Some (ReservedRelationName "wordpress" "juju-info").
Proof.
  split; [reflexivity |].
  apply (implicit_relation_is_rejected anySeries
           (charm true (Some {[ "juju-info" := juju_info ]}) None None None) juju_info);
    reflexivity.
Defined.

(** C2, as stated, fails: the implicit relation [juju-info] in [provides]
    is rejected for its reserved name, on a subordinate record and on a
    record that is not subordinate. *)
Lemma implicit_relation_not_exempt :
  Relation_IsImplicit juju_info = true
  ∧ Meta_Check anySeries (charm false (Some {[ "juju-info" := juju_info ]}) None None None)
    = Some (ReservedRelationName "wordpress" "juju-info")
  ∧ Meta_Check anySeries (charm true (Some {[ "juju-info" := juju_info ]}) None None None)
    = Some (ReservedRelationName "wordpress" "juju-info").
Proof. repeat split; vm_compute; reflexivity. Qed.

(** ** Reserved names *)

Section ReservedNames.
Variable IsValidSeries : string → bool.
Implicit Types (meta : Meta) (r : Relation).

(** No error of a relation kind comes out of the later phases. *)
Lemma relation_error_from_relations meta e :
  Meta_Check IsValidSeries meta = Some e →
  (∃ c n, e = ReservedRelationName c n) ∨ (∃ c n i, e = ReservedInterface c n i) →
  checkAllRelations meta = Some e.
Proof.
  intros H Hkind.
  destruct (Check_error_phase _ _ _ H) as [Hr|[Hs|[Hs|Hs]]]; [done | exfalso..].
  - unfold checkSubordinate in Hs. case_match; [|done].
    injection Hs as <-. destruct Hkind as [(? & ? & ?)|(? & ? & ? & ?)]; done.
  - unfold checkSeries in Hs. case_match; [|done].
    injection Hs as <-. destruct Hkind as [(? & ? & ?)|(? & ? & ? & ?)]; done.
  - apply storage_error_origin in Hs as (k & st & n0 & _ & Hc).
    revert Hc. unfold checkStore.
    repeat (case_match;
      [intros [= <-]; destruct Hkind as [(? & ? & ?)|(? & ? & ? & ?)]; done |]).
    done.
Qed.

(** C4. A relation with a reserved name ("juju", or the prefix "juju-")
    makes validation fail unless the record is subordinate, the relation
    is in [requires] and its scope is container; a reserved interface
    name makes validation fail for an entry of [provides] or [peers].
    Conversely, the error for a reserved relation name is only raised
    for an entry outside that exemption, and the error for a reserved
    interface only for an entry of [provides] or [peers], never for one
    of [requires]. *)
Theorem reserved_names_rejected meta :
  (∀ src role k r,
     (src, role) ∈ mappings meta → index src k = Some r →
     reservedName k = true →
     ¬ (m_Subordinate meta = true ∧ role = RoleRequirer ∧ Scope r = ScopeContainer) →
     Meta_Check IsValidSeries meta ≠ None)
  ∧ (∀ src role k r,
       (src, role) ∈ mappings meta → index src k = Some r →
       role ≠ RoleRequirer → reservedName (Interface r) = true →
       Meta_Check IsValidSeries meta ≠ None)
  ∧ (∀ c n,
       Meta_Check IsValidSeries meta = Some (ReservedRelationName c n) →
       ∃ src role r,
         (src, role) ∈ mappings meta ∧ index src n = Some r ∧ reservedName n = true
         ∧ ¬ (m_Subordinate meta = true ∧ role = RoleRequirer ∧ Scope r = ScopeContainer))
  ∧ (∀ c n i,
       Meta_Check IsValidSeries meta = Some (ReservedInterface c n i) →
       ∃ src role r,
         (src, role) ∈ mappings meta ∧ index src n = Some r ∧ role ≠ RoleRequirer
         ∧ Interface r = i ∧ reservedName i = true).
Proof.
  split; [|split; [|split]].
  - intros src role k r Hm Hk Hres Hex. apply Check_relations_error.
    eapply checkAll_rejects_entry; [done.. |].
    unfold checkRelation, rejected.
    destruct (Name r =? k); [|by eexists].
    destruct (Role r =? role); [|by eexists]. cbn [negb].
    rewrite Hres, andb_true_r.
    destruct (m_Subordinate meta) eqn:Hsub; [|by eexists].
    destruct (role =? RoleRequirer) eqn:Hrole; [|by eexists].
    destruct (Scope r =? ScopeContainer) eqn:Hscope; [|by eexists].
    strings. by destruct Hex.
  - intros src role k r Hm Hk Hrole Hres. apply Check_relations_error.
    eapply checkAll_rejects_entry; [done.. |].
    unfold checkRelation, rejected.
    apply eqb_false in Hrole. rewrite Hrole, Hres. cbn [negb andb].
    repeat (case_match; [by eexists |]). by eexists.
  - intros c n H.
    apply relation_error_from_relations in H; [|left; by eauto].
    apply checkAll_error_origin in H as (src & role & k & r & n0 & Hm & Hk & Hc).
    revert Hc. unfold checkRelation.
    case_match; [done |]. case_match; [done |].
    case_match eqn:Hcond; [|by repeat (case_match; [done |])].
    intros [= <- <-]. exists src, role, r. strings.
    repeat split; [done.. |]. intros (Hsub & Hrole & Hscope).
    apply eqb_true in Hrole, Hscope.
    rewrite Hsub, Hrole, Hscope in H1. done.
  - intros c n i H.
    apply relation_error_from_relations in H; [|right; by eauto].
    apply checkAll_error_origin in H as (src & role & k & r & n0 & Hm & Hk & Hc).
    revert Hc. unfold checkRelation.
    case_match; [done |]. case_match; [done |]. case_match; [done |].
    case_match eqn:Hcond; [|by repeat (case_match; [done |])].
    intros [= <- <- <-]. exists src, role, r. strings. done.
Qed.
End ReservedNames.

Lemma reserved_names_rejected_witness :
  Meta_Check anySeries
    (charm false None
       (Some {[ "juju-foo" := relation "juju-foo" RoleRequirer "http" ScopeContainer ]})
       None None) ≠ None.
Proof.
  set (r := relation "juju-foo" RoleRequirer "http" ScopeContainer).
  set (meta := charm false None (Some {[ "juju-foo" := r ]}) None None).
  apply (proj1 (reserved_names_rejected anySeries meta)
           (m_Requires meta) RoleRequirer "juju-foo" r).
  - mapping.
  - reflexivity.
  - reflexivity.
  - intros [Hsub _]. discriminate Hsub.
Defined.

(** The two records of the specification's example: the name [juju-foo]
    fails on a record that is not subordinate and passes in [requires],
    with container scope, on a subordinate one; there the reserved
    interface passes too. *)
Example reserved_name_not_subordinate :
  Meta_Check anySeries
    (charm false None
       (Some {[ "juju-foo" := relation "juju-foo" RoleRequirer "http" ScopeContainer ]})
       None None)
  = Some (ReservedRelationName "wordpress" "juju-foo").
Proof. vm_compute. reflexivity. Qed.

Example reserved_name_subordinate_container :
  Meta_Check anySeries
    (charm true None
       (Some {[ "juju-foo" := relation "juju-foo" RoleRequirer "juju-info" ScopeContainer ]})
       None None)
  = None.
Proof. vm_compute. reflexivity. Qed.

Example reserved_interface_provides :
  Meta_Check anySeries
    (charm false (Some {[ "web" := relation "web" RoleProvider "juju-http" ScopeGlobal ]})
       None None None)
  = Some (ReservedInterface "wordpress" "web" "juju-http").
Proof. vm_compute. reflexivity. Qed.

(** ** The subordinate rule *)

Lemma hasContainerScope_true (meta : Meta) :
  hasContainerScope meta = true ↔
  ∃ k r, index (m_Requires meta) k = Some r ∧ Scope r = ScopeContainer.
Proof.
  unfold hasContainerScope. destruct (m_Requires meta) as [g|] eqn:Hreq; cbn [range index].
  - rewrite existsb_exists. split.
    + intros ([k r] & Hin & Hs). exists k, r.
      apply list_elem_of_In, elem_of_map_to_list in Hin. by apply eqb_true in Hs.
    + intros (k & r & Hk & Hs). exists (k, r). split.
      * by apply list_elem_of_In, elem_of_map_to_list.
      * by apply eqb_true.
  - split; [done | by intros (k & r & ? & _)].
Qed.



Section Subordinate.
Variable IsValidSeries : string → bool.
Variable quote : string → string.

End Subordinate.





(** The records of the specification's example. *)
Example subordinate_with_container_scope :
  Meta_Check anySeries
    (charm true None (Some {[ "host" := relation "host" RoleRequirer "juju-info" ScopeContainer ]})
       None None) = None.
Proof. vm_compute. reflexivity. Qed.

Example subordinate_without_requires :
  Meta_Check anySeries (charm true None None None None)
  = Some (SubordinateLacksContainer "wordpress")
  ∧ Meta_Check anySeries (charm true None (Some ∅) None None)
    = Some (SubordinateLacksContainer "wordpress").
Proof. split; vm_compute; reflexivity. Qed.

(** ** Unique relation names *)

(** C6. A relation name that occurs in more than one of [provides],
    [requires] and [peers] makes validation fail: the names recorded while
    one mapping is checked are still there when the next one is.  Names
    are unique inside a mapping by construction, so this is uniqueness
    over the three mappings together; it is all that the relation phase
    asks for beyond the tests on each entry alone. *)
Theorem relation_names_unique_across_mappings (IsValidSeries : string → bool)
    (meta : Meta) :
  let shared (k : string) :=
    (is_Some (index (m_Provides meta) k) ∧ is_Some (index (m_Requires meta) k))
    ∨ (is_Some (index (m_Provides meta) k) ∧ is_Some (index (m_Peers meta) k))
    ∨ (is_Some (index (m_Requires meta) k) ∧ is_Some (index (m_Peers meta) k)) in
  (∀ k, shared k → Meta_Check IsValidSeries meta ≠ None)
  ∧ ((∀ src role k r, (src, role) ∈ mappings meta → index src k = Some r →
        ¬ rejected (checkRelation meta role ∅ k r)) →
     (checkAllRelations meta = None ↔ ∀ k, ¬ shared k)).
Proof.
  intros shared. split.
  - intros k H. by apply Check_relations_error, (checkAll_rejects_shared meta k).
  - intros Hok. split.
    + intros Hnone k Hk. destruct (checkAll_rejects_shared meta k Hk). congruence.
    + intros Hfresh. apply checkAll_accepts; [done |].
      intros k. specialize (Hfresh k). unfold shared in Hfresh. tauto.
Qed.

Lemma relation_names_unique_across_mappings_witness :
  Meta_Check anySeries
    (charm false (Some {[ "db" := relation "db" RoleProvider "mysql" ScopeGlobal ]})
       (Some {[ "db" := relation "db" RoleRequirer "mysql" ScopeGlobal ]}) None None)
  ≠ None.
Proof.
  apply (proj1 (relation_names_unique_across_mappings anySeries _) "db").
  left. split; eexists; reflexivity.
Defined.

(** The error in that case is the one for a duplicated name. *)
Example shared_name_error :
  Meta_Check anySeries
    (charm false (Some {[ "db" := relation "db" RoleProvider "mysql" ScopeGlobal ]})
       (Some {[ "db" := relation "db" RoleRequirer "mysql" ScopeGlobal ]}) None None)
  = Some (DuplicatedRelationName "wordpress" "db")
  ∧ Meta_Check anySeries
      (charm false None
         (Some {[ "db" := relation "db" RoleRequirer "mysql" ScopeGlobal ]})
         (Some {[ "db" := relation "db" RolePeer "mysql" ScopeGlobal ]}) None)
    = Some (DuplicatedRelationName "wordpress" "db").
Proof. split; vm_compute; reflexivity. Qed.

(** ** Storage entries *)

Lemma checkStore_rejected (meta : Meta) (k : string) (st : Storage) :
  rejected (checkStore meta ∅ k st) ↔ storage_violation st.
Proof.
  unfold checkStore, rejected, storage_violation. rewrite flag_empty.
  destruct (st_Location st =? EmptyString) eqn:E1;
  destruct (st_Type st =? StorageFilesystem) eqn:E2;
  destruct (bool_decide (st_Filesystem st ≠ None)) eqn:E3;
  destruct (st_Type st =? EmptyString) eqn:E4;
  destruct (Z.ltb_spec (st_CountMin st) 0) as [E5|E5];
  destruct (Z.eqb_spec (st_CountMax st) 0) as [E6|E6];
  destruct (Z.ltb_spec (st_CountMax st) (-1)) as [E7|E7];
  cbn [negb andb orb]; strings;
  try apply bool_decide_eq_true in E3; try apply bool_decide_eq_false in E3;
  (split; [intros [e He]; try discriminate He | intros Hv; try (by eexists)]);
  try (left; by split); try (right; left; by split);
  try (right; right; left; done); try (right; right; right; left; done);
  try (right; right; right; right; left; done);
  try (right; right; right; right; right; done);
  try (exfalso; destruct Hv as [[? ?]|[[? ?]|[?|[?|[?|?]]]]]; (done || lia)).
Qed.

Section StorageChecks.
Variable IsValidSeries : string → bool.

(** C8, as the code has it.  A storage entry makes validation fail when
    its location is set and its type is not filesystem, when its
    filesystem list is present (not nil, even if it is empty) and its
    type is not filesystem, when its type is empty, when its minimum
    count is negative, or when its maximum count is 0 or below -1.  When
    no entry is of that kind the storage checks pass: the record
    validates exactly when the earlier phases pass. *)
Theorem storage_checks (meta : Meta) :
  (∀ k st, index (m_Storage meta) k = Some st → storage_violation st →
     Meta_Check IsValidSeries meta ≠ None)
  ∧ ((∀ k st, index (m_Storage meta) k = Some st → ¬ storage_violation st) →
     checkStorage meta = None
     ∧ (Meta_Check IsValidSeries meta = None ↔
        checkAllRelations meta = None ∧ checkSubordinate meta = None
        ∧ checkSeries IsValidSeries meta = None)).
Proof.
  split.
  - intros k st Hk Hv Hnone. apply Check_passes in Hnone as (_ & _ & _ & Hst).
    rewrite checkStorage_None in Hst. apply (Hst k st Hk). by apply checkStore_rejected.
  - intros Hok.
    assert (checkStorage meta = None) as Hst.
    { apply checkStorage_None. intros k st Hk Hr%checkStore_rejected. by apply (Hok k st). }
    split; [done |]. rewrite Check_passes, Hst.
    split; [by intros (? & ? & ? & _) | by intros (? & ? & ?)].
Qed.
End StorageChecks.

Lemma storage_checks_witness :
  Meta_Check anySeries
    (charm false None None None (Some {[ "data" := store StorageBlock "/srv" None ]})) ≠ None.
Proof.
  set (st := store StorageBlock "/srv" None).
  apply (proj1 (storage_checks anySeries (charm false None None None (Some {[ "data" := st ]})))
           "data" st).
  - reflexivity.
  - left. split; discriminate.
Defined.

(** The entries of the specification's example: a location with type
    block fails, the same entry with type filesystem passes. *)
Example location_with_block :
  Meta_Check anySeries
    (charm false None None None (Some {[ "data" := store StorageBlock "/srv" None ]}))
  = Some (LocationNotAllowed "wordpress" "data" "block").
Proof. vm_compute. reflexivity. Qed.

Example location_with_filesystem :
  Meta_Check anySeries
    (charm false None None None (Some {[ "data" := store StorageFilesystem "/srv" None ]}))
  = None.
Proof. vm_compute. reflexivity. Qed.

(** C8, as stated, fails: an entry of type block whose filesystem list is
    present but empty meets none of the stated conditions (its list is not
    non-empty) and is rejected all the same.  The decoder builds such an
    entry from a document that gives [filesystem: []]. *)
Lemma empty_filesystem_list_rejected :
  let st := store StorageBlock EmptyString (Some []) in
  ¬ (st_Location st ≠ EmptyString ∧ st_Type st ≠ StorageFilesystem)
  ∧ ¬ (default [] (st_Filesystem st) ≠ [] ∧ st_Type st ≠ StorageFilesystem)
  ∧ st_Type st ≠ EmptyString
  ∧ ¬ (st_CountMin st < 0)%Z
  ∧ ¬ (st_CountMax st = 0 ∨ st_CountMax st < -1)%Z
  ∧ Meta_Check anySeries (charm false None None None (Some {[ "data" := st ]}))
    = Some (FilesystemNotAllowed "wordpress" "data" "block").
Proof.
  cbn. repeat split; try (by intros [? ?]); try done; try lia.
Qed.

(** ** The hook table *)

Section InsertTrue.
Context {A : Type} (key : A → string).
Implicit Types (all : gmap string bool) (l : list A).

Lemma insert_true_value l all k v :
  foldl (λ all x, <[key x := true]> all) all l !! k = Some v →
  v = true ∨ all !! k = Some v.
Proof.
  revert all. induction l as [|x l IH]; intros all; cbn [foldl]; [by right |].
  intros [->|H]%IH; [by left |].
  rewrite lookup_insert in H. case_decide; [left; congruence | by right].
Qed.

Lemma insert_true_keeps l all k :
  all !! k = Some true →
  foldl (λ all x, <[key x := true]> all) all l !! k = Some true.
Proof.
  revert all. induction l as [|x l IH]; intros all H; cbn [foldl]; [done |].
  apply IH. rewrite lookup_insert. by case_decide.
Qed.

Lemma insert_true_elem l all x :
  x ∈ l → foldl (λ all x, <[key x := true]> all) all l !! key x = Some true.
Proof.
  revert all. induction l as [|y l IH]; intros all Hin; [by apply elem_of_nil in Hin |].
  cbn [foldl]. apply elem_of_cons in Hin as [->|Hin]; [|by apply IH].
  apply insert_true_keeps, lookup_insert_eq.
Qed.
End InsertTrue.

Section HookTableFacts.
Variables UnitHooks RelationHooks : list string.
Implicit Types (all : gmap string bool) (l : list (string * Relation)).

Lemma relation_hooks_value l all k v :
  foldl (λ all kv, generateRelationHooks RelationHooks kv.1 all) all l !! k = Some v → v = true ∨ all !! k = Some v.
Proof.
  revert all. induction l as [|[n r] l IH]; intros all; cbn [foldl]; [by right |].
  intros [->|H]%IH; [by left |].
  by apply insert_true_value in H.
Qed.

Lemma relation_hooks_keep l all k :
  all !! k = Some true → foldl (λ all kv, generateRelationHooks RelationHooks kv.1 all) all l !! k = Some true.
Proof.
  revert all. induction l as [|[n r] l IH]; intros all H; cbn [foldl]; [done |].
  apply IH. by apply insert_true_keeps.
Qed.

Lemma relation_hooks_elem l all n r h :
  (n, r) ∈ l → h ∈ RelationHooks →
  foldl (λ all kv, generateRelationHooks RelationHooks kv.1 all) all l !! (n +:+ "-" +:+ h) = Some true.
Proof.
  revert all. induction l as [|[n' r'] l IH]; intros all Hin Hh;
    [by apply elem_of_nil in Hin |].
  cbn [foldl]. apply elem_of_cons in Hin as [[= <- <-]|Hin]; [|by apply IH].
  apply relation_hooks_keep. cbn [fst]. unfold generateRelationHooks.
  by apply (insert_true_elem (λ hookName, n +:+ "-" +:+ hookName)).
Qed.

(** C9. In the map that [Meta.Hooks] returns every stored value is
    true; every unit hook name is a key; and for every relation name [N]
    of [provides], [requires] or [peers] and every relation hook name
    [H], the name [N-H] is a key. *)
Theorem hooks_table (m : Meta) :
  (∀ k v, Meta_Hooks UnitHooks RelationHooks m !! k = Some v → v = true)
  ∧ (∀ h, h ∈ UnitHooks → Meta_Hooks UnitHooks RelationHooks m !! h = Some true)
  ∧ (∀ src role N r H,
       (src, role) ∈ mappings m → index src N = Some r → H ∈ RelationHooks →
       Meta_Hooks UnitHooks RelationHooks m !! (N +:+ "-" +:+ H) = Some true).
Proof.
  unfold Meta_Hooks. split; [|split].
  - intros k v H.
    apply relation_hooks_value in H as [->|H]; [done |].
    apply relation_hooks_value in H as [->|H]; [done |].
    apply relation_hooks_value in H as [->|H]; [done |].
    apply (insert_true_value (λ h : string, h)) in H as [->|H]; [done |].
    by rewrite lookup_empty in H.
  - intros h Hh. do 3 apply relation_hooks_keep.
    by apply (insert_true_elem (λ h : string, h)).
  - intros src role N r H Hm HN%elem_of_range HH.
    destruct (in_mappings _ _ _ Hm) as [[-> ->]|[[-> ->]|[-> ->]]].
    + do 2 apply relation_hooks_keep. by eapply relation_hooks_elem.
    + apply relation_hooks_keep. by eapply relation_hooks_elem.
    + by eapply relation_hooks_elem.
Qed.
End HookTableFacts.

Lemma hooks_table_witness :
  Meta_Hooks ["install"; "start"] ["relation-joined"; "relation-changed"]
    (charm false None (Some {[ "db" := relation "db" RoleRequirer "mysql" ScopeGlobal ]})
       None None)
    !! "db-relation-changed" = Some true.
Proof.
  set (r := relation "db" RoleRequirer "mysql" ScopeGlobal).
  set (m := charm false None (Some {[ "db" := r ]}) None None).
  apply (proj2 (proj2 (hooks_table ["install"; "start"]
                         ["relation-joined"; "relation-changed"] m))
           (m_Requires m) RoleRequirer "db" r "relation-changed").
  - mapping.
  - reflexivity.
  - apply elem_of_cons. right. apply elem_of_cons. by left.
Defined.

Example hooks_of_sample :
  Meta_Hooks ["install"; "start"] ["relation-joined"]
    (charm false (Some {[ "web" := relation "web" RoleProvider "http" ScopeGlobal ]})
       None None None)
  = <["install" := true]> (<["start" := true]> {[ "web-relation-joined" := true ]}).
Proof. vm_compute. reflexivity. Qed.

(** ** The conversions matter through their values only *)

Lemma mapM_ext {A B : Type} (f g : A → outcome B) (l : list A) :
  (∀ x, f x = g x) → mapM f l = mapM g l.
Proof. intros H. induction l as [|x l IH]; [done |]. cbn [mapM]. by rewrite H, IH. Qed.

Lemma OneOf_ext (l1 l2 : list Checker) :
  Forall2 (λ c1 c2 : Checker, same_checker c1 c2) l1 l2 →
  same_checker (schema_OneOf l1) (schema_OneOf l2).
Proof.
  unfold same_checker. induction 1 as [|c1 c2 l1 l2 Hc Hl IH]; intros v p; [done |].
  cbn [schema_OneOf]. rewrite Hc. destruct (c2 v p); [done | | done].
  destruct Hl; [done |]. apply IH.
Qed.

Lemma List_ext (c1 c2 : Checker) :
  same_checker c1 c2 → same_checker (schema_List c1) (schema_List c2).
Proof.
  unfold same_checker. intros H [| | | |l| |] p; try done. unfold schema_List. f_equal.
  apply mapM_ext. intros x. apply H.
Qed.

Lemma StringMap_ext (c1 c2 : Checker) :
  same_checker c1 c2 → same_checker (schema_StringMap c1) (schema_StringMap c2).
Proof.
  unfold same_checker. intros H [| | | | |m|] p; try done.
  unfold schema_StringMap, map_mapM. do 2 f_equal.
  apply mapM_ext. intros [k x]. cbn. by rewrite H.
Qed.

Lemma FieldMap_ext (strict : bool) (f1 f2 : list (string * Checker))
    (defaults : list (string * Default)) :
  Forall2 (λ kc1 kc2 : string * Checker,
             kc1.1 = kc2.1 ∧ same_checker kc1.2 kc2.2) f1 f2 →
  same_checker (schema_FieldMap strict f1 defaults) (schema_FieldMap strict f2 defaults).
Proof.
  unfold same_checker. intros Hf [| | | | |m|] p; try done. unfold schema_FieldMap.
  assert (f1.*1 = f2.*1) as Hkeys.
  { induction Hf as [|[k1 c1] [k2 c2] ? ? [Hk _] _ IH]; [done |].
    rewrite !fmap_cons. cbn in *. by rewrite Hk, IH. }
  assert (unknownKey strict f1 m = unknownKey strict f2 m) as ->
    by (unfold unknownKey; by rewrite Hkeys).
  destruct (unknownKey strict f2 m); [done |]. clear Hkeys.
  assert (mapM (fieldStep m defaults p) f1 = mapM (fieldStep m defaults p) f2) as ->; [|done].
  induction Hf as [|[k1 c1] [k2 c2] ? ? [Hk Hc] _ IH]; [done |].
  cbn in Hk, Hc. subst k2. cbn [mapM]. rewrite IH.
  assert (fieldStep m defaults p (k1, c1) = fieldStep m defaults p (k1, c2)) as ->; [|done].
  unfold fieldStep. cbn [fst snd]. destruct (m !! k1); [by rewrite Hc |].
  destruct (assoc k1 defaults) as [[|d]|]; [done | by rewrite Hc..].
Qed.

Section Agreement.
Variables c1 c2 : StringCoercion.
Hypothesis same_ints : ∀ s, intOfString (StringCoercion := c1) s = intOfString (StringCoercion := c2) s.
Hypothesis same_bools :
  ∀ s, boolOfString (StringCoercion := c1) s = boolOfString (StringCoercion := c2) s.

Lemma Int_ext : same_checker (schema_Int (coercion := c1)) (schema_Int (coercion := c2)).
Proof. intros [| | |s| | |] p; try done. cbn. by rewrite same_ints. Qed.

Lemma Bool_ext : same_checker (schema_Bool (coercion := c1)) (schema_Bool (coercion := c2)).
Proof. intros [| | |s| | |] p; try done. cbn. by rewrite same_bools. Qed.

(** Solves [same_checker] goals on schemas built from the combinators. *)
Ltac same :=
  cbn [fst snd];
  first
    [ by unfold same_checker
    | apply Int_ext
    | apply Bool_ext
    | apply OneOf_ext; repeat (apply List.Forall2_cons; [same |]); apply List.Forall2_nil
    | apply List_ext; same
    | apply StringMap_ext; same
    | apply FieldMap_ext;
      repeat (apply List.Forall2_cons; [split; [reflexivity | same] |]);
      apply List.Forall2_nil ].

Lemma ifaceExpC_ext (strict : bool) (limit : Value) :
  same_checker (ifaceExpC_Coerce (coercion := c1) strict limit)
               (ifaceExpC_Coerce (coercion := c2) strict limit).
Proof.
  intros v p. unfold ifaceExpC_Coerce.
  destruct (stringC v p); [done | | done].
  destruct (mapC v p) as [[| | | | |m|]| |]; try done.
  assert (same_checker (ifaceSchema (coercion := c1) strict)
                       (ifaceSchema (coercion := c2) strict)) as H
    by (unfold ifaceSchema; same).
  apply H.
Qed.

Lemma storageCountC_ext :
  same_checker (storageCountC_Coerce (coercion := c1)) (storageCountC_Coerce (coercion := c2)).
Proof.
  intros v p. unfold storageCountC_Coerce.
  assert (same_checker (schema_OneOf [schema_Int (coercion := c1); stringC])
                       (schema_OneOf [schema_Int (coercion := c2); stringC])) as H by same.
  by rewrite H.
Qed.

Lemma storageSchema_ext (strict : bool) :
  same_checker (storageSchema (coercion := c1) strict) (storageSchema (coercion := c2) strict).
Proof.
  unfold storageSchema, filesystemSchema. apply FieldMap_ext.
  repeat (apply List.Forall2_cons;
          [split; [reflexivity | first [same | apply storageCountC_ext]] |]).
  apply List.Forall2_nil.
Qed.

Lemma charmSchema_ext (strict : bool) :
  same_checker (charmSchema (coercion := c1) strict) (charmSchema (coercion := c2) strict).
Proof.
  unfold charmSchema, charmFields. apply FieldMap_ext.
  repeat (apply List.Forall2_cons;
          [split; [reflexivity
                  | first [ same
                          | apply StringMap_ext, ifaceExpC_ext
                          | apply StringMap_ext, storageSchema_ext ]] |]).
  apply List.Forall2_nil.
Qed.

Lemma ReadMeta_ext (strict : bool) (IsValidSeries : string → bool)
    (raw : gmap string Value) :
  ReadMeta (coercion := c1) strict IsValidSeries raw
  = ReadMeta (coercion := c2) strict IsValidSeries raw.
Proof. unfold ReadMeta. by rewrite charmSchema_ext. Qed.
End Agreement.

(** ** Storage counts *)

Lemma count_of_integer {coercion : StringCoercion} (m : Z) (path : list string) :
  (0 < m)%Z → storageCountC_Coerce (VInt m) path = Ok (VCount (-1) m).
Proof.
  intros Hm. unfold storageCountC_Coerce. cbn.
  destruct (Z.leb_spec m 0); [lia | done].
Qed.

Lemma count_of_bad_integer {coercion : StringCoercion} (m : Z) (p : string) (path : list string) :
  (m <= 0)%Z →
  storageCountC_Coerce (VInt m) (p :: path)
  = Err (InvalidCount (String.concat EmptyString path) m).
Proof.
  intros Hm. unfold storageCountC_Coerce. cbn.
  destruct (Z.leb_spec m 0); [done | lia].
Qed.

Lemma count_of_numeral {coercion : StringCoercion} (s : string) (m : Z) (path : list string) :
  intOfString s = Some m →
  storageCountC_Coerce (VStr s) path = storageCountC_Coerce (VInt m) path.
Proof. intros H. unfold storageCountC_Coerce. cbn. by rewrite H. Qed.

Lemma count_of_bad_string {coercion : StringCoercion} (s p : string) (path : list string) :
  intOfString s = None →
  storageCountRE_FindStringSubmatch s = None →
  storageCountC_Coerce (VStr s) (p :: path)
  = Err (CountNoMatch (String.concat EmptyString path) s).
Proof. intros Hi H. unfold storageCountC_Coerce. cbn. by rewrite Hi, H. Qed.

Section StorageCounts.
Context {coercion : StringCoercion}.
Variable strict : bool.
Variable IsValidSeries : string → bool.

(** What is needed of [schema.Int()] on strings: it takes none of the
    three strings of the claim for an integer. *)
Hypothesis range_is_not_an_integer : intOfString "2-4" = None.
Hypothesis open_range_is_not_an_integer : intOfString "5-" = None.
Hypothesis abc_is_not_an_integer : intOfString "abc" = None.

(** C3. Through the decoder, the count ["2-4"] gives minimum 2 and
    maximum 4 and ["5-"] gives 5 and -1, whatever [required] is; a bare
    integer [m > 0] (such as 5) gives [(m, m)] when [required] is true and
    [(0, m)] when it is false or left out; a bare integer [m <= 0] and the
    string ["abc"] are schema errors; and a document without [count] gives
    what the bare integer 1 gives.  The coercer itself maps a bare [m > 0]
    to the placeholder pair [(-1, m)], and rejects every string that
    neither is read as an integer nor matches the pattern.  The three
    strings of the claim are taken not to be read as integers by
    [schema.Int()]. *)
Theorem storage_count_coercion :
  (∀ required,
     data_counts (ReadMeta strict IsValidSeries
       (storage_document required (Some (VStr "2-4")))) = Ok (Some (2, 4)%Z)
     ∧ data_counts (ReadMeta strict IsValidSeries
         (storage_document required (Some (VStr "5-")))) = Ok (Some (5, -1)%Z))
  ∧ (∀ m, (0 < m)%Z →
       data_counts (ReadMeta strict IsValidSeries
         (storage_document (Some true) (Some (VInt m)))) = Ok (Some (m, m))
       ∧ data_counts (ReadMeta strict IsValidSeries
           (storage_document (Some false) (Some (VInt m)))) = Ok (Some (0%Z, m))
       ∧ data_counts (ReadMeta strict IsValidSeries
           (storage_document None (Some (VInt m)))) = Ok (Some (0%Z, m)))
  ∧ (∀ m required, (m <= 0)%Z →
       ReadMeta strict IsValidSeries (storage_document required (Some (VInt m)))
       = Err (MetadataError (InvalidCount "storage.data.count" m)))
  ∧ (∀ required,
       ReadMeta strict IsValidSeries (storage_document required (Some (VStr "abc")))
       = Err (MetadataError (CountNoMatch "storage.data.count" "abc")))
  ∧ (data_counts (ReadMeta strict IsValidSeries (storage_document (Some true) None))
       = Ok (Some (1, 1)%Z)
     ∧ data_counts (ReadMeta strict IsValidSeries (storage_document (Some false) None))
       = Ok (Some (0, 1)%Z)
     ∧ data_counts (ReadMeta strict IsValidSeries (storage_document None None))
       = Ok (Some (0, 1)%Z))
  ∧ (∀ path,
       storageCountC_Coerce (VStr "2-4") path = Ok (VCount 2 4)
       ∧ storageCountC_Coerce (VStr "5-") path = Ok (VCount 5 (-1))
       ∧ (∀ m, (0 < m)%Z → storageCountC_Coerce (VInt m) path = Ok (VCount (-1) m))
       ∧ (∀ m v, (m <= 0)%Z → storageCountC_Coerce (VInt m) path ≠ Ok v)
       ∧ (∀ s v, intOfString s = None → storageCountRE_FindStringSubmatch s = None →
            storageCountC_Coerce (VStr s) path ≠ Ok v)).
Proof.
  pose proof range_is_not_an_integer as H24.
  pose proof open_range_is_not_an_integer as H5.
  pose proof abc_is_not_an_integer as Habc.
  set (pinned := {| intOfString := λ s, if s =? "2-4" then None
                                        else if s =? "5-" then None
                                        else if s =? "abc" then None
                                        else intOfString s;
                    boolOfString := boolOfString |}).
  assert (∀ doc, ReadMeta (coercion := coercion) strict IsValidSeries doc
                 = ReadMeta (coercion := pinned) strict IsValidSeries doc) as Hpin.
  { intros doc. apply ReadMeta_ext; [|done]. intros s. cbn.
    destruct (String.eqb_spec s "2-4") as [-> | _]; [done |].
    destruct (String.eqb_spec s "5-") as [-> | _]; [done |].
    by destruct (String.eqb_spec s "abc") as [-> | _]. }
  assert (∀ v p, storageCountC_Coerce (coercion := coercion) v p
                 = storageCountC_Coerce (coercion := pinned) v p) as Hpin'.
  { apply storageCountC_ext. intros s. cbn.
    destruct (String.eqb_spec s "2-4") as [-> | _]; [done |].
    destruct (String.eqb_spec s "5-") as [-> | _]; [done |].
    by destruct (String.eqb_spec s "abc") as [-> | _]. }
  split; [|split; [|split; [|split; [|split]]]].
  - intros [[|]|]; rewrite !Hpin; destruct strict; split; vm_compute; reflexivity.
  - intros [|p|p] Hm; [lia | | lia].
    rewrite !Hpin. destruct strict; repeat split; vm_compute; reflexivity.
  - intros [|p|p] [[|]|] Hm; try lia; rewrite Hpin; destruct strict; vm_compute; reflexivity.
  - intros [[|]|]; rewrite Hpin; destruct strict; vm_compute; reflexivity.
  - rewrite !Hpin. destruct strict; repeat split; vm_compute; reflexivity.
  - intros path.
    split; [by rewrite Hpin' |]. split; [by rewrite Hpin' |]. split; [|split].
    + intros m Hm. by apply count_of_integer.
    + intros m v Hm. destruct path as [|p path].
      * unfold storageCountC_Coerce. cbn. destruct (Z.leb_spec m 0); [done | lia].
      * by rewrite count_of_bad_integer.
    + intros s v Hi Hs. destruct path as [|p path].
      * unfold storageCountC_Coerce. cbn. by rewrite Hi, Hs.
      * by rewrite count_of_bad_string.
Qed.
End StorageCounts.

Lemma storage_count_coercion_witness :
  data_counts (ReadMeta (coercion := decimal) true anySeries
                 (storage_document (Some true) (Some (VStr "2-4"))))
  = Ok (Some (2, 4)%Z).
Proof.
  apply (proj1 (proj1 (storage_count_coercion (coercion := decimal) true anySeries
                         eq_refl eq_refl eq_refl) (Some true))).
Defined.

(** Decimal strings beyond the range of [int] match the pattern and are
    then refused by [strconv.Atoi]. *)
Example count_out_of_range :
  storageCountC_Coerce (coercion := decimal) (VStr "9223372036854775808-") ["."; "count"]
  = Err (AtoiError "9223372036854775808")
  ∧ storageCountC_Coerce (coercion := decimal) (VStr "9223372036854775807-") ["."; "count"]
    = Ok (VCount 9223372036854775807 (-1)).
Proof. split; vm_compute; reflexivity. Qed.

(** ** The relation shorthand *)

(** The encoder returns the bare string exactly when the three attributes
    have their defaults; the default limit is the [noLimit] of the role. *)
Lemma shorthand_iff (r : Relation) :
  (∃ s, marshaledRelation_GetYAML r = Shorthand s) ↔
  Optional r = false ∧ Scope r = ScopeGlobal
  ∧ Limit r = (if Role r =? RoleProvider then 0%Z else 1%Z).
Proof.
  unfold marshaledRelation_GetYAML.
  destruct (Optional r); cbn [negb andb].
  { split; [by intros [s ?] | by intros [? _]]. }
  destruct (Z.eqb_spec (Limit r) (if Role r =? RoleProvider then 0%Z else 1%Z)) as [El|El];
    cbn [andb].
  - destruct (Scope r =? ScopeGlobal) eqn:Es; strings.
    + split; [done | by eexists].
    + split; [by intros [s ?] | by intros (_ & ? & _)].
  - split; [by intros [s ?] | by intros (_ & _ & ?)].
Qed.

Section Shorthand.
Context {coercion : StringCoercion}.
Variable strict : bool.
Variable IsValidSeries : string → bool.

(** C7. The bare string of [provides: {server: "mysql"}] is expanded to
    the full form, with the limit of the mapping (nil, "unbounded", for
    [provides]), optional false and scope global, and decodes to the
    relation with interface "mysql", limit 0, optional false and scope
    global.  The encoder returns the bare interface string exactly when
    optional is false, the scope is global and the limit is the default of
    the role (0 for a provider, 1 otherwise); encoding the decoded example
    gives the original document back. *)
Theorem relation_shorthand :
  (∀ limit s path,
     ifaceExpC_Coerce strict limit (VStr s) path
     = Ok (VMap (<["interface" := VStr s]> (<["limit" := limit]>
             (<["optional" := VBool false]> (<["scope" := VStr ScopeGlobal]> ∅))))))
  ∧ ReadMeta strict IsValidSeries (document [("provides", VMap {[ "server" := VStr "mysql" ]})])
    = Ok (charm false
            (Some {[ "server" := {| Name := "server"; Role := RoleProvider;
                                    Interface := "mysql"; Optional := false;
                                    Limit := 0; Scope := ScopeGlobal |} ]})
            None None None)
  ∧ (∀ r, (∃ s, marshaledRelation_GetYAML r = Shorthand s) ↔
          Optional r = false ∧ Scope r = ScopeGlobal
          ∧ Limit r = (if Role r =? RoleProvider then 0%Z else 1%Z))
  ∧ (∀ r s, marshaledRelation_GetYAML r = Shorthand s → s = Interface r)
  ∧ (∀ r, (∃ s, yaml_relation r = VStr s) ↔
          Optional r = false ∧ Scope r = ScopeGlobal
          ∧ Limit r = (if Role r =? RoleProvider then 0%Z else 1%Z))
  ∧ Encode (charm false
              (Some {[ "server" := relation "server" RoleProvider "mysql" ScopeGlobal ]})
              None None None)
    = document [("provides", VMap {[ "server" := VStr "mysql" ]})].
Proof.
  split; [done |]. split; [destruct strict; vm_compute; reflexivity |].
  split; [apply shorthand_iff |]. split; [|split].
  - intros r s. unfold marshaledRelation_GetYAML. case_match; [|done]. by intros [= <-].
  - intros r. rewrite <- shorthand_iff. unfold yaml_relation.
    destruct (marshaledRelation_GetYAML r) as [i|mr].
    + split; intros _; by eexists.
    + split; by intros [s ?].
  - vm_compute. reflexivity.
Qed.
End Shorthand.

Lemma relation_shorthand_witness :
  Optional (relation "server" RoleProvider "mysql" ScopeGlobal) = false
  ∧ Scope (relation "server" RoleProvider "mysql" ScopeGlobal) = ScopeGlobal
  ∧ Limit (relation "server" RoleProvider "mysql" ScopeGlobal) = 0%Z.
Proof.
  apply (proj1 (proj1 (proj2 (proj2
           (relation_shorthand (coercion := decimal) true anySeries)))
                  (relation "server" RoleProvider "mysql" ScopeGlobal))).
  exists "mysql". reflexivity.
Defined.

(** A requirer collapses at limit 1, not at limit 0; with any field off
    its default the full form is written, with that field only. *)
Example shorthand_of_requirer :
  yaml_relation (relation "db" RoleRequirer "mysql" ScopeGlobal) = VStr "mysql"
  ∧ yaml_relation {| Name := "db"; Role := RoleRequirer; Interface := "mysql";
                     Optional := false; Limit := 0; Scope := ScopeGlobal |}
    = VMap (<["interface" := VStr "mysql"]> {[ "limit" := VInt 0 ]})
  ∧ yaml_relation (relation "host" RoleRequirer "juju-info" ScopeContainer)
    = VMap (<["interface" := VStr "juju-info"]> {[ "scope" := VStr "container" ]}).
Proof. repeat split; vm_compute; reflexivity. Qed.

(** * The round trip *)

(** ** Loops that collect results *)

Lemma mapM_Ok {A B : Type} (f : A → outcome B) (l : list A) (l' : list B) :
  mapM f l = Ok l' ↔ Forall2 (λ x y, f x = Ok y) l l'.
Proof.
  revert l'. induction l as [|x l IH]; intros l'; cbn [mapM].
  - split; [intros [= <-]; constructor | by intros ->%Forall2_nil_inv_l].
  - split.
    + destruct (f x) as [y| |] eqn:Hx; cbn; [|done..].
      destruct (mapM f l) as [ys| |] eqn:Hl; cbn; [|done..].
      intros [= <-]. constructor; [done | by apply IH].
    + intros (y & ys & Hy & Hys & ->)%Forall2_cons_inv_l.
      rewrite Hy. cbn. apply IH in Hys. rewrite Hys. done.
Qed.

Section MapLoop.
Context {A B : Type} (f : string → A → outcome B).

Lemma map_mapM_Ok (m : gmap string A) (m' : gmap string B) :
  map_mapM f m = Ok m' ↔
  ∀ k, match m !! k with
       | Some a => ∃ b, f k a = Ok b ∧ m' !! k = Some b
       | None => m' !! k = None
       end.
Proof.
  unfold map_mapM.
  set (body := λ kv : string * A, w ← f kv.1 kv.2; Ok (kv.1, w)).
  assert (∀ l l', Forall2 (λ x y, body x = Ok y) l l' →
            l'.*1 = l.*1 ∧ Forall2 (λ x y, f x.1 x.2 = Ok y.2) l l') as Hbody.
  { induction 1 as [|[k a] [k' b] l l' Hxy _ [IH1 IH2]]; [done |].
    unfold body in Hxy. cbn in Hxy. destruct (f k a) as [w| |] eqn:Hw; [|done..].
    cbn in Hxy. injection Hxy as <- <-. split; [cbn; by f_equal | by constructor]. }
  split.
  - destruct (mapM body (map_to_list m)) as [l'| |] eqn:Hl; cbn; [|done..].
    intros [= <-]. apply mapM_Ok, Hbody in Hl as [Hkeys Hvals].
    assert (NoDup l'.*1) as Hnd by (rewrite Hkeys; apply NoDup_fst_map_to_list).
    intros k. destruct (m !! k) as [a|] eqn:Hk.
    + apply elem_of_map_to_list in Hk.
      apply list_elem_of_lookup in Hk as [i Hi].
      destruct (Forall2_lookup_l _ _ _ _ _ Hvals Hi) as ([k' b] & Hi' & Hb).
      cbn in Hb. exists b. split; [done |].
      apply elem_of_list_to_map_1; [done |].
      assert (k' = k) as <-.
      { apply (f_equal (λ l, l !! i)) in Hkeys.
        rewrite !list_lookup_fmap, Hi, Hi' in Hkeys. by injection Hkeys. }
      by eapply list_elem_of_lookup_2.
    + apply not_elem_of_list_to_map. rewrite Hkeys.
      intros ([k' a] & -> & Hin%elem_of_map_to_list)%list_elem_of_fmap. cbn in Hk. congruence.
  - intros Hall.
    assert (∃ l', mapM body (map_to_list m) = Ok l' ∧ l'.*1 = (map_to_list m).*1
                  ∧ Forall (λ y, m' !! y.1 = Some y.2) l') as (l' & -> & Hkeys & Hvals).
    { assert (Forall (λ x, m !! x.1 = Some x.2) (map_to_list m)) as Hl.
      { apply Forall_forall. intros [k a]. apply elem_of_map_to_list. }
      induction Hl as [|[k a] l Hx _ (l' & Hl' & Hk & Hv)]; [by exists [] |].
      cbn in Hx. specialize (Hall k). rewrite Hx in Hall. destruct Hall as (b & Hb & Hm').
      exists ((k, b) :: l').
      change (mapM body ((k, a) :: l))
        with (body (k, a) ≫= λ y, mapM body l ≫= λ ys, Ok (y :: ys)).
      assert (body (k, a) = Ok (k, b)) as -> by (unfold body; cbn; by rewrite Hb).
      cbn. rewrite Hl'. cbn. repeat split; [by f_equal | by constructor]. }
    cbn. f_equal. apply map_eq. intros k.
    assert (NoDup l'.*1) as Hnd by (rewrite Hkeys; apply NoDup_fst_map_to_list).
    destruct (list_to_map l' !! k) as [b|] eqn:Hb.
    + apply elem_of_list_to_map_2 in Hb.
      rewrite Forall_forall in Hvals. symmetry. apply (Hvals (k, b) Hb).
    + apply not_elem_of_list_to_map in Hb. rewrite Hkeys in Hb.
      specialize (Hall k). destruct (m !! k) as [a|] eqn:Hk; [|done].
      destruct Hb. apply list_elem_of_fmap. exists (k, a).
      split; [done | by apply elem_of_map_to_list].
Qed.
End MapLoop.

(** ** Maps of present fields *)

Lemma present_lookup_None (tbl : list (string * option Value)) (k : string) :
  k ∉ tbl.*1 → present tbl !! k = None.
Proof.
  unfold present. intros Hk. apply not_elem_of_list_to_map.
  intros ([k' v] & -> & Hin)%list_elem_of_fmap.
  apply list_elem_of_omap in Hin as ([k'' o] & Hin & Ho).
  destruct o as [v'|]; [|done]. cbn in Ho. injection Ho as E1 E2. subst k'' v'.
  apply Hk, list_elem_of_fmap. by exists (k', Some v).
Qed.

Lemma present_lookup (tbl : list (string * option Value)) (k : string) :
  NoDup tbl.*1 → present tbl !! k = default None (assoc k tbl).
Proof.
  induction tbl as [|[k' o] tbl IH]; [done |].
  rewrite fmap_cons. cbn [fst]. intros [Hk' Hnd]%NoDup_cons.
  cbn [assoc]. destruct (String.eqb_spec k k') as [->|Hne].
  - destruct o as [v|]; cbn.
    + unfold present. cbn. by rewrite lookup_insert_eq.
    + by apply present_lookup_None.
  - rewrite <- IH by done. destruct o as [v|]; [|done].
    unfold present. cbn. by rewrite lookup_insert_ne.
Qed.

Lemma present_key (tbl : list (string * option Value)) (k : string) :
  is_Some (present tbl !! k) → k ∈ tbl.*1.
Proof.
  intros [v Hv]. destruct (decide (k ∈ tbl.*1)) as [|Hn]; [done |].
  apply present_lookup_None in Hn. congruence.
Qed.

(** ** Field maps *)

Lemma unknownKey_None (strict : bool) (fields : list (string * Checker))
    (m : gmap string Value) :
  (∀ k, is_Some (m !! k) → k ∈ fields.*1) → unknownKey strict fields m = None.
Proof.
  intros Hkeys. unfold unknownKey. destruct strict; [|done].
  destruct (find _ _) as [k|] eqn:Hfind; [|done].
  apply find_some in Hfind as [Hin Hk].
  apply list_elem_of_In, list_elem_of_fmap in Hin as ([k' v] & -> & Hin%elem_of_map_to_list).
  apply negb_true_iff, bool_decide_eq_false in Hk. destruct Hk. apply Hkeys. by eexists.
Qed.

Lemma FieldMap_Ok (strict : bool) (fields : list (string * Checker))
    (defaults : list (string * Default)) (m : gmap string Value)
    (path : list string) (v : Value) :
  schema_FieldMap strict fields defaults (VMap m) path = Ok v ↔
  unknownKey strict fields m = None
  ∧ ∃ outs, Forall2 (λ kc o, fieldStep m defaults path kc = Ok o) fields outs
            ∧ v = VMap (present outs).
Proof.
  unfold schema_FieldMap. destruct (unknownKey strict fields m) as [k|].
  { split; [done | by intros [? _]]. }
  destruct (mapM _ fields) as [outs| |] eqn:Hm; cbn.
  - apply mapM_Ok in Hm. split.
    + intros [= <-]. split; [done |]. by exists outs.
    + intros (_ & outs' & H' & ->). apply mapM_Ok in Hm, H'. congruence.
  - split; [done |]. intros (_ & outs' & H'%mapM_Ok & _). congruence.
  - split; [done |]. intros (_ & outs' & H'%mapM_Ok & _). congruence.
Qed.

Lemma fieldStep_key (m : gmap string Value) (defaults : list (string * Default))
    (path : list string) (kc : string * Checker) (o : string * option Value) :
  fieldStep m defaults path kc = Ok o → o.1 = kc.1.
Proof.
  unfold fieldStep. destruct (m !! kc.1) as [value|].
  - destruct (kc.2 value _); cbn; [|done..]. by intros [= <-].
  - destruct (assoc kc.1 defaults) as [[|d]|].
    + by intros [= <-].
    + destruct (kc.2 d _); cbn; [|done..]. by intros [= <-].
    + destruct (kc.2 VNil _); cbn; [|done..]. by intros [= <-].
Qed.

(** ** One relation through the encoder and the expander *)

Lemma expand_relation {coercion : StringCoercion} (strict : bool) (limit : Value) (r : Relation) (path : list string) :
  Scope r = ScopeGlobal ∨ Scope r = ScopeContainer →
  limit = VNil ∨ (∃ n, limit = VInt n) →
  ifaceExpC_Coerce strict limit (yaml_relation r) path = Ok (expanded limit r).
Proof.
  destruct r as [n ro i o l s]. cbn [Scope]. intros Hs Hl.
  unfold yaml_relation, marshaledRelation_GetYAML, expanded.
  cbn [Name Role Interface Optional Limit Scope mr_Interface mr_Limit mr_Optional mr_Scope].
  destruct (ro =? RoleProvider) eqn:Ero.
  all: destruct (Z.eqb l _) eqn:El.
  all: destruct Hs as [-> | ->], Hl as [-> | [n' ->]], o, strict.
  all: vm_compute; reflexivity.
Qed.

Lemma parse_expanded (k : string) (role : RelationRole) (limit : Value) (r : Relation) :
  Name r = k → Role r = role →
  (limit = VNil ∧ role = RoleProvider) ∨ (limit = VInt 1 ∧ role ≠ RoleProvider) →
  parseRelation k role (expanded limit r) = Ok r.
Proof.
  destruct r as [n ro i o l s]. cbn [Name Role]. intros <- <- Hl.
  unfold expanded. cbn [Name Role Interface Optional Limit Scope].
  destruct Hl as [[-> ->] | [-> Hro%eqb_false]].
  - change (RoleProvider =? RoleProvider) with true. cbv iota.
    destruct (Z.eqb_spec l 0) as [-> | Hne]; [by vm_compute |].
    vm_compute. reflexivity.
  - rewrite Hro. destruct (Z.eqb_spec l 1) as [-> | Hne]; [by vm_compute |].
    vm_compute. reflexivity.
Qed.

(** ** Lists of strings *)

Lemma List_of_strings (path : list string) (l : list string) :
  schema_List schema_String (VList (VStr <$> l)) path = Ok (VList (VStr <$> l)).
Proof.
  unfold schema_List.
  assert (∀ (j : nat → nat),
    mapM (λ ix : nat * Value, schema_String ix.2 (path ++ ["["; pretty ix.1; "]"])%list)
      (imap (λ i x, (j i, x)) (VStr <$> l)) = Ok (VStr <$> l)) as H.
  { induction l as [|s l IH]; intros j; [done |].
    rewrite fmap_cons. cbn [imap mapM snd schema_String].
    change (Ok (VStr s) ≫= ?f) with (f (VStr s)). cbv beta.
    specialize (IH (j ∘ S)). unfold compose in *. by rewrite IH. }
  specialize (H (λ i, i)).
  change (imap pair (VStr <$> l)) with (imap (λ (i : nat) (x : Value), (i, x)) (VStr <$> l)).
  by rewrite H.
Qed.

Lemma parse_strings (l : list string) :
  parseStringList (VList (VStr <$> l)) = Ok (Some l).
Proof.
  unfold parseStringList. cbn.
  assert (mapM asString (VStr <$> l) = Ok l) as ->; [|done].
  induction l as [|s l IH]; [done |]. rewrite fmap_cons. cbn. by rewrite IH.
Qed.

(** ** What the decoder guarantees about scopes *)

Lemma bind_Ok {A B : Type} (x : outcome A) (f : A → outcome B) (b : B) :
  x ≫= f = Ok b ↔ ∃ a, x = Ok a ∧ f a = Ok b.
Proof.
  destruct x as [a| |]; cbn.
  - split; [by exists a | by intros (? & [= <-] & ?)].
  - split; [done | by intros (? & ? & _)].
  - split; [done | by intros (? & ? & _)].
Qed.

Lemma fmap_Ok {A B : Type} (x : outcome A) (f : A → B) (b : B) :
  f <$> x = Ok b ↔ ∃ a, x = Ok a ∧ b = f a.
Proof.
  destruct x as [a| |]; cbn.
  - split; [intros [= <-]; by exists a | by intros (? & [= <-] & ->)].
  - split; [done | by intros (? & ? & _)].
  - split; [done | by intros (? & ? & _)].
Qed.

Lemma fieldStep_value (m : gmap string Value) (defaults : list (string * Default))
    (path : list string) (k : string) (c : Checker) (o : string * option Value) :
  fieldStep m defaults path (k, c) = Ok o →
  o.1 = k
  ∧ match o.2 with
    | Some v => ∃ vin, c vin (path ++ ["."; k])%list = Ok v
                       ∧ (m !! k = Some vin
                          ∨ (m !! k = None ∧ assoc k defaults ≠ Some Omit
                             ∧ vin = match assoc k defaults with
                                     | Some (Dflt d) => d
                                     | _ => VNil
                                     end))
    | None => m !! k = None ∧ assoc k defaults = Some Omit
    end.
Proof.
  unfold fieldStep. cbn [fst snd]. destruct (m !! k) as [value|].
  - intros (newv & Hc & [= <-])%bind_Ok. split; [done |]. exists value. auto.
  - destruct (assoc k defaults) as [[|d]|].
    + by intros [= <-].
    + intros (newv & Hc & [= <-])%bind_Ok. split; [done |]. exists d. auto.
    + intros (newv & Hc & [= <-])%bind_Ok. split; [done |]. exists VNil. auto.
Qed.

Lemma scalar_eqb_VStr (a : string) (v : Value) :
  scalar_eqb (VStr a) v = true → v = VStr a.
Proof. destruct v; cbn; try done. by intros ->%eqb_true. Qed.

Lemma scope_checker (v v' : Value) (path : list string) :
  schema_OneOf [schema_Const (VStr ScopeGlobal); schema_Const (VStr ScopeContainer)] v path
  = Ok v' →
  v' = VStr ScopeGlobal ∨ v' = VStr ScopeContainer.
Proof.
  cbn. unfold schema_Const.
  destruct (scalar_eqb (VStr ScopeGlobal) v) eqn:Eg.
  { intros [= <-]. left. by apply scalar_eqb_VStr. }
  destruct (scalar_eqb (VStr ScopeContainer) v) eqn:Ec; [|done].
  intros [= <-]. right. by apply scalar_eqb_VStr.
Qed.

Lemma ifaceExpC_scope {coercion : StringCoercion} (strict : bool) (limit x x' : Value) (path : list string) :
  ifaceExpC_Coerce strict limit x path = Ok x' →
  ∃ rm, x' = VMap rm
        ∧ (rm !! "scope" = Some (VStr ScopeGlobal)
           ∨ rm !! "scope" = Some (VStr ScopeContainer)).
Proof.
  unfold ifaceExpC_Coerce. destruct (stringC x path) as [s| |]; [| |done].
  { intros [= <-]. eexists. split; [done |]. left. reflexivity. }
  destruct (mapC x path) as [[| | | | |m|]| |]; try done.
  intros (_ & outs & Hf & ->)%FieldMap_Ok. eexists. split; [done |].
  apply Forall2_cons_inv_l in Hf as ([k1 e1] & outs1 & H1%fieldStep_key & Hf & ->).
  apply Forall2_cons_inv_l in Hf as ([k2 e2] & outs2 & H2%fieldStep_key & Hf & ->).
  apply Forall2_cons_inv_l in Hf as ([k3 e3] & outs3 & H3%fieldStep_value & Hf & ->).
  apply Forall2_cons_inv_l in Hf as ([k4 e4] & outs4 & H4%fieldStep_key & Hf & ->).
  apply Forall2_nil_inv_l in Hf as ->. cbn in H1, H2, H3, H4. subst k1 k2 k4.
  destruct H3 as [-> H3].
  rewrite present_lookup by (apply (bool_decide_unpack _); vm_compute; exact I).
  cbn. destruct e3 as [v|].
  - destruct H3 as (vin & Hv%scope_checker & _). destruct Hv as [-> | ->]; auto.
  - by destruct H3 as [_ H3].
Qed.

Lemma parseRelation_scope (k : string) (role : RelationRole) (rm : gmap string Value)
    (s : string) (r : Relation) :
  rm !! "scope" = Some (VStr s) →
  parseRelation k role (VMap rm) = Ok r → Scope r = s.
Proof.
  intros Hs. unfold parseRelation. cbn [asMap].
  change (Ok rm ≫= ?f) with (f rm). cbv beta.
  intros (iface & _ & (optional & _ & H)%bind_Ok)%bind_Ok.
  assert (at_key rm "scope" = VStr s) as Hat by (unfold at_key; by rewrite Hs).
  rewrite Hat in H. cbn in H.
  apply bind_Ok in H as (limit & _ & [= <-]). done.
Qed.

Lemma parsed_scopes {coercion : StringCoercion} (strict : bool) (limit : Value) (role : RelationRole)
    (v vin : Value) (path : list string) (rels : option (gmap string Relation)) :
  schema_StringMap (ifaceExpander strict limit) vin path = Ok v →
  parseRelations v role = Ok rels →
  ∀ k r, index rels k = Some r → Scope r = ScopeGlobal ∨ Scope r = ScopeContainer.
Proof.
  unfold schema_StringMap. destruct vin as [| | | | |im|]; try done.
  intros (pm & Hpm & ->)%fmap_Ok. unfold parseRelations. cbn.
  intros (rs & Hrs & ->)%fmap_Ok. cbn. intros k r Hr.
  rewrite map_mapM_Ok in Hrs. specialize (Hrs k).
  rewrite map_mapM_Ok in Hpm. specialize (Hpm k).
  destruct (pm !! k) as [x'|] eqn:Hx'; [|congruence].
  destruct Hrs as (r' & Hparse & Hr'). assert (r' = r) as -> by congruence.
  destruct (im !! k) as [x|]; [|congruence].
  destruct Hpm as (x'' & Hexp & [= ->]).
  apply ifaceExpC_scope in Hexp as (rm & -> & [Hs | Hs]).
  - left. by eapply parseRelation_scope.
  - right. by eapply parseRelation_scope.
Qed.

(** ** What the encoder keeps of a record *)

Lemma marshaledRelations_default (rs : option (gmap string Relation)) :
  marshaledRelations rs = default ∅ rs.
Proof.
  unfold marshaledRelations.
  assert (∀ (l : list (string * Relation)) (init : gmap string Relation),
    NoDup l.*1 →
    foldl (λ mrs kv, <[kv.1 := kv.2]> mrs) init l = list_to_map l ∪ init) as H.
  { induction l as [|[k r] l IH]; intros init Hnd.
    - cbn. by rewrite (left_id_L ∅ (∪)).
    - rewrite fmap_cons in Hnd. apply NoDup_cons in Hnd as [Hk Hnd].
      cbn [foldl list_to_map fst snd]. rewrite IH by done. cbn.
      rewrite <- insert_union_r by (by apply not_elem_of_list_to_map).
      by rewrite insert_union_l. }
  destruct rs as [g|]; cbn [range default].
  - rewrite H by apply NoDup_fst_map_to_list.
    by rewrite list_to_map_to_list, (right_id_L ∅ (∪)).
  - done.
Qed.

(** ** One field of a field map *)

Section Fields.
Context (m : gmap string Value) (defaults : list (string * Default)) (path : list string).

Lemma fieldStep_given (k : string) (c : Checker) (v v' : Value) :
  m !! k = Some v → c v (path ++ ["."; k])%list = Ok v' →
  fieldStep m defaults path (k, c) = Ok (k, Some v').
Proof. intros Hk Hc. unfold fieldStep. cbn [fst snd]. by rewrite Hk, Hc. Qed.

Lemma fieldStep_omitted (k : string) (c : Checker) :
  m !! k = None → assoc k defaults = Some Omit →
  fieldStep m defaults path (k, c) = Ok (k, None).
Proof. intros Hk Hd. unfold fieldStep. cbn [fst snd]. by rewrite Hk, Hd. Qed.

Lemma fieldStep_default (k : string) (c : Checker) (d v' : Value) :
  m !! k = None → assoc k defaults = Some (Dflt d) →
  c d (path ++ ["."; k])%list = Ok v' →
  fieldStep m defaults path (k, c) = Ok (k, Some v').
Proof. intros Hk Hd Hc. unfold fieldStep. cbn [fst snd]. by rewrite Hk, Hd, Hc. Qed.

(** A field written with [omitempty] and declared with the [Omit]
    default. *)
Lemma fieldStep_omitempty (k : string) (c : Checker) (zero : bool) (v v' : Value) :
  m !! k = omitempty zero v → assoc k defaults = Some Omit →
  (zero = false → c v (path ++ ["."; k])%list = Ok v') →
  fieldStep m defaults path (k, c) = Ok (k, omitempty zero v').
Proof.
  intros Hk Hd Hc. destruct zero; cbn [omitempty] in *.
  - by apply fieldStep_omitted.
  - apply fieldStep_given with v; [done | by apply Hc].
Qed.
End Fields.

(** ** The schema on an encoded record *)

Section SchemaOnEncoding.
Context {coercion : StringCoercion}.
Variable strict : bool.
Variable R : Meta.
Hypothesis scopes :
  ∀ src role k r, (src, role) ∈ mappings R → index src k = Some r →
    Scope r = ScopeGlobal ∨ Scope r = ScopeContainer.

Lemma Encode_lookup (k : string) :
  Encode R !! k =
  default None (assoc k
    [ ("name", Some (VStr (m_Name R)));
      ("summary", Some (VStr (m_Summary R)));
      ("description", Some (VStr (m_Description R)));
      ("provides", yaml_relations (default ∅ (m_Provides R)));
      ("requires", yaml_relations (default ∅ (m_Requires R)));
      ("peers", yaml_relations (default ∅ (m_Peers R)));
      ("categories", omitempty (bool_decide (default [] (m_Categories R) = []))
                       (yaml_strings (m_Categories R)));
      ("tags", omitempty (bool_decide (default [] (m_Tags R) = []))
                 (yaml_strings (m_Tags R)));
      ("subordinate", omitempty (negb (m_Subordinate R)) (VBool (m_Subordinate R)));
      ("series", omitempty (m_Series R =? EmptyString) (VStr (m_Series R))) ]).
Proof.
  unfold Encode, yaml_meta, Meta_GetYAML.
  cbn [y_Name y_Summary y_Description y_Provides y_Requires y_Peers y_Categories
       y_Tags y_Subordinate y_Series].
  rewrite !marshaledRelations_default.
  apply present_lookup. apply (bool_decide_unpack _). vm_compute. exact I.
Qed.

Lemma expand_relations (limit : Value) (role : RelationRole)
    (src : option (gmap string Relation)) (path : list string) :
  (src, role) ∈ mappings R →
  limit = VNil ∨ (∃ n, limit = VInt n) →
  schema_StringMap (ifaceExpander strict limit) (VMap (yaml_relation <$> default ∅ src)) path
  = Ok (VMap (expanded limit <$> default ∅ src)).
Proof.
  intros Hm Hl. unfold schema_StringMap.
  assert (map_mapM (λ k x, ifaceExpander strict limit x (path ++ ["."; k])%list)
            (yaml_relation <$> default ∅ src) = Ok (expanded limit <$> default ∅ src)) as ->;
    [|done].
  apply map_mapM_Ok. intros k. rewrite !lookup_fmap.
  destruct (default ∅ src !! k) as [r|] eqn:Hr; cbn; [|done].
  exists (expanded limit r). split; [|done].
  apply expand_relation; [|done]. apply (scopes src role k); [done |].
  destruct src as [g|]; [exact Hr |].
  cbn [from_option] in Hr. by rewrite lookup_empty in Hr.
Qed.

Lemma charmSchema_Encode :
  charmSchema strict (VMap (Encode R)) [] = Ok (VMap (present (coerced R))).
Proof.
  unfold charmSchema. apply FieldMap_Ok. split.
  - apply unknownKey_None. intros k [v Hv]. rewrite Encode_lookup in Hv.
    cbn [assoc] in Hv.
    repeat match type of Hv with
           | context [k =? ?s] =>
               destruct (String.eqb_spec k s) as [->|_];
                 [apply (bool_decide_unpack _); vm_compute; exact I |]
           end.
    done.
  - exists (coerced R). split; [|done]. unfold charmFields, coerced.
    repeat (apply Forall2_cons; split); [.. | by apply Forall2_nil].
    + apply fieldStep_given with (VStr (m_Name R)); [by rewrite Encode_lookup | done].
    + apply fieldStep_given with (VStr (m_Summary R)); [by rewrite Encode_lookup | done].
    + apply fieldStep_given with (VStr (m_Description R)); [by rewrite Encode_lookup | done].
    + apply fieldStep_omitempty with (VMap (yaml_relation <$> default ∅ (m_Peers R)));
        [by rewrite Encode_lookup | done |].
      intros _. apply expand_relations with RolePeer; [|right; by eexists].
      mapping.
    + apply fieldStep_omitempty with (VMap (yaml_relation <$> default ∅ (m_Provides R)));
        [by rewrite Encode_lookup | done |].
      intros _. apply expand_relations with RoleProvider; [|by left].
      mapping.
    + apply fieldStep_omitempty with (VMap (yaml_relation <$> default ∅ (m_Requires R)));
        [by rewrite Encode_lookup | done |].
      intros _. apply expand_relations with RoleRequirer; [|right; by eexists].
      mapping.
    + apply fieldStep_omitted; [by rewrite Encode_lookup | done].
    + apply fieldStep_default with (VInt 1); [by rewrite Encode_lookup | done | done].
    + apply fieldStep_omitempty with (VBool (m_Subordinate R));
        [by rewrite Encode_lookup | done | done].
    + apply fieldStep_omitempty with (yaml_strings (m_Categories R));
        [by rewrite Encode_lookup | done |].
      intros _. apply List_of_strings.
    + apply fieldStep_omitempty with (yaml_strings (m_Tags R));
        [by rewrite Encode_lookup | done |].
      intros _. apply List_of_strings.
    + apply fieldStep_omitempty with (VStr (m_Series R));
        [by rewrite Encode_lookup | done | done].
    + apply fieldStep_omitted; [by rewrite Encode_lookup | done].
Qed.
End SchemaOnEncoding.

(** ** The validator on what the encoder keeps *)

Lemma range_nonempty_map {V : Type} (m : option (gmap string V)) :
  range (nonempty_map m) = range m.
Proof.
  destruct m as [g|]; [|done]. cbn. case_bool_decide as Hg; [|done].
  subst g. cbn. by rewrite map_to_list_empty.
Qed.

Lemma checkRelationsLoop_encoded_part (R : Meta) (role : RelationRole)
    (l : list (string * Relation)) (names : gmap string bool) :
  checkRelationsLoop (encoded_part R) role l names = checkRelationsLoop R role l names.
Proof.
  revert names. induction l as [|[k r] l IH]; intros names; [done |].
  cbn [checkRelationsLoop].
  change (checkRelation (encoded_part R) role names k r)
    with (checkRelation R role names k r).
  destruct (checkRelation R role names k r); [done | apply IH].
Qed.

Lemma Check_encoded_part (IsValidSeries : string → bool) (R : Meta) :
  Meta_Check IsValidSeries R = None → Meta_Check IsValidSeries (encoded_part R) = None.
Proof.
  rewrite !Check_passes. intros (Hrel & Hsub & Hser & _). repeat split.
  - revert Hrel. unfold checkAllRelations, checkRelations.
    cbn [encoded_part m_Provides m_Requires m_Peers].
    rewrite !range_nonempty_map, checkRelationsLoop_encoded_part.
    destruct (checkRelationsLoop R RoleProvider _ ∅) as [e|n1]; [done |].
    rewrite checkRelationsLoop_encoded_part.
    destruct (checkRelationsLoop R RoleRequirer _ n1) as [e|n2]; [done |].
    by rewrite checkRelationsLoop_encoded_part.
  - revert Hsub. unfold checkSubordinate, hasContainerScope.
    cbn [encoded_part m_Requires m_Subordinate m_Name].
    rewrite range_nonempty_map.
    destruct (m_Requires R) as [g|]; [|done]. cbn [nonempty_map].
    case_bool_decide as Hg; [|done]. subst g. cbn [range]. by rewrite map_to_list_empty.
  - done.
Qed.

(** ** Decoding what the schema yields for an encoded record *)

Section DecodeEncoding.
Context {coercion : StringCoercion}.
Variable strict : bool.
Variable IsValidSeries : string → bool.
Variable R : Meta.
Hypothesis scopes :
  ∀ src role k r, (src, role) ∈ mappings R → index src k = Some r →
    Scope r = ScopeGlobal ∨ Scope r = ScopeContainer.
Hypothesis valid : Meta_Check IsValidSeries R = None.

Lemma valid_entries src role k r :
  (src, role) ∈ mappings R → index src k = Some r → Name r = k ∧ Role r = role.
Proof.
  intros Hm Hk. apply Check_passes in valid as (Hrel & _).
  destruct (Name r =? k) eqn:Hn.
  - destruct (Role r =? role) eqn:Hr; [by strings |].
    destruct (checkAll_rejects_entry R src role k r Hm Hk) as [e He]; [|congruence].
    unfold rejected, checkRelation. rewrite Hn, Hr. by eexists.
  - destruct (checkAll_rejects_entry R src role k r Hm Hk) as [e He]; [|congruence].
    unfold rejected, checkRelation. rewrite Hn. by eexists.
Qed.

Lemma parse_relations (limit : Value) (role : RelationRole)
    (src : option (gmap string Relation)) :
  (src, role) ∈ mappings R →
  (limit = VNil ∧ role = RoleProvider) ∨ (limit = VInt 1 ∧ role ≠ RoleProvider) →
  parseRelations
    (default VNil (omitempty (bool_decide (default ∅ src = ∅))
                     (VMap (expanded limit <$> default ∅ src)))) role
  = Ok (nonempty_map src).
Proof.
  intros Hm Hl. destruct src as [g|]; [|done]. cbn [from_option id nonempty_map].
  case_bool_decide as Hg; [done |]. cbn [omitempty from_option id].
  unfold parseRelations. cbn [isNil asMap].
  change (Ok ?m ≫= ?f) with (f m). cbv beta.
  assert (map_mapM (λ name rel, parseRelation name role rel) (expanded limit <$> g) = Ok g)
    as ->; [|done].
  apply map_mapM_Ok. intros k. rewrite lookup_fmap.
  destruct (g !! k) as [r|] eqn:Hr; cbn; [|done].
  exists r. split; [|done].
  destruct (valid_entries (Some g) role k r Hm Hr) as [Hn Hrole].
  by apply parse_expanded.
Qed.

Lemma parse_string_list (l : option (list string)) :
  parseStringList
    (default VNil (omitempty (bool_decide (default [] l = [])) (yaml_strings l)))
  = Ok (nonempty_list l).
Proof.
  destruct l as [[|x l]|]; [done | | done].
  cbn [from_option id omitempty nonempty_list]. rewrite bool_decide_eq_false_2 by done.
  cbn [omitempty from_option id]. unfold yaml_strings. cbn [from_option id].
  apply parse_strings.
Qed.

Lemma coerced_lookup (k : string) :
  at_key (present (coerced R)) k = default VNil (default None (assoc k (coerced R))).
Proof.
  unfold at_key. f_equal. apply present_lookup.
  apply (bool_decide_unpack _). vm_compute. exact I.
Qed.

Lemma parse_subordinate (b : bool) :
  (if isNil (default VNil (omitempty (negb b) (VBool b))) then Ok false
   else asBool (default VNil (omitempty (negb b) (VBool b)))) = Ok b.
Proof. by destruct b. Qed.

Lemma parse_series (s : string) :
  (if isNil (default VNil (omitempty (s =? EmptyString) (VStr s))) then Ok EmptyString
   else asString (default VNil (omitempty (s =? EmptyString) (VStr s)))) = Ok s.
Proof. by destruct (String.eqb_spec s EmptyString) as [->|]. Qed.

Lemma ReadMeta_Encode :
  ReadMeta strict IsValidSeries (Encode R) = Ok (encoded_part R).
Proof.
  unfold ReadMeta. rewrite charmSchema_Encode by done.
  cbn [asMap]. change (Ok ?m ≫= ?f) with (f m). cbv beta.
  rewrite !coerced_lookup. unfold coerced. cbn [assoc String.eqb Ascii.eqb Bool.eqb].
  cbn [from_option id asString mbind outcome_bind].
  rewrite !parse_relations
    by first [by left | by right | mapping].
  cbn [mbind outcome_bind asInt64].
  rewrite !parse_string_list. cbn [mbind outcome_bind].
  rewrite parse_subordinate. cbn [mbind outcome_bind isNil].
  rewrite parse_series. cbn [mbind outcome_bind parseStorage isNil].
  pose proof (Check_encoded_part _ _ valid) as Hcheck.
  unfold encoded_part in Hcheck. by rewrite Hcheck.
Qed.
End DecodeEncoding.

(** ** What a successful decode guarantees *)

Section Decoded.
Context {coercion : StringCoercion}.
Variable strict : bool.
Variable IsValidSeries : string → bool.

Lemma ReadMeta_valid (doc : gmap string Value) (R : Meta) :
  ReadMeta strict IsValidSeries doc = Ok R → Meta_Check IsValidSeries R = None.
Proof.
  unfold ReadMeta. destruct (charmSchema strict (VMap doc) []) as [v| |]; [|done..].
  intros H. repeat (apply bind_Ok in H as (? & _ & H)). cbv zeta in H.
  destruct (Meta_Check _ _) eqn:Hc; [done |]. by injection H as <-.
Qed.

Lemma relation_scopes (limit : Value) (role : RelationRole) (key : string)
    (m : gmap string Value) (defaults : list (string * Default))
    (o : string * option Value) (rels : option (gmap string Relation)) :
  fieldStep m defaults [] (key, schema_StringMap (ifaceExpander strict limit)) = Ok o →
  parseRelations (default VNil o.2) role = Ok rels →
  ∀ k r, index rels k = Some r → Scope r = ScopeGlobal ∨ Scope r = ScopeContainer.
Proof.
  intros [_ Hstep]%fieldStep_value Hparse k r Hr. destruct o.2 as [v|].
  - destruct Hstep as (vin & Hv & _). by eapply parsed_scopes.
  - cbn in Hparse. injection Hparse as <-. done.
Qed.

Lemma ReadMeta_scopes (doc : gmap string Value) (R : Meta) :
  ReadMeta strict IsValidSeries doc = Ok R →
  ∀ src role k r, (src, role) ∈ mappings R → index src k = Some r →
    Scope r = ScopeGlobal ∨ Scope r = ScopeContainer.
Proof.
  unfold ReadMeta.
  destruct (charmSchema strict (VMap doc) []) as [v| |] eqn:Hschema; [|done..].
  unfold charmSchema in Hschema. apply FieldMap_Ok in Hschema as (_ & outs & Hf & ->).
  unfold charmFields in Hf.
  apply Forall2_cons_inv_l in Hf as ([k1 e1] & ? & H1%fieldStep_key & Hf & ->).
  apply Forall2_cons_inv_l in Hf as ([k2 e2] & ? & H2%fieldStep_key & Hf & ->).
  apply Forall2_cons_inv_l in Hf as ([k3 e3] & ? & H3%fieldStep_key & Hf & ->).
  apply Forall2_cons_inv_l in Hf as ([k4 e4] & ? & Hpeers & Hf & ->).
  apply Forall2_cons_inv_l in Hf as ([k5 e5] & ? & Hprovides & Hf & ->).
  apply Forall2_cons_inv_l in Hf as ([k6 e6] & ? & Hrequires & Hf & ->).
  apply Forall2_cons_inv_l in Hf as ([k7 e7] & ? & H7%fieldStep_key & Hf & ->).
  apply Forall2_cons_inv_l in Hf as ([k8 e8] & ? & H8%fieldStep_key & Hf & ->).
  apply Forall2_cons_inv_l in Hf as ([k9 e9] & ? & H9%fieldStep_key & Hf & ->).
  apply Forall2_cons_inv_l in Hf as ([k10 e10] & ? & H10%fieldStep_key & Hf & ->).
  apply Forall2_cons_inv_l in Hf as ([k11 e11] & ? & H11%fieldStep_key & Hf & ->).
  apply Forall2_cons_inv_l in Hf as ([k12 e12] & ? & H12%fieldStep_key & Hf & ->).
  apply Forall2_cons_inv_l in Hf as ([k13 e13] & ? & H13%fieldStep_key & Hf & ->).
  apply Forall2_nil_inv_l in Hf as ->.
  pose proof (fieldStep_key _ _ _ _ _ Hpeers) as H4.
  pose proof (fieldStep_key _ _ _ _ _ Hprovides) as H5.
  pose proof (fieldStep_key _ _ _ _ _ Hrequires) as H6.
  cbn [fst snd] in *. subst.
  cbn [asMap]. change (Ok ?m ≫= ?f) with (f m). cbv beta.
  assert (∀ k, at_key (present
      [("name", e1); ("summary", e2); ("description", e3); ("peers", e4);
       ("provides", e5); ("requires", e6); ("revision", e7); ("format", e8);
       ("subordinate", e9); ("categories", e10); ("tags", e11); ("series", e12);
       ("storage", e13)]) k
    = default VNil (default None (assoc k
      [("name", e1); ("summary", e2); ("description", e3); ("peers", e4);
       ("provides", e5); ("requires", e6); ("revision", e7); ("format", e8);
       ("subordinate", e9); ("categories", e10); ("tags", e11); ("series", e12);
       ("storage", e13)]))) as Hat.
  { intros k. unfold at_key. f_equal. apply present_lookup.
    apply (bool_decide_unpack _). vm_compute. exact I. }
  rewrite !Hat. cbn [assoc String.eqb Ascii.eqb Bool.eqb from_option id].
  intros H.
  apply bind_Ok in H as (name & _ & H).
  apply bind_Ok in H as (summary & _ & H).
  apply bind_Ok in H as (description & _ & H).
  apply bind_Ok in H as (provides & Hprov & H).
  apply bind_Ok in H as (requires & Hreq & H).
  apply bind_Ok in H as (peers & Hpeer & H).
  repeat (apply bind_Ok in H as (? & _ & H)). cbv zeta in H.
  destruct (Meta_Check _ _); [done |]. injection H as <-.
  intros src role k r Hm Hk.
  destruct (in_mappings _ _ _ Hm) as [[-> ->]|[[-> ->]|[-> ->]]];
    cbn [m_Provides m_Requires m_Peers] in Hk.
  - by eapply (relation_scopes _ _ _ _ _ _ _ Hprovides).
  - by eapply (relation_scopes _ _ _ _ _ _ _ Hrequires).
  - by eapply (relation_scopes _ _ _ _ _ _ _ Hpeers).
Qed.
End Decoded.

(** ** Decoding the encoding of a decoded record *)

Lemma encoded_part_id (R : Meta) :
  m_Format R = 1%Z → m_OldRevision R = 0%Z → m_Storage R = None →
  m_Provides R ≠ Some ∅ → m_Requires R ≠ Some ∅ → m_Peers R ≠ Some ∅ →
  m_Categories R ≠ Some [] → m_Tags R ≠ Some [] →
  encoded_part R = R.
Proof.
  destruct R as [n s d sub pv rq pe f rev cats tags ser sto]. cbn.
  intros -> -> -> Hpv Hrq Hpe Hcats Htags. unfold encoded_part. cbn.
  assert (∀ m : option (gmap string Relation), m ≠ Some ∅ → nonempty_map m = m) as Hmap.
  { intros [g|] Hg; [|done]. cbn. rewrite bool_decide_eq_false_2; [done |]. congruence. }
  assert (∀ l : option (list string), l ≠ Some [] → nonempty_list l = l) as Hlist.
  { by intros [[|x l]|] Hl. }
  by rewrite !Hmap, !Hlist.
Qed.

Section RoundTrip.
Context {coercion : StringCoercion} {E Text : Type}.
Variable strict : bool.
Variable IsValidSeries : string → bool.
(** The YAML library: [Marshal] writes the tree of a document as a text
    and [Unmarshal] reads a text, into a tree or with an error. *)
Variable Marshal : gmap string Value → Text.
Variable Unmarshal : Text → E + gmap string Value.

(** C1, as the code has it.  For every record [R] produced by a successful
    decode, if the YAML library reads back the document that it writes for
    [R], then decoding the encoding of [R] succeeds and yields what the
    encoder keeps of [R]: the record with its format reset to 1, its
    obsolete revision reset to 0, its storage dropped, and every relation
    map or list of categories or tags that is empty without being nil
    turned into nil.  So the result is [R] itself when [R] has format 1,
    revision 0, no storage and no such empty map or list.  Nothing is said
    of a record whose document the library does not read back. *)
Theorem decode_encode (doc : gmap string Value) (R : Meta) :
  ReadMeta strict IsValidSeries doc = Ok R →
  Unmarshal (Marshal (Encode R)) = inr (Encode R) →
  ReadMeta_reader strict IsValidSeries Unmarshal (inr (Marshal (Encode R)))
  = inr (Ok (encoded_part R))
  ∧ (m_Format R = 1%Z → m_OldRevision R = 0%Z → m_Storage R = None →
     m_Provides R ≠ Some ∅ → m_Requires R ≠ Some ∅ → m_Peers R ≠ Some ∅ →
     m_Categories R ≠ Some [] → m_Tags R ≠ Some [] →
     ReadMeta_reader strict IsValidSeries Unmarshal (inr (Marshal (Encode R)))
     = inr (Ok R)).
Proof.
  intros Hdoc Hyaml.
  assert (ReadMeta strict IsValidSeries (Encode R) = Ok (encoded_part R)) as Hgen.
  { apply ReadMeta_Encode.
    - by apply (ReadMeta_scopes strict IsValidSeries doc).
    - by apply (ReadMeta_valid strict IsValidSeries doc). }
  unfold ReadMeta_reader. rewrite Hyaml, Hgen.
  split; [done |]. intros. by rewrite encoded_part_id.
Qed.
End RoundTrip.

Section RoundTripSamples.
#[local] Existing Instance decimal.

(** An instance, with a YAML library that reads back the tree that it was
    given to write. *)
Lemma decode_encode_witness :
  let doc :=
    document
      [ ("subordinate", VBool true);
        ("provides", VMap {[ "server" := VStr "mysql" ]});
        ("requires",
         VMap {[ "host" :=
           VMap (<["interface" := VStr "juju-info"]> {[ "scope" := VStr "container" ]}) ]});
        ("tags", VList [VStr "cms"]) ] in
  let R :=
    {| m_Name := "wordpress"; m_Summary := "blog"; m_Description := "a blog engine";
       m_Subordinate := true;
       m_Provides := Some {[ "server" := relation "server" RoleProvider "mysql" ScopeGlobal ]};
       m_Requires :=
         Some {[ "host" := relation "host" RoleRequirer "juju-info" ScopeContainer ]};
       m_Peers := None; m_Format := 1; m_OldRevision := 0; m_Categories := None;
       m_Tags := Some ["cms"]; m_Series := EmptyString; m_Storage := None |} in
  ReadMeta true anySeries doc = Ok R
  ∧ ReadMeta_reader (E := string) true anySeries inr (inr (Encode R)) = inr (Ok R).
Proof.
  intros doc R.
  assert (ReadMeta true anySeries doc = Ok R) as Hdoc by (vm_compute; reflexivity).
  split; [exact Hdoc |].
  apply (proj2 (decode_encode (E := string) true anySeries (λ t, t) inr doc R Hdoc eq_refl));
    first [reflexivity | discriminate].
Defined.

(** C1, as stated, fails: the record decoded from a document with a
    storage entry, or with a format other than 1, is not the record that
    comes back from its encoding, which has no storage and format 1.  The
    encoding is read here as the tree that was written. *)
Lemma encoder_drops_storage_and_format :
  (let R := charm false None None None (Some {[ "data" := store StorageBlock EmptyString None ]}) in
   ReadMeta true anySeries (storage_document None None) = Ok R
   ∧ ReadMeta true anySeries (Encode R) = Ok (charm false None None None None)
   ∧ ReadMeta true anySeries (Encode R) ≠ Ok R)
  ∧ (∃ R, ReadMeta true anySeries (document [("format", VInt 2)]) = Ok R
          ∧ m_Format R = 2%Z
          ∧ ReadMeta true anySeries (Encode R) = Ok (charm false None None None None)
          ∧ ReadMeta true anySeries (Encode R) ≠ Ok R).
Proof.
  split.
  - cbv zeta. split; [vm_compute; reflexivity |].
    assert (ReadMeta true anySeries
              (Encode (charm false None None None
                         (Some {[ "data" := store StorageBlock EmptyString None ]})))
            = Ok (charm false None None None None)) as H by (vm_compute; reflexivity).
    split; [exact H |]. rewrite H. intros Hs. discriminate Hs.
  - exists {| m_Name := "wordpress"; m_Summary := "blog"; m_Description := "a blog engine";
              m_Subordinate := false; m_Provides := None; m_Requires := None;
              m_Peers := None; m_Format := 2; m_OldRevision := 0; m_Categories := None;
              m_Tags := None; m_Series := EmptyString; m_Storage := None |}.
    split; [vm_compute; reflexivity |]. split; [reflexivity |].
    match goal with
    | |- ?x = ?y ∧ _ => assert (x = y) as H by (vm_compute; reflexivity)
    end.
    split; [exact H |]. rewrite H. intros Hf. discriminate Hf.
Qed.

(** An empty list of categories is read as an empty, allocated list and is
    not written back. *)
Example empty_categories_not_kept :
  m_Categories <$> ReadMeta true anySeries (document [("categories", VList [])])
  = Ok (Some [])
  ∧ Encode (charm false None None None None) !! "categories" = None.
Proof. split; vm_compute; reflexivity. Qed.

(** The document of the counterexample for storage entries: the decoder
    builds the entry with the empty, allocated list and rejects it. *)
Example empty_filesystem_list_from_document :
  ReadMeta true anySeries
    (document
       [ ("storage",
          VMap {[ "data" :=
            VMap (<["type" := VStr "block"]> {[ "filesystem" := VList [] ]}) ]}) ])
  = Err (Invalid (FilesystemNotAllowed "wordpress" "data" "block")).
Proof. vm_compute. reflexivity. Qed.
End RoundTripSamples.

(** * Further properties *)

(** ** Relations implemented by a charm *)


(** X2. For a relation that is not implicit, [ImplementedBy] panics when
    the role is none of provider, requirer and peer; when the charm is nil
    or has no metadata; and when the charm has a relation of that name and
    interface but the asking relation's scope is neither global nor
    container. *)
Theorem implemented_by_panics (r : Relation) (ch : Charm) :
  Relation_IsImplicit r = false →
  (Role r ≠ RoleProvider → Role r ≠ RoleRequirer → Role r ≠ RolePeer →
   Relation_ImplementedBy r ch = Panic)
  ∧ ((∀ meta, Charm_Meta ch ≠ Ok meta) → Relation_ImplementedBy r ch = Panic)
  ∧ (∀ meta src rel,
       Charm_Meta ch = Ok meta → (src, Role r) ∈ mappings meta →
       index src (Name r) = Some rel → Interface rel = Interface r →
       Scope r ≠ ScopeGlobal → Scope r ≠ ScopeContainer →
       Relation_ImplementedBy r ch = Panic).
Proof.
  intros Himp. unfold Relation_ImplementedBy. rewrite Himp. repeat split.
  - intros H1%eqb_false H2%eqb_false H3%eqb_false. by rewrite H1, H2, H3.
  - intros Hnil. destruct (Charm_Meta ch) as [meta| |] eqn:Hch.
    + by destruct (Hnil meta).
    + unfold Charm_Meta in Hch. by repeat case_match.
    + by repeat (case_match; cbn; try done).
  - intros meta src rel Hch Hm Hk Hi Hg%eqb_false Hc%eqb_false. rewrite Hch.
    assert ((if Role r =? RoleProvider then m_Provides <$> Ok meta
             else if Role r =? RoleRequirer then m_Requires <$> Ok meta
             else if Role r =? RolePeer then m_Peers <$> Ok meta
             else Panic) = Ok src) as ->.
    { destruct (in_mappings _ _ _ Hm) as [[-> ->]|[[-> ->]|[-> ->]]]; reflexivity. }
    cbn [mbind outcome_bind]. rewrite Hk.
    apply eqb_true in Hi. by rewrite Hi, Hg, Hc.
Qed.


Lemma implemented_by_panics_witness :
  Relation_ImplementedBy (relation "server" "consumer" "mysql" ScopeGlobal) sample_charm
  = Panic.
Proof.
  apply (proj1 (implemented_by_panics
                  (relation "server" "consumer" "mysql" ScopeGlobal) sample_charm
                  eq_refl)); discriminate.
Defined.

(** ** The keys of the hook table *)

Lemma insert_true_origin {A : Type} (key : A → string) (l : list A)
    (all : gmap string bool) (k : string) :
  is_Some (foldl (λ all x, <[key x := true]> all) all l !! k) →
  (∃ x, x ∈ l ∧ key x = k) ∨ is_Some (all !! k).
Proof.
  revert all. induction l as [|x l IH]; intros all; cbn [foldl]; [by right |].
  intros [(y & Hy & Hk) | H]%IH.
  - left. exists y. split; [apply elem_of_cons; by right | done].
  - rewrite lookup_insert in H. case_decide as Hx; [|by right].
    left. exists x. split; [apply elem_of_cons; by left | done].
Qed.

Section HookKeys.
Variables UnitHooks RelationHooks : list string.

Lemma relation_hooks_origin (l : list (string * Relation)) (all : gmap string bool)
    (k : string) :
  is_Some (foldl (λ all kv, generateRelationHooks RelationHooks kv.1 all) all l !! k) →
  (∃ N H, N ∈ l.*1 ∧ H ∈ RelationHooks ∧ k = N +:+ "-" +:+ H) ∨ is_Some (all !! k).
Proof.
  revert all. induction l as [|[n r] l IH]; intros all; cbn [foldl]; [by right |].
  intros [(N & H & HN & HH & ->) | H]%IH.
  - left. exists N, H. split; [rewrite fmap_cons; apply elem_of_cons; by right | done].
  - unfold generateRelationHooks in H. cbn [fst] in H.
    apply (insert_true_origin (λ hookName, n +:+ "-" +:+ hookName)) in H
      as [(H' & HH & <-) | H]; [|by right].
    left. exists n, H'. split; [rewrite fmap_cons; apply elem_of_cons; by left | done].
Qed.

(** X3. The table of [Hooks] holds nothing else: each of its keys is a
    unit hook, or a relation hook prefixed with the name of a relation of
    one of the three mappings and a dash. *)
Theorem hooks_table_keys (m : Meta) (k : string) :
  is_Some (Meta_Hooks UnitHooks RelationHooks m !! k) →
  k ∈ UnitHooks
  ∨ ∃ src role N H,
      (src, role) ∈ mappings m ∧ is_Some (index src N) ∧ H ∈ RelationHooks
      ∧ k = N +:+ "-" +:+ H.
Proof.
  unfold Meta_Hooks. intros H.
  apply relation_hooks_origin in H as [(N & H' & HN%key_of_range & HH & ->) | H].
  { right. exists (m_Peers m), RolePeer, N, H'. split; [mapping | done]. }
  apply relation_hooks_origin in H as [(N & H' & HN%key_of_range & HH & ->) | H].
  { right. exists (m_Requires m), RoleRequirer, N, H'. split; [mapping | done]. }
  apply relation_hooks_origin in H as [(N & H' & HN%key_of_range & HH & ->) | H].
  { right. exists (m_Provides m), RoleProvider, N, H'. split; [mapping | done]. }
  apply (insert_true_origin (λ h : string, h)) in H as [(h & Hh & <-) | H]; [by left |].
  rewrite lookup_empty in H. by destruct H.
Qed.
End HookKeys.

Lemma hooks_table_keys_witness :
  is_Some (Meta_Hooks ["install"] ["relation-joined"]
             (charm false (Some {[ "web" := relation "web" RoleProvider "http" ScopeGlobal ]})
                None None None) !! "install")
  ∧ ("install" ∈ ["install"]
     ∨ ∃ src role N H,
         (src, role) ∈ mappings
           (charm false (Some {[ "web" := relation "web" RoleProvider "http" ScopeGlobal ]})
              None None None)
         ∧ is_Some (index src N) ∧ H ∈ ["relation-joined"]
         ∧ "install" = N +:+ "-" +:+ H).
Proof.
  assert (is_Some (Meta_Hooks ["install"] ["relation-joined"]
             (charm false (Some {[ "web" := relation "web" RoleProvider "http" ScopeGlobal ]})
                None None None) !! "install")) as H by (eexists; vm_compute; reflexivity).
  split; [exact H |].
  exact (hooks_table_keys ["install"] ["relation-joined"] _ "install" H).
Defined.

(** ** The validator, completely *)

Lemma checkRelation_accepted (meta : Meta) (role : RelationRole) (k : string) (r : Relation) :
  ¬ rejected (checkRelation meta role ∅ k r) ↔
  Name r = k ∧ Role r = role
  ∧ (reservedName k = true →
     m_Subordinate meta = true ∧ role = RoleRequirer ∧ Scope r = ScopeContainer)
  ∧ (role ≠ RoleRequirer → reservedName (Interface r) = false).
Proof.
  unfold checkRelation, rejected. rewrite flag_empty.
  destruct (Name r =? k) eqn:E1; strings; cbn [negb];
    [|split; [intros []; by eexists | by intros (? & _)]].
  destruct (Role r =? role) eqn:E2; strings; cbn [negb];
    [|split; [intros []; by eexists | by intros (_ & ? & _)]].
  destruct (reservedName k) eqn:E3; rewrite ?andb_true_r, ?andb_false_r.
  - destruct (m_Subordinate meta) eqn:E4; cbn [negb orb];
      [|split; [intros []; by eexists | by intros (_ & _ & [? _]%(λ H, H eq_refl) & _)]].
    destruct (role =? RoleRequirer) eqn:E5; strings; cbn [negb orb andb];
      [|split; [intros []; by eexists | by intros (_ & _ & (_ & ? & _)%(λ H, H eq_refl) & _)]].
    destruct (Scope r =? ScopeContainer) eqn:E6; strings; cbn [negb];
      [|split; [intros []; by eexists | by intros (_ & _ & (_ & _ & ?)%(λ H, H eq_refl) & _)]].
    split; [|by intros _ [e ?]].
    intros _. repeat split; try done.
  - destruct (role =? RoleRequirer) eqn:E5; strings; cbn [negb andb].
    + split; [|by intros _ [e ?]]. intros _. repeat split; done.
    + destruct (reservedName (Interface r)) eqn:E7.
      * split; [intros []; by eexists |]. intros (_ & _ & _ & H). by specialize (H E5).
      * split; [|by intros _ [e ?]]. intros _. repeat split; done.
Qed.

Lemma checkSeries_None (IsValidSeries : string → bool) (meta : Meta) :
  checkSeries IsValidSeries meta = None ↔
  m_Series meta = EmptyString ∨ IsValidSeries (m_Series meta) = true.
Proof.
  unfold checkSeries. destruct (m_Series meta =? EmptyString) eqn:E1; strings; cbn [negb andb].
  - split; auto.
  - destruct (IsValidSeries (m_Series meta)); cbn [negb].
    + split; auto.
    + split; [done | by intros [?|?]].
Qed.

Lemma checkSubordinate_None (meta : Meta) :
  checkSubordinate meta = None ↔
  (m_Subordinate meta = true →
   ∃ k r, index (m_Requires meta) k = Some r ∧ Scope r = ScopeContainer).
Proof.
  rewrite <- hasContainerScope_true. unfold checkSubordinate.
  destruct (m_Subordinate meta), (hasContainerScope meta); cbn [negb andb].
  - split; auto.
  - split; [done | intros H; by specialize (H eq_refl)].
  - split; [by intros _ ? | done].
  - split; [by intros _ ? | done].
Qed.

(** X4. [Check] returns nil exactly when: every relation is named by its
    key and has the role of its mapping, has a reserved name only as a
    container scoped requirement of a subordinate charm, and has a reserved
    interface only as a requirement; no name is used in two mappings; a
    subordinate charm has a container scoped requirement; the series is
    empty or valid; and no storage entry breaks one of the storage
    rules. *)
Theorem validator_accepts_exactly (IsValidSeries : string → bool) (meta : Meta) :
  Meta_Check IsValidSeries meta = None ↔
  (∀ src role k r, (src, role) ∈ mappings meta → index src k = Some r →
     Name r = k ∧ Role r = role
     ∧ (reservedName k = true →
        m_Subordinate meta = true ∧ role = RoleRequirer ∧ Scope r = ScopeContainer)
     ∧ (role ≠ RoleRequirer → reservedName (Interface r) = false))
  ∧ (∀ k, ¬ (is_Some (index (m_Provides meta) k) ∧ is_Some (index (m_Requires meta) k))
        ∧ ¬ (is_Some (index (m_Provides meta) k) ∧ is_Some (index (m_Peers meta) k))
        ∧ ¬ (is_Some (index (m_Requires meta) k) ∧ is_Some (index (m_Peers meta) k)))
  ∧ (m_Subordinate meta = true →
     ∃ k r, index (m_Requires meta) k = Some r ∧ Scope r = ScopeContainer)
  ∧ (m_Series meta = EmptyString ∨ IsValidSeries (m_Series meta) = true)
  ∧ (∀ k st, index (m_Storage meta) k = Some st → ¬ storage_violation st).
Proof.
  rewrite Check_passes, checkSubordinate_None, checkSeries_None, checkStorage_None.
  assert (checkAllRelations meta = None ↔
    (∀ src role k r, (src, role) ∈ mappings meta → index src k = Some r →
       ¬ rejected (checkRelation meta role ∅ k r))
    ∧ (∀ k, ¬ (is_Some (index (m_Provides meta) k) ∧ is_Some (index (m_Requires meta) k))
          ∧ ¬ (is_Some (index (m_Provides meta) k) ∧ is_Some (index (m_Peers meta) k))
          ∧ ¬ (is_Some (index (m_Requires meta) k) ∧ is_Some (index (m_Peers meta) k))))
    as Hrel.
  { split.
    - intros Hnone. split.
      + intros src role k r Hm Hk Hrej.
        destruct (checkAll_rejects_entry meta src role k r Hm Hk Hrej). congruence.
      + intros k. repeat split; intros Hs;
          (destruct (checkAll_rejects_shared meta k) as [e He]; [tauto | congruence]).
    - intros [Hok Hfresh]. by apply checkAll_accepts. }
  rewrite Hrel. split.
  - intros ((Hok & Hfresh) & Hsub & Hser & Hst).
    split; [|split; [done |split; [done |split; [done |]]]].
    + intros src role k r Hm Hk. by apply checkRelation_accepted, (Hok src role).
    + intros k st Hk Hv. apply (Hst k st Hk). by apply checkStore_rejected.
  - intros (Hok & Hfresh & Hsub & Hser & Hst).
    split; [split; [|done] |split; [done |split; [done |]]].
    + intros src role k r Hm Hk. by apply checkRelation_accepted, (Hok src role).
    + intros k st Hk Hr%checkStore_rejected. by apply (Hst k st).
Qed.

(** ** Duplicated names *)

Section Duplicates.
Variable meta : Meta.

Lemma checkStore_cases (names : gmap string bool) (k : string) (st : Storage) (e : CheckError) :
  checkStore meta names k st = inl e →
  checkStore meta ∅ k st = inl e
  ∨ (e = DuplicatedStorageName (m_Name meta) k ∧ flag names k = true).
Proof.
  unfold checkStore. rewrite flag_empty.
  repeat (case_match; [by left |]).
  destruct (flag names k); [|done]. intros [= <-]. by right.
Qed.

Lemma storage_error_of_body (l : list (string * Storage)) (names : gmap string bool)
    (e : CheckError) :
  NoDup l.*1 → (∀ k, k ∈ l.*1 → flag names k = false) →
  checkStorageLoop meta l names = Some e →
  ∃ k st, (k, st) ∈ l ∧ checkStore meta ∅ k st = inl e.
Proof.
  revert names. induction l as [|[k' st'] l IH]; intros names Hnd Hfresh Hl; [done |].
  rewrite fmap_cons in Hnd, Hfresh. cbn [fst] in Hnd, Hfresh.
  apply NoDup_cons in Hnd as [Hk' Hnd]. cbn [checkStorageLoop] in Hl.
  destruct (checkStore meta names k' st') as [e'|names'] eqn:Hc.
  - injection Hl as ->. apply checkStore_cases in Hc as [Hc | [_ Hflag]].
    + exists k', st'. split; [apply elem_of_cons; by left | done].
    + rewrite Hfresh in Hflag; [done | apply elem_of_cons; by left].
  - apply checkStore_inr in Hc as [_ ->].
    destruct (IH (<[k' := true]> names)) as (k & st & Hin & Hk); [done | | done |].
    + intros k Hk. rewrite flag_insert, (Hfresh k) by (apply elem_of_cons; by right).
      rewrite bool_decide_eq_false_2; [done |]. by intros ->.
    + exists k, st. split; [apply elem_of_cons; by right | done].
Qed.

Lemma checkRelation_cases (role : RelationRole) (names : gmap string bool) (k : string)
    (r : Relation) (e : CheckError) :
  checkRelation meta role names k r = inl e →
  checkRelation meta role ∅ k r = inl e
  ∨ (e = DuplicatedRelationName (m_Name meta) k ∧ flag names k = true).
Proof.
  unfold checkRelation. rewrite flag_empty.
  repeat (case_match; [by left |]).
  destruct (flag names k); [|done]. intros [= <-]. by right.
Qed.

Lemma loop_error_of_body (role : RelationRole) (l : list (string * Relation))
    (names : gmap string bool) (e : CheckError) :
  NoDup l.*1 →
  checkRelationsLoop meta role l names = inl e →
  ∃ k r, (k, r) ∈ l
         ∧ (checkRelation meta role ∅ k r = inl e
            ∨ (e = DuplicatedRelationName (m_Name meta) k ∧ flag names k = true)).
Proof.
  revert names. induction l as [|[k' r'] l IH]; intros names Hnd Hl; [done |].
  rewrite fmap_cons in Hnd. cbn [fst] in Hnd.
  apply NoDup_cons in Hnd as [Hk' Hnd]. cbn [checkRelationsLoop] in Hl.
  destruct (checkRelation meta role names k' r') as [e'|names'] eqn:Hc.
  - injection Hl as ->. exists k', r'. split; [apply elem_of_cons; by left |].
    by apply checkRelation_cases.
  - apply checkRelation_inr in Hc as [_ ->].
    destruct (IH _ Hnd Hl) as (k & r & Hin & Hk).
    exists k, r. split; [apply elem_of_cons; by right |].
    destruct Hk as [Hk | [-> Hflag]]; [by left | right]. split; [done |].
    rewrite flag_insert in Hflag. apply orb_true_iff in Hflag as [Heq%bool_decide_eq_true | ?];
      [|done].
    subst k'. destruct Hk'. apply list_elem_of_fmap. by exists (k, r).
Qed.

Lemma body_never_duplicate (role : RelationRole) (k : string) (r : Relation) (c n : string) :
  checkRelation meta role ∅ k r ≠ inl (DuplicatedRelationName c n).
Proof.
  unfold checkRelation. rewrite flag_empty. by repeat (case_match; [done |]).
Qed.
End Duplicates.

Section DuplicateErrors.
Variable IsValidSeries : string → bool.

(** X5. [Check] never reports a duplicated storage name: the loop runs
    over the keys of one map, which are distinct. *)
Theorem duplicated_storage_name_unreachable (meta : Meta) (c n : string) :
  Meta_Check IsValidSeries meta ≠ Some (DuplicatedStorageName c n).
Proof.
  intros H. destruct (Check_error_phase _ _ _ H) as [Hr|[Hs|[Hs|Hs]]].
  - apply checkAll_error_origin in Hr as (src & role & k & r & n0 & _ & _ & Hk).
    revert Hk. unfold checkRelation. by repeat (case_match; [done |]).
  - unfold checkSubordinate in Hs. by case_match.
  - unfold checkSeries in Hs. by case_match.
  - unfold checkStorage in Hs. apply storage_error_of_body in Hs as (k & st & _ & Hk).
    + revert Hk. unfold checkStore. rewrite flag_empty. by repeat (case_match; [done |]).
    + apply NoDup_range.
    + intros k _. apply flag_empty.
Qed.

(** X6. When [Check] reports a duplicated relation name, it is for this
    charm, and the name is a key of two of the three relation mappings. *)
Theorem duplicated_relation_name_is_shared (meta : Meta) (c n : string) :
  Meta_Check IsValidSeries meta = Some (DuplicatedRelationName c n) →
  c = m_Name meta
  ∧ ((is_Some (index (m_Provides meta) n) ∧ is_Some (index (m_Requires meta) n))
     ∨ (is_Some (index (m_Provides meta) n) ∧ is_Some (index (m_Peers meta) n))
     ∨ (is_Some (index (m_Requires meta) n) ∧ is_Some (index (m_Peers meta) n))).
Proof.
  intros H. destruct (Check_error_phase _ _ _ H) as [Hr|[Hs|[Hs|Hs]]].
  - clear H. unfold checkAllRelations, checkRelations in Hr.
    destruct (checkRelationsLoop meta RoleProvider _ ∅) as [e1|n1] eqn:H1.
    { injection Hr as ->.
      apply loop_error_of_body in H1 as (k & r & _ & [Hk | [_ Hflag]]);
        [| | apply NoDup_range].
      - by apply body_never_duplicate in Hk.
      - by rewrite flag_empty in Hflag. }
    pose proof (loop_flags _ _ _ _ _ H1) as F1.
    destruct (checkRelationsLoop meta RoleRequirer _ n1) as [e2|n2] eqn:H2.
    { injection Hr as ->.
      apply loop_error_of_body in H2 as (k & r & Hin & [Hk | [[= -> ->] Hflag]]);
        [| | apply NoDup_range].
      - by apply body_never_duplicate in Hk.
      - split; [done |]. left. rewrite F1, flag_empty in Hflag. cbn [orb] in Hflag.
        apply bool_decide_eq_true, key_of_range in Hflag. split; [done |].
        apply key_of_range, list_elem_of_fmap. by exists (k, r). }
    pose proof (loop_flags _ _ _ _ _ H2) as F2.
    destruct (checkRelationsLoop meta RolePeer _ n2) as [e3|n3] eqn:H3; [|done].
    injection Hr as ->.
    apply loop_error_of_body in H3 as (k & r & Hin & [Hk | [[= -> ->] Hflag]]);
      [| | apply NoDup_range].
    + by apply body_never_duplicate in Hk.
    + split; [done |].
      assert (is_Some (index (m_Peers meta) k)) as Hp.
      { apply key_of_range, list_elem_of_fmap. by exists (k, r). }
      rewrite F2, F1, flag_empty in Hflag. cbn [orb] in Hflag.
      apply orb_true_iff in Hflag as [Hf | Hf];
        apply bool_decide_eq_true, key_of_range in Hf; auto.
  - unfold checkSubordinate in Hs. by case_match.
  - unfold checkSeries in Hs. by case_match.
  - apply storage_error_origin in Hs as (k & st & n0 & _ & Hk).
    revert Hk. unfold checkStore. by repeat (case_match; [done |]).
Qed.
End DuplicateErrors.

Lemma duplicated_storage_name_unreachable_witness :
  Meta_Check anySeries sample_record ≠ Some (DuplicatedStorageName "wordpress" "data").
Proof. apply (duplicated_storage_name_unreachable anySeries sample_record). Defined.

Lemma duplicated_relation_name_is_shared_witness :
  let r := relation "db" RoleProvider "mysql" ScopeGlobal in
  let q := relation "db" RoleRequirer "mysql" ScopeGlobal in
  let meta := charm false (Some {[ "db" := r ]}) (Some {[ "db" := q ]}) None None in
  "wordpress" = m_Name meta
  ∧ ((is_Some (index (m_Provides meta) "db") ∧ is_Some (index (m_Requires meta) "db"))
     ∨ (is_Some (index (m_Provides meta) "db") ∧ is_Some (index (m_Peers meta) "db"))
     ∨ (is_Some (index (m_Requires meta) "db") ∧ is_Some (index (m_Peers meta) "db"))).
Proof.
  intros r q meta.
  apply (duplicated_relation_name_is_shared anySeries meta "wordpress" "db").
  vm_compute. reflexivity.
Defined.

(** ** The count pattern and the count coercer *)

Lemma append_cons (c : ascii) (s t : string) : String c s +:+ t = String c (s +:+ t).
Proof. reflexivity. Qed.

Lemma append_empty_r (s : string) : s +:+ EmptyString = s.
Proof. induction s as [|c s IH]; [done |]. by rewrite append_cons, IH. Qed.

Lemma spanDigits_split (s : string) :
  s = (spanDigits s).1 +:+ (spanDigits s).2
  ∧ Forall (λ c, isDigit c = true) (String.list_ascii_of_string (spanDigits s).1)
  ∧ ((spanDigits s).2 = EmptyString
     ∨ ∃ c r, (spanDigits s).2 = String c r ∧ isDigit c = false).
Proof.
  induction s as [|c s (IH1 & IH2 & IH3)]; cbn [spanDigits].
  - repeat split; [constructor | by left].
  - destruct (isDigit c) eqn:Hc; cbn [fst snd].
    + rewrite append_cons, <- IH1. repeat split; [by constructor | done].
    + repeat split; [constructor |]. right. by exists c, s.
Qed.

Lemma spanDigits_exact (d rest : string) :
  Forall (λ c, isDigit c = true) (String.list_ascii_of_string d) →
  rest = EmptyString ∨ (∃ c r, rest = String c r ∧ isDigit c = false) →
  spanDigits (d +:+ rest) = (d, rest).
Proof.
  intros Hd Hrest. induction d as [|c d IH].
  - change (EmptyString +:+ rest) with rest.
    destruct Hrest as [-> | (c & r & -> & Hc)]; [done |]. cbn [spanDigits]. by rewrite Hc.
  - cbn [String.list_ascii_of_string] in Hd. apply Forall_cons in Hd as [Hc Hd].
    rewrite append_cons. cbn [spanDigits]. rewrite Hc, (IH Hd). done.
Qed.

Lemma FindStringSubmatch_spec (s a b : string) :
  storageCountRE_FindStringSubmatch s = Some (a, b) ↔
  s = a +:+ "-" +:+ b
  ∧ a ≠ EmptyString
  ∧ Forall (λ c, isDigit c = true) (String.list_ascii_of_string a)
  ∧ Forall (λ c, isDigit c = true) (String.list_ascii_of_string b).
Proof.
  unfold storageCountRE_FindStringSubmatch. split.
  - destruct (spanDigits_split s) as (Hs & Hd & _).
    destruct (spanDigits s) as [m rest]. cbn [fst snd] in *.
    destruct m as [|c m]; [done |].
    destruct rest as [|c' rest]; [done |].
    destruct (Ascii.eqb_spec c' "-"%char) as [-> | Hne].
    2: { destruct c' as [[] [] [] [] [] [] [] []]; try done. }
    destruct (spanDigits_split rest) as (Hr & Hdr & _).
    destruct (spanDigits rest) as [n tail]. cbn [fst snd] in *.
    destruct tail; [|done]. intros [= <- <-].
    rewrite append_empty_r in Hr. subst rest. done.
  - intros (-> & Ha & Hda & Hdb).
    rewrite (spanDigits_exact a ("-" +:+ b)); [|done |right; by exists "-"%char, b].
    destruct a as [|c a]; [done |]. change ("-" +:+ b) with (String "-" b).
    pose proof (spanDigits_exact b EmptyString Hdb (or_introl eq_refl)) as Hb.
    rewrite append_empty_r in Hb. cbv beta iota. by rewrite Hb.
Qed.

(** X7. [storageCountRE] matches exactly the strings made of one or more
    digits, a dash and zero or more digits, and its two groups are the
    digits before and after the dash. *)
Theorem count_pattern_matches (s a b : string) :
  storageCountRE_FindStringSubmatch s = Some (a, b) ↔
  s = a +:+ "-" +:+ b
  ∧ a ≠ EmptyString
  ∧ Forall (λ c, isDigit c = true) (String.list_ascii_of_string a)
  ∧ Forall (λ c, isDigit c = true) (String.list_ascii_of_string b).
Proof. apply FindStringSubmatch_spec. Qed.

Lemma digitsValue_bounds (s : string) (acc n : Z) :
  (0 ≤ acc)%Z → digitsValue acc s = Some n → (0 ≤ n)%Z.
Proof.
  revert acc. induction s as [|c s IH]; intros acc Hacc; cbn [digitsValue].
  - by intros [= <-].
  - destruct (isDigit c) eqn:Hc; [|done]. apply IH.
    unfold isDigit in Hc. apply andb_true_iff in Hc as [H1%Nat.leb_le H2]. lia.
Qed.

Lemma Atoi_digits (c : ascii) (s : string) (n : Z) :
  isDigit c = true → Atoi (String c s) = Ok n → (0 ≤ n ≤ 2 ^ 63 - 1)%Z.
Proof.
  intros Hc. unfold Atoi.
  assert (c ≠ "-"%char ∧ c ≠ "+"%char) as [Hm Hp] by (split; intros ->; done).
  destruct c as [[] [] [] [] [] [] [] []]; try done.
  all: destruct (digitsValue 0 _) as [v|] eqn:Hv; [|done].
  all: apply digitsValue_bounds in Hv; [|done].
  all: destruct (_ && _) eqn:Hb; [|done].
  all: intros [= <-]; apply andb_true_iff in Hb as [_ Hb%Z.leb_le]; lia.
Qed.

(** X8. What [storageCountC.Coerce] returns without an error is a pair:
    (-1, m) for an integer m > 0, written as such or as a string that
    [schema.Int()] reads as m; and, for a string that [schema.Int()] does
    not read as an integer, (m, n) with 0 <= m < 2^63 and n either -1 or
    in the same range.  Nothing else is accepted. *)
Theorem count_coercer_results {coercion : StringCoercion} (v v' : Value)
    (path : list string) :
  storageCountC_Coerce v path = Ok v' →
  (∃ m, reads_int v m ∧ (0 < m)%Z ∧ v' = VCount (-1) m)
  ∨ (∃ s m n, v = VStr s ∧ intOfString s = None ∧ v' = VCount m n
              ∧ (0 ≤ m ≤ 2 ^ 63 - 1)%Z
              ∧ (n = (-1)%Z ∨ (0 ≤ n ≤ 2 ^ 63 - 1)%Z)).
Proof.
  unfold storageCountC_Coerce.
  destruct v as [|b|m|s|l|mp|lo hi]; try done.
  - cbn. destruct (Z.leb_spec m 0); [by destruct (joinTail path) |].
    intros [= <-]. left. exists m. split; [by left | done].
  - cbn [schema_OneOf schema_Int]. destruct (intOfString s) as [m|] eqn:Hi.
    { destruct (Z.leb_spec m 0); [by destruct (joinTail path) |].
      intros [= <-]. left. exists m. split; [right; by exists s | done]. }
    cbn [stringC schema_String].
    destruct (storageCountRE_FindStringSubmatch s) as [[m1 m2]|] eqn:Hre;
      [|by destruct (joinTail path)].
    apply FindStringSubmatch_spec in Hre as (_ & Hne & Hd1 & Hd2).
    destruct m1 as [|c1 m1]; [done |].
    cbn [String.list_ascii_of_string] in Hd1. apply Forall_cons in Hd1 as [Hc1 _].
    destruct (Atoi (String c1 m1)) as [m| |] eqn:Hm; cbn; [|done..].
    apply Atoi_digits in Hm; [|done].
    destruct m2 as [|c2 m2].
    + intros [= <-]. right. exists s, m, (-1)%Z. split_and!; auto; lia.
    + cbn [String.list_ascii_of_string] in Hd2. apply Forall_cons in Hd2 as [Hc2 _].
      change (String.length (String c2 m2) =? 0)%nat with false. cbv iota.
      destruct (Atoi (String c2 m2)) as [n| |] eqn:Hn; cbn; [|done..].
      apply Atoi_digits in Hn; [|done].
      intros [= <-]. right. exists s, m, n. split_and!; auto; lia.
Qed.

Lemma count_coercer_results_witness :
  (∃ m, reads_int (coercion := decimal) (VStr "5") m ∧ (0 < m)%Z
        ∧ VCount (-1) 5 = VCount (-1) m)
  ∨ (∃ s m n, VStr "5" = VStr s ∧ intOfString (StringCoercion := decimal) s = None
              ∧ VCount (-1) 5 = VCount m n
              ∧ (0 ≤ m ≤ 2 ^ 63 - 1)%Z
              ∧ (n = (-1)%Z ∨ (0 ≤ n ≤ 2 ^ 63 - 1)%Z)).
Proof.
  apply (count_coercer_results (coercion := decimal) (VStr "5") (VCount (-1) 5) ["storage"]).
  vm_compute. reflexivity.
Defined.

(** ** The schema never panics *)

Lemma mapM_Panic {A B : Type} (f : A → outcome B) (l : list A) :
  mapM f l = Panic → ∃ x, x ∈ l ∧ f x = Panic.
Proof.
  induction l as [|x l IH]; cbn [mapM]; [done |].
  destruct (f x) as [y| |] eqn:Hx; cbn; [|done |].
  - destruct (mapM f l) as [ys| |]; cbn; [done.. |].
    intros _. destruct IH as (x' & Hin & Hx'); [done |].
    exists x'. split; [apply elem_of_cons; by right | done].
  - intros _. exists x. split; [apply elem_of_cons; by left | done].
Qed.

Lemma map_mapM_Panic {A B : Type} (f : string → A → outcome B) (m : gmap string A) :
  map_mapM f m = Panic → ∃ k a, f k a = Panic.
Proof.
  unfold map_mapM. destruct (mapM _ _) as [l| |] eqn:Hl; cbn; [done.. |]. intros _.
  apply mapM_Panic in Hl as ([k a] & _ & Hka). cbn in Hka. exists k, a.
  by destruct (f k a).
Qed.

Lemma path_not_empty (path more : list string) (k : string) :
  (path ++ k :: more)%list ≠ [].
Proof. by destruct path. Qed.

Lemma safe_String : safe schema_String.
Proof. intros v p _. by destruct v. Qed.

Lemma safe_Bool {coercion : StringCoercion} : safe schema_Bool.
Proof. intros v p _. destruct v; cbn; try done. by case_match. Qed.

Lemma safe_Int {coercion : StringCoercion} : safe schema_Int.
Proof. intros v p _. destruct v; cbn; try done. by case_match. Qed.

Lemma safe_Const (x : Value) : safe (schema_Const x).
Proof. intros v p _. unfold schema_Const. by case_match. Qed.

Lemma safe_OneOf (options : list Checker) :
  Forall safe options → safe (schema_OneOf options).
Proof.
  intros Hall v p Hp. induction Hall as [|c cs Hc _ IH]; [done |].
  cbn [schema_OneOf]. specialize (Hc v p Hp).
  destruct (c v p); [done | | done]. by destruct cs.
Qed.

Lemma safe_List (elem : Checker) : safe elem → safe (schema_List elem).
Proof.
  intros He v p _. unfold schema_List. destruct v; try done.
  destruct (mapM _ _) as [l'| |] eqn:Hl; cbn; [done.. |].
  apply mapM_Panic in Hl as ([i x] & _ & Hx). cbn [fst snd] in Hx.
  by apply He in Hx; [|apply path_not_empty].
Qed.

Lemma safe_StringMap (elem : Checker) : safe elem → safe (schema_StringMap elem).
Proof.
  intros He v p _. unfold schema_StringMap. destruct v; try done.
  destruct (map_mapM _ _) as [m'| |] eqn:Hm; cbn; [done.. |].
  apply map_mapM_Panic in Hm as (k & x & Hx).
  by apply He in Hx; [|apply path_not_empty].
Qed.

Lemma FieldMap_no_panic (strict : bool) (fields : list (string * Checker))
    (defaults : list (string * Default)) (v : Value) (path : list string) :
  Forall (λ kc, safe kc.2) fields →
  schema_FieldMap strict fields defaults v path ≠ Panic.
Proof.
  intros Hsafe. unfold schema_FieldMap. destruct v; try done.
  destruct (unknownKey _ _ _); [done |].
  destruct (mapM _ _) as [outs| |] eqn:Hm; cbn; [done.. |].
  apply mapM_Panic in Hm as ([k c] & Hin & Hstep).
  rewrite Forall_forall in Hsafe. specialize (Hsafe _ Hin). cbn [snd] in Hsafe.
  exfalso. revert Hstep. unfold fieldStep. cbn [fst snd].
  assert (∀ x, c x (path ++ ["."; k])%list ≫= (λ newv, Ok (k, Some newv)) ≠ Panic) as Hc.
  { intros x. specialize (Hsafe x _ (path_not_empty path [k] ".")).
    by destruct (c x _). }
  destruct (m !! k); [apply Hc |]. destruct (assoc k defaults) as [[|d]|]; [done | apply Hc..].
Qed.

Lemma safe_ifaceExpander {coercion : StringCoercion} (strict : bool) (limit : Value) :
  safe (ifaceExpander strict limit).
Proof.
  intros v p _. unfold ifaceExpander, ifaceExpC_Coerce.
  destruct (stringC v p) as [s| |] eqn:Hs; [done | | by destruct v].
  unfold mapC. pose proof (safe_StringMap schema_Any) as Hmap.
  destruct (schema_StringMap schema_Any v p) as [v'| |] eqn:Hm; [|done |].
  - unfold schema_StringMap in Hm. destruct v; try done.
    apply fmap_Ok in Hm as (m' & _ & ->).
    apply FieldMap_no_panic. repeat constructor; cbn [snd].
    + apply safe_String.
    + apply safe_OneOf. repeat constructor; [apply safe_Const | apply safe_Int].
    + apply safe_OneOf. repeat constructor; apply safe_Const.
    + apply safe_Bool.
  - unfold schema_StringMap in Hm. destruct v; try done.
    destruct (map_mapM _ _) as [m'| |] eqn:Hm'; try done.
    by apply map_mapM_Panic in Hm' as (k & x & Hx).
Qed.

Lemma Atoi_no_panic (s : string) : Atoi s ≠ Panic.
Proof.
  unfold Atoi. cbv zeta.
  destruct s as [|c s]; [done |].
  destruct c as [[] [] [] [] [] [] [] []]; cbv beta iota;
    repeat (case_match; try done).
Qed.

Lemma safe_storageCountC {coercion : StringCoercion} : safe storageCountC_Coerce.
Proof.
  intros v p Hp. unfold storageCountC_Coerce.
  destruct p as [|p0 p]; [done |].
  destruct v; try done.
  - cbn. by case_match.
  - cbn [schema_OneOf schema_Int]. destruct (intOfString s) as [m|]; [by case_match |].
    cbn [stringC schema_String].
    destruct (storageCountRE_FindStringSubmatch s) as [[m1 m2]|]; [|done].
    pose proof (Atoi_no_panic m1). destruct (Atoi m1); cbn; [|done..].
    case_match; [done |]. pose proof (Atoi_no_panic m2). by destruct (Atoi m2).
Qed.

(** X9. [storageCountC.Coerce] formats its errors with [path[1:]]: with a
    path that is not empty it never panics, and with an empty path it
    panics on every integer that is not positive, written as such or as a
    string that [schema.Int()] reads, and on every string that neither is
    read as an integer nor matches the pattern. *)
Theorem count_coercer_path {coercion : StringCoercion} :
  (∀ v p, p ≠ [] → storageCountC_Coerce v p ≠ Panic)
  ∧ (∀ v m, reads_int v m → (m ≤ 0)%Z → storageCountC_Coerce v [] = Panic)
  ∧ (∀ s, intOfString s = None → storageCountRE_FindStringSubmatch s = None →
       storageCountC_Coerce (VStr s) [] = Panic).
Proof.
  split; [apply safe_storageCountC |]. split.
  - intros v m [-> | (s & -> & Hs)] Hm; unfold storageCountC_Coerce; cbn; rewrite ?Hs;
      by destruct (Z.leb_spec m 0); [|lia].
  - intros s Hi Hs. unfold storageCountC_Coerce. cbn. by rewrite Hi, Hs.
Qed.

Lemma safe_FieldMap (strict : bool) (fields : list (string * Checker))
    (defaults : list (string * Default)) :
  Forall (λ kc, safe kc.2) fields → safe (schema_FieldMap strict fields defaults).
Proof. intros H v p _. by apply FieldMap_no_panic. Qed.

Lemma charmSchema_no_panic {coercion : StringCoercion} (strict : bool) (v : Value) (path : list string) :
  charmSchema strict v path ≠ Panic.
Proof.
  apply FieldMap_no_panic. unfold charmFields.
  repeat constructor; cbn [snd];
    try apply safe_String; try apply safe_Int; try apply safe_Bool;
    try (apply safe_List, safe_String);
    try (apply safe_StringMap, safe_ifaceExpander).
  apply safe_StringMap, safe_FieldMap.
  repeat constructor; cbn [snd];
    try apply safe_String; try apply safe_Bool; try apply safe_storageCountC.
  - apply safe_OneOf. repeat constructor; apply safe_Const.
  - apply safe_List, safe_OneOf. repeat constructor; [apply safe_String |].
    apply safe_FieldMap. repeat constructor; cbn [snd];
      try apply safe_String; apply safe_List, safe_String.
Qed.

(** ** Loops that cannot fail *)

Lemma mapM_total {A B : Type} (f : A → outcome B) (l : list A) :
  Forall (λ x, ∃ y, f x = Ok y) l → ∃ l', mapM f l = Ok l'.
Proof.
  induction 1 as [|x l [y Hy] _ [l' Hl']]; [by exists [] |].
  exists (y :: l'). cbn [mapM]. by rewrite Hy, Hl'.
Qed.

Lemma map_mapM_total {A B : Type} (f : string → A → outcome B) (m : gmap string A) :
  (∀ k a, m !! k = Some a → ∃ b, f k a = Ok b) → ∃ m', map_mapM f m = Ok m'.
Proof.
  intros Hall. unfold map_mapM.
  destruct (mapM_total (λ kv, w ← f kv.1 kv.2; Ok (kv.1, w)) (map_to_list m)) as [l' ->].
  - apply Forall_forall. intros [k a] Hin%elem_of_map_to_list.
    destruct (Hall k a Hin) as [b Hb]. exists (k, b). cbn. by rewrite Hb.
  - by eexists.
Qed.

(** ** The forms that the schema yields *)

Lemma String_form (v v' : Value) (p : list string) :
  schema_String v p = Ok v' → ∃ s, v' = VStr s.
Proof. destruct v; try done. intros [= <-]. by eexists. Qed.

Lemma Bool_reads {coercion : StringCoercion} (v v' : Value) (p : list string) :
  schema_Bool v p = Ok v' → ∃ b, v' = VBool b ∧ reads_bool v b.
Proof.
  destruct v as [|b| |s| | |]; cbn; try done.
  - intros [= <-]. exists b. split; [done | by left].
  - destruct (boolOfString s) as [b|] eqn:Hs; [|done]. intros [= <-].
    exists b. split; [done |]. right. by exists s.
Qed.

Lemma Int_reads {coercion : StringCoercion} (v v' : Value) (p : list string) :
  schema_Int v p = Ok v' → ∃ n, v' = VInt n ∧ reads_int v n.
Proof.
  destruct v as [| |n|s| | |]; cbn; try done.
  - intros [= <-]. exists n. split; [done | by left].
  - destruct (intOfString s) as [n|] eqn:Hs; [|done]. intros [= <-].
    exists n. split; [done |]. right. by exists s.
Qed.

Lemma reads_bool_default {coercion : StringCoercion} (b : bool) :
  reads_bool (VBool false) b → b = false.
Proof. by intros [[= <-] | (s & ? & _)]. Qed.

Lemma List_form (elem : Checker) (v v' : Value) (p : list string) :
  schema_List elem v p = Ok v' →
  ∃ l', v' = VList l' ∧ Forall (λ y, ∃ x p', elem x p' = Ok y) l'.
Proof.
  unfold schema_List. destruct v; try done.
  intros (l' & Hl%mapM_Ok & ->)%fmap_Ok. exists l'. split; [done |].
  induction Hl as [|[i x] y ? ? Hy _ IH]; constructor; [|done]. by eexists _, _.
Qed.

Lemma strings_form (l' : list Value) :
  Forall (λ y, ∃ x p', schema_String x p' = Ok y) l' → ∃ l, l' = VStr <$> l.
Proof.
  induction 1 as [|y l' (x & p & [s ->]%String_form) _ [l ->]]; [by exists [] |].
  by exists (s :: l).
Qed.

Lemma nil_or_int {coercion : StringCoercion} (v v' : Value) (p : list string) :
  schema_OneOf [schema_Const VNil; schema_Int] v p = Ok v' →
  (v = VNil ∧ v' = VNil) ∨ ∃ n, v ≠ VNil ∧ v' = VInt n ∧ reads_int v n.
Proof.
  destruct v as [| |n|s| | |]; cbn; try done.
  - intros [= <-]. by left.
  - intros [= <-]. right. exists n. split; [done |]. split; [done | by left].
  - destruct (intOfString s) as [n|] eqn:Hs; [|done]. intros [= <-].
    right. exists n. split; [done |]. split; [done |]. right. by exists s.
Qed.

Lemma parseRelation_of_form (k : string) (role : RelationRole) (rm : gmap string Value)
    (i : string) (l : Value) (o : bool) (s : string) :
  rm !! "interface" = Some (VStr i) →
  rm !! "limit" = Some l → l = VNil ∨ (∃ n, l = VInt n) →
  rm !! "optional" = Some (VBool o) →
  rm !! "scope" = Some (VStr s) →
  parseRelation k role (VMap rm)
  = Ok {| Name := k; Role := role; Interface := i; Optional := o;
          Limit := match l with VInt n => n | _ => 0%Z end; Scope := s |}.
Proof.
  intros Hi Hl Hl' Ho Hs.
  assert (at_key rm "interface" = VStr i) as Ai by (unfold at_key; by rewrite Hi).
  assert (at_key rm "limit" = l) as Al by (unfold at_key; by rewrite Hl).
  assert (at_key rm "optional" = VBool o) as Ao by (unfold at_key; by rewrite Ho).
  assert (at_key rm "scope" = VStr s) as As by (unfold at_key; by rewrite Hs).
  unfold parseRelation. cbn [asMap]. change (Ok rm ≫= ?f) with (f rm). cbv beta.
  rewrite Ai, Ao, As, Al. destruct Hl' as [-> | [n ->]]; reflexivity.
Qed.

(** ** Storage entries behind the schema *)

Lemma block_or_filesystem (v v' : Value) (path : list string) :
  schema_OneOf [schema_Const (VStr StorageBlock); schema_Const (VStr StorageFilesystem)] v path
  = Ok v' →
  v' = VStr StorageBlock ∨ v' = VStr StorageFilesystem.
Proof.
  cbn. unfold schema_Const.
  destruct (scalar_eqb (VStr StorageBlock) v) eqn:Eb.
  { intros [= <-]. left. by apply scalar_eqb_VStr. }
  destruct (scalar_eqb (VStr StorageFilesystem) v) eqn:Ef; [|done].
  intros [= <-]. right. by apply scalar_eqb_VStr.
Qed.

(** ** What the expander keeps of its input *)

Lemma String_id (v v' : Value) (p : list string) : schema_String v p = Ok v' → v = v'.
Proof. destruct v; try done. by intros [= <-]. Qed.

Lemma reads_int_VInt {coercion : StringCoercion} (n m : Z) : reads_int (VInt n) m → m = n.
Proof. by intros [[= <-] | (s & ? & _)]. Qed.

Lemma scope_id (v v' : Value) (p : list string) :
  schema_OneOf [schema_Const (VStr ScopeGlobal); schema_Const (VStr ScopeContainer)] v p
  = Ok v' → v = v'.
Proof.
  cbn. unfold schema_Const. destruct (scalar_eqb (VStr ScopeGlobal) v); [by intros [= <-] |].
  destruct (scalar_eqb (VStr ScopeContainer) v); [by intros [= <-] | done].
Qed.

Lemma storage_type_id (v v' : Value) (p : list string) :
  schema_OneOf [schema_Const (VStr StorageBlock); schema_Const (VStr StorageFilesystem)] v p
  = Ok v' → v = v'.
Proof.
  cbn. unfold schema_Const. destruct (scalar_eqb (VStr StorageBlock) v); [by intros [= <-] |].
  destruct (scalar_eqb (VStr StorageFilesystem) v); [by intros [= <-] | done].
Qed.

Lemma mapC_id (x y : Value) (p : list string) :
  mapC x p = Ok y → ∃ m, x = VMap m ∧ y = VMap m.
Proof.
  unfold mapC, schema_StringMap. destruct x as [| | | | |m|]; try done.
  intros (m' & Hm & ->)%fmap_Ok. exists m. split; [done |]. f_equal.
  apply map_eq. intros k. rewrite map_mapM_Ok in Hm. specialize (Hm k).
  destruct (m !! k) as [a|]; [|done]. by destruct Hm as (b & [= <-] & ->).
Qed.

Lemma List_strings_id (v v' : Value) (p : list string) :
  schema_List schema_String v p = Ok v' → v = v' ∧ ∃ l, v' = VList (VStr <$> l).
Proof.
  intros H. destruct (List_form _ _ _ _ H) as (l' & -> & Hl%strings_form).
  split; [|destruct Hl as [l ->]; by exists l].
  unfold schema_List in H. destruct v as [| | | |l0| |]; try done.
  apply fmap_Ok in H as (l'' & Hm%mapM_Ok & [= ->]). f_equal.
  assert (∀ (j : nat → nat) (l0 l1 : list Value),
    Forall2 (λ (ix : nat * Value) y, schema_String ix.2 (p ++ ["["; pretty ix.1; "]"])%list = Ok y)
      (imap (λ i x, (j i, x)) l0) l1 → l0 = l1) as Hid.
  { intros j l0'. revert j. induction l0' as [|x l0' IH]; intros j l1 HF.
    - by apply Forall2_nil_inv_l in HF as ->.
    - cbn [imap] in HF. apply Forall2_cons_inv_l in HF as (y & l1' & Hy & HF & ->).
      cbn [snd] in Hy. apply String_id in Hy as ->. f_equal. by apply (IH (j ∘ S)). }
  by apply (Hid (λ i, i)).
Qed.

Lemma ifaceExpC_spec {coercion : StringCoercion} (strict : bool) (limit x x' : Value) (path : list string) :
  limit = VNil ∨ (∃ n, limit = VInt n) →
  ifaceExpC_Coerce strict limit x path = Ok x' →
  ∃ rm i l o s,
    x' = VMap rm
    ∧ rm !! "interface" = Some (VStr i)
    ∧ rm !! "limit" = Some l ∧ (l = VNil ∨ ∃ n, l = VInt n)
    ∧ rm !! "optional" = Some (VBool o)
    ∧ rm !! "scope" = Some (VStr s) ∧ (s = ScopeGlobal ∨ s = ScopeContainer)
    ∧ ((x = VStr i ∧ l = limit ∧ o = false ∧ s = ScopeGlobal)
       ∨ (∃ m, x = VMap m
               ∧ m !! "interface" = Some (VStr i)
               ∧ match m !! "optional" with Some v => reads_bool v o | None => o = false end
               ∧ match m !! "scope" with Some v => v = VStr s | None => s = ScopeGlobal end
               ∧ match m !! "limit" with
                 | Some v => (v = VNil ∧ l = VNil)
                             ∨ ∃ n, v ≠ VNil ∧ l = VInt n ∧ reads_int v n
                 | None => l = limit
                 end)).
Proof.
  intros Hlimit. unfold ifaceExpC_Coerce.
  destruct (stringC x path) as [s| |] eqn:Hs; [| |done].
  { pose proof (String_id _ _ _ Hs) as ->. apply String_form in Hs as [i ->].
    intros [= <-]. eexists _, i, limit, false, ScopeGlobal.
    repeat split; try done; by left. }
  destruct (mapC x path) as [y| |] eqn:Hmap; [|done..].
  apply mapC_id in Hmap as (m & -> & ->).
  set (m' := match m !! "limit" with Some _ => m | None => <["limit" := limit]> m end).
  assert (∀ k, k ≠ "limit" → m' !! k = m !! k) as Hother.
  { intros k Hk. unfold m'. destruct (m !! "limit"); [done |]. by rewrite lookup_insert_ne. }
  assert (m' !! "limit" = Some (default limit (m !! "limit"))) as Hlim.
  { unfold m'. destruct (m !! "limit") eqn:E; [by rewrite E |]. by rewrite lookup_insert_eq. }
  clearbody m'.
  intros (_ & outs & Hf & ->)%FieldMap_Ok.
  apply Forall2_cons_inv_l in Hf as ([k1 e1] & ? & H1%fieldStep_value & Hf & ->).
  apply Forall2_cons_inv_l in Hf as ([k2 e2] & ? & H2%fieldStep_value & Hf & ->).
  apply Forall2_cons_inv_l in Hf as ([k3 e3] & ? & H3%fieldStep_value & Hf & ->).
  apply Forall2_cons_inv_l in Hf as ([k4 e4] & ? & H4%fieldStep_value & Hf & ->).
  apply Forall2_nil_inv_l in Hf as ->.
  destruct H1 as [H1 V1], H2 as [H2 V2], H3 as [H3 V3], H4 as [H4 V4].
  cbn [fst snd] in *. subst k1 k2 k3 k4.
  destruct e1 as [v1|]; [|by destruct V1].
  destruct e2 as [v2|]; [|by destruct V2].
  destruct e3 as [v3|]; [|by destruct V3].
  destruct e4 as [v4|]; [|by destruct V4].
  destruct V1 as (x1 & C1 & L1). pose proof (String_id _ _ _ C1) as ->.
  apply String_form in C1 as [i ->].
  destruct V2 as (x2 & C2 & L2). apply nil_or_int in C2.
  assert (v2 = VNil ∨ ∃ n, v2 = VInt n) as Hv2
    by (destruct C2 as [[_ ->] | (n & _ & -> & _)]; [by left | right; by exists n]).
  destruct V3 as (x3 & C3 & L3). pose proof (scope_id _ _ _ C3) as ->.
  apply scope_checker in C3.
  destruct V4 as (x4 & C4 & L4). apply Bool_reads in C4 as (o & -> & Ro).
  assert (∃ s, v3 = VStr s ∧ (s = ScopeGlobal ∨ s = ScopeContainer)) as (s & -> & Hs')
    by (destruct C3 as [-> | ->]; eexists; eauto).
  eexists _, i, v2, o, s. split; [done |].
  rewrite !present_lookup by (apply (bool_decide_unpack _); vm_compute; exact I).
  cbn [assoc String.eqb Ascii.eqb Bool.eqb from_option id].
  repeat (split; [done |]).
  right. exists m. split; [done |].
  rewrite (Hother "interface") in L1 by done.
  rewrite (Hother "scope") in L3 by done.
  rewrite (Hother "optional") in L4 by done.
  rewrite Hlim in L2. cbn [assoc String.eqb Ascii.eqb Bool.eqb] in L1, L2, L3, L4.
  split; [|split; [|split]].
  - by destruct L1 as [? | (_ & _ & ?)].
  - destruct L4 as [-> | (-> & _ & ->)]; [done | by apply reads_bool_default].
  - destruct L3 as [-> | (-> & _ & [= ->])]; done.
  - destruct L2 as [[= <-] | (? & _)]; [|done].
    destruct (m !! "limit") as [vl|]; [done |]. cbn [default from_option id] in C2.
    destruct C2 as [[-> ->] | (n & Hn & -> & Rn)]; [done |].
    destruct Hlimit as [-> | [n0 ->]]; [done |]. by apply reads_int_VInt in Rn as ->.
Qed.

(** ** What the decoder reads from the document *)

Section FieldCases.
Context (m : gmap string Value) (defaults : list (string * Default)) (path : list string).

Lemma optional_field (key : string) (c : Checker) (o : string * option Value) :
  assoc key defaults = Some Omit →
  fieldStep m defaults path (key, c) = Ok o →
  match m !! key with
  | Some vin => ∃ v, o.2 = Some v ∧ c vin (path ++ ["."; key])%list = Ok v
  | None => o.2 = None
  end.
Proof.
  intros Hd. unfold fieldStep. cbn [fst snd]. destruct (m !! key) as [vin|].
  - intros (v & Hv & [= <-])%bind_Ok. by exists v.
  - rewrite Hd. by intros [= <-].
Qed.

Lemma required_field (key : string) (c : Checker) (o : string * option Value) :
  assoc key defaults = None →
  fieldStep m defaults path (key, c) = Ok o →
  ∃ v, o.2 = Some v ∧ c (default VNil (m !! key)) (path ++ ["."; key])%list = Ok v.
Proof.
  intros Hd. unfold fieldStep. cbn [fst snd]. destruct (m !! key) as [vin|].
  - intros (v & Hv & [= <-])%bind_Ok. by exists v.
  - rewrite Hd. intros (v & Hv & [= <-])%bind_Ok. by exists v.
Qed.

Lemma defaulted_field (key : string) (c : Checker) (d : Value) (o : string * option Value) :
  assoc key defaults = Some (Dflt d) →
  fieldStep m defaults path (key, c) = Ok o →
  ∃ v, o.2 = Some v ∧ c (default d (m !! key)) (path ++ ["."; key])%list = Ok v.
Proof.
  intros Hd. unfold fieldStep. cbn [fst snd]. destruct (m !! key) as [vin|].
  - intros (v & Hv & [= <-])%bind_Ok. by exists v.
  - rewrite Hd. intros (v & Hv & [= <-])%bind_Ok. by exists v.
Qed.
End FieldCases.

Lemma relations_read {coercion : StringCoercion} (strict : bool) (limit : Value) (role : RelationRole)
    (entry e : option Value) (p : list string) :
  limit = VNil ∨ (∃ n, limit = VInt n) →
  match entry with
  | Some vin => ∃ v, e = Some v
                     ∧ schema_StringMap (ifaceExpander strict limit) vin p = Ok v
  | None => e = None
  end →
  ∃ rels, parseRelations (default VNil e) role = Ok rels
          ∧ (∀ k r, index rels k = Some r →
               Name r = k ∧ Role r = role
               ∧ (Scope r = ScopeGlobal ∨ Scope r = ScopeContainer))
          ∧ mapping_of (limitOf limit) entry rels.
Proof.
  intros Hlimit He. destruct entry as [vin|]; [|subst e; by exists None].
  destruct He as (v & -> & Hv). unfold schema_StringMap in Hv.
  destruct vin as [| | | | |pm|]; try done.
  apply fmap_Ok in Hv as (pm' & Hpm & ->). rewrite map_mapM_Ok in Hpm.
  cbn [from_option id]. unfold parseRelations. cbn [isNil asMap].
  change (Ok pm' ≫= ?f) with (f pm'). cbv beta.
  assert (∀ k x', pm' !! k = Some x' →
            ∃ x r, pm !! k = Some x ∧ parseRelation k role x' = Ok r
                   ∧ Name r = k ∧ Role r = role
                   ∧ (Scope r = ScopeGlobal ∨ Scope r = ScopeContainer)
                   ∧ relation_of (limitOf limit) x r) as Hparse.
  { intros k x' Hx'. specialize (Hpm k). destruct (pm !! k) as [x|]; [|congruence].
    destruct Hpm as (x'' & Hexp & Hx''). replace x'' with x' in * by congruence.
    apply ifaceExpC_spec in Hexp
      as (rm & i & l & o & s & -> & Hi & Hl & Hl' & Ho & Hs & Hs' & Hin); [|done].
    eexists x, _. split; [done |]. split; [by eapply parseRelation_of_form |].
    cbn [Name Role Scope]. repeat (split; [done |]).
    unfold relation_of. cbn [Interface Optional Limit Scope].
    destruct Hin as [(-> & -> & -> & ->) | (m & -> & Hmi & Hmo & Hms & Hml)]; [by left |].
    right. exists m. repeat (split; [done |]).
    destruct (m !! "limit") as [vl|]; [|by subst l].
    destruct Hml as [[-> ->] | (n & Hn & -> & Rn)]; [done |]. by destruct vl. }
  destruct (map_mapM_total (λ name rel, parseRelation name role rel) pm') as [rels Hrels].
  { intros k x' Hx'. destruct (Hparse k x' Hx') as (x & r & _ & Hr & _). by exists r. }
  rewrite Hrels. exists (Some rels). split; [done |].
  rewrite map_mapM_Ok in Hrels. split.
  - intros k r Hr. cbn in Hr. specialize (Hrels k).
    destruct (pm' !! k) as [x'|] eqn:Hx'; [|congruence].
    destruct Hrels as (r' & Hr' & Hk). replace r' with r in * by congruence.
    destruct (Hparse k x' Hx') as (x & r'' & _ & Hr'' & Hinv).
    replace r'' with r in * by congruence. tauto.
  - exists pm, rels. split; [done |]. split; [done |]. intros k.
    specialize (Hpm k). specialize (Hrels k). destruct (pm !! k) as [x|] eqn:Hx.
    + destruct Hpm as (x' & _ & Hx'). rewrite Hx' in Hrels.
      destruct Hrels as (r & Hr & Hk). exists r. split; [done |].
      destruct (Hparse k x' Hx') as (x0 & r' & Hx0 & Hr' & Hinv).
      replace r' with r in * by congruence. replace x0 with x in * by congruence. tauto.
    + by rewrite Hpm in Hrels.
Qed.

Lemma strings_read (entry e : option Value) (p : list string) :
  match entry with
  | Some vin => ∃ v, e = Some v ∧ schema_List schema_String vin p = Ok v
  | None => e = None
  end →
  ∃ l, parseStringList (default VNil e) = Ok l ∧ strings_of entry l.
Proof.
  destruct entry as [vin|]; [|intros ->; by exists None].
  intros (v & -> & [-> [l ->]]%List_strings_id).
  exists (Some l). split; [apply parse_strings | by exists l].
Qed.

(** ** What the decoder reads of the storage *)

Lemma imap_Forall2 {A B : Type} (P : nat → A → B → Prop) (Q : A → B → Prop)
    (l : list A) (l' : list B) :
  (∀ i x y, P i x y → Q x y) →
  ∀ j : nat → nat,
    Forall2 (λ (ix : nat * A) y, P ix.1 ix.2 y) (imap (λ i x, (j i, x)) l) l' →
    Forall2 Q l l'.
Proof.
  intros HPQ. revert l'. induction l as [|x l IH]; intros l' j HF.
  - apply Forall2_nil_inv_l in HF as ->. constructor.
  - cbn [imap] in HF. apply Forall2_cons_inv_l in HF as (y & l1 & Hy & HF & ->).
    constructor; [by eapply HPQ |]. by apply (IH _ (j ∘ S)).
Qed.

Lemma List_Forall2 (elem : Checker) (v v' : Value) (p : list string) :
  schema_List elem v p = Ok v' →
  ∃ l l', v = VList l ∧ v' = VList l' ∧ Forall2 (λ x y, ∃ p', elem x p' = Ok y) l l'.
Proof.
  unfold schema_List. destruct v as [| | | |l| |]; try done.
  intros (l' & Hl%mapM_Ok & ->)%fmap_Ok. exists l, l'. split; [done |]. split; [done |].
  apply (imap_Forall2
           (λ i x y, elem x (p ++ ["["; pretty i; "]"])%list = Ok y)
           (λ x y, ∃ p', elem x p' = Ok y) l l') with (j := λ i, i); [|exact Hl].
  intros i x y H. by eexists.
Qed.

Lemma somes_Some {A : Type} (l : list A) : somes (Some <$> l) = l.
Proof. induction l as [|x l IH]; [done |]. cbn. unfold somes in IH. by rewrite IH. Qed.

Lemma filesystem_elem_read (strict : bool) (x y : Value) (p : list string) :
  schema_OneOf [schema_String; filesystemSchema strict] x p = Ok y →
  ∃ f, parseFilesystemElem y = Ok (Some f) ∧ filesystem_of x f.
Proof.
  intros H. cbn [schema_OneOf] in H.
  destruct (schema_String x p) as [v| |] eqn:Hs; [| |done].
  { injection H as <-. pose proof (String_id _ _ _ Hs) as ->.
    apply String_form in Hs as [s ->]. eexists. split; [done |]. by left. }
  destruct (filesystemSchema strict x p) as [y'| |] eqn:HF; [|done..].
  injection H as ->. unfold filesystemSchema in HF. destruct x as [| | | | |m|]; try done.
  apply FieldMap_Ok in HF as (_ & outs & Hf & ->).
  apply Forall2_cons_inv_l in Hf as ([k1 e1] & ? & H1 & Hf & ->).
  apply Forall2_cons_inv_l in Hf as ([k2 e2] & ? & H2 & Hf & ->).
  apply Forall2_cons_inv_l in Hf as ([k3 e3] & ? & H3 & Hf & ->).
  apply Forall2_nil_inv_l in Hf as ->.
  pose proof (fieldStep_key _ _ _ _ _ H1) as K1.
  pose proof (fieldStep_key _ _ _ _ _ H2) as K2.
  pose proof (fieldStep_key _ _ _ _ _ H3) as K3.
  cbn [fst snd] in K1, K2, K3. subst k1 k2 k3.
  apply required_field in H1 as (v1 & E1 & V1); [|done].
  apply optional_field in H2; [|done].
  apply optional_field in H3; [|done].
  cbn [fst snd] in *. subst e1.
  destruct (String_form _ _ _ V1) as [t ->]. apply String_id in V1 as Ht.
  destruct (strings_read _ e3 _ H3) as (mount & Hmount & Rmount).
  destruct (strings_read _ e2 _ H2) as (mkfs & Hmkfs & Rmkfs).
  assert (∀ k, at_key (present [("type", Some (VStr t)); ("mkfs-options", e2);
                                ("options", e3)]) k
             = default VNil (default None (assoc k
                 [("type", Some (VStr t)); ("mkfs-options", e2); ("options", e3)]))) as Hat.
  { intros k. unfold at_key. f_equal. apply present_lookup.
    apply (bool_decide_unpack _). vm_compute. exact I. }
  cbn [parseFilesystemElem]. rewrite !Hat.
  cbn [assoc String.eqb Ascii.eqb Bool.eqb from_option id asString].
  change (Ok t ≫= ?f) with (f t). cbv beta.
  rewrite Hmount, Hmkfs. cbn [mbind outcome_bind].
  eexists. split; [done |]. right. exists m. cbn [fs_Type fs_MountOptions fs_MkfsOptions].
  split; [done |]. split; [|done].
  destruct (m !! "type") as [?|]; cbn in Ht; by subst.
Qed.

Lemma parseFilesystem_read (strict : bool) (entry e : option Value) (p : list string) :
  match entry with
  | Some vin =>
      ∃ v, e = Some v
           ∧ schema_List (schema_OneOf [schema_String; filesystemSchema strict]) vin p = Ok v
  | None => e = None
  end →
  ∃ r, parseFilesystem (default VNil e) = Ok r
       ∧ match entry with
         | None => r = None
         | Some v => ∃ l fl, v = VList l ∧ r = Some fl ∧ Forall2 filesystem_of l fl
         end.
Proof.
  destruct entry as [vin|]; [|intros ->; by exists None].
  intros (v & -> & (l & l' & -> & -> & Hl)%List_Forall2).
  cbn [from_option id]. unfold parseFilesystem. cbn [isNil asList].
  change (Ok l' ≫= ?f) with (f l'). cbv beta.
  assert (∃ fl, mapM parseFilesystemElem l' = Ok (Some <$> fl) ∧ Forall2 filesystem_of l fl)
    as (fl & -> & Hfl).
  { induction Hl as [|x y l l' [p' Hxy] _ (fl & IH1 & IH2)]; [by exists [] |].
    destruct (filesystem_elem_read _ _ _ _ Hxy) as (f & Hf & Hof).
    exists (f :: fl). cbn [mapM]. rewrite Hf, IH1. split; [done | by constructor]. }
  cbn [mbind outcome_bind]. rewrite somes_Some. eexists. split; [done |]. by exists l, fl.
Qed.

Lemma count_read {coercion : StringCoercion} (v v' : Value) (path : list string) :
  storageCountC_Coerce v path = Ok v' →
  ∃ lo hi, v' = VCount lo hi
    ∧ ((∃ c, reads_int v c ∧ (0 < c)%Z ∧ lo = (-1)%Z ∧ hi = c)
       ∨ (∃ s a b, v = VStr s ∧ intOfString s = None
                   ∧ storageCountRE_FindStringSubmatch s = Some (a, b)
                   ∧ Atoi a = Ok lo ∧ (0 ≤ lo)%Z ∧ (-1 ≤ hi)%Z
                   ∧ match b with
                     | EmptyString => hi = (-1)%Z
                     | _ => Atoi b = Ok hi
                     end)).
Proof.
  unfold storageCountC_Coerce.
  destruct v as [|b|m|s|l|mp|lo hi]; try done.
  - cbn. destruct (Z.leb_spec m 0); [by destruct (joinTail path) |].
    intros [= <-]. exists (-1)%Z, m. split; [done |]. left. exists m.
    split; [by left | done].
  - cbn [schema_OneOf schema_Int]. destruct (intOfString s) as [m|] eqn:Hi.
    { destruct (Z.leb_spec m 0); [by destruct (joinTail path) |].
      intros [= <-]. exists (-1)%Z, m. split; [done |]. left. exists m.
      split; [right; by exists s | done]. }
    cbn [stringC schema_String].
    destruct (storageCountRE_FindStringSubmatch s) as [[m1 m2]|] eqn:Hre;
      [|by destruct (joinTail path)].
    pose proof Hre as (_ & Hne & Hd1 & Hd2)%FindStringSubmatch_spec.
    destruct m1 as [|c1 m1]; [done |].
    cbn [String.list_ascii_of_string] in Hd1. apply Forall_cons in Hd1 as [Hc1 _].
    destruct (Atoi (String c1 m1)) as [m| |] eqn:Hm; cbn; [|done..].
    pose proof (Atoi_digits _ _ _ Hc1 Hm) as Hmb.
    destruct m2 as [|c2 m2].
    + intros [= <-]. exists m, (-1)%Z. split; [done |]. right.
      exists s, (String c1 m1), EmptyString. split_and!; [done.. | lia | lia | done].
    + cbn [String.list_ascii_of_string] in Hd2. apply Forall_cons in Hd2 as [Hc2 _].
      change (String.length (String c2 m2) =? 0)%nat with false. cbv iota.
      destruct (Atoi (String c2 m2)) as [n| |] eqn:Hn; cbn; [|done..].
      pose proof (Atoi_digits _ _ _ Hc2 Hn) as Hnb.
      intros [= <-]. exists m, n. split; [done |]. right.
      exists s, (String c1 m1), (String c2 m2). split_and!; [done.. | lia | lia | done].
Qed.

Lemma parseStore_read {coercion : StringCoercion} (strict : bool) (name : string) (x y : Value) (p : list string) :
  storageSchema strict x p = Ok y →
  ∃ st, parseStore name y = Ok st
        ∧ (st_Name st = name
           ∧ (st_Type st = StorageBlock ∨ st_Type st = StorageFilesystem)
           ∧ (0 ≤ st_CountMin st)%Z ∧ (-1 ≤ st_CountMax st)%Z)
        ∧ store_of x st.
Proof.
  unfold storageSchema. destruct x as [| | | | |m|]; try done.
  intros (_ & outs & Hf & ->)%FieldMap_Ok.
  apply Forall2_cons_inv_l in Hf as ([k1 e1] & ? & H1 & Hf & ->).
  apply Forall2_cons_inv_l in Hf as ([k2 e2] & ? & H2 & Hf & ->).
  apply Forall2_cons_inv_l in Hf as ([k3 e3] & ? & H3 & Hf & ->).
  apply Forall2_cons_inv_l in Hf as ([k4 e4] & ? & H4 & Hf & ->).
  apply Forall2_cons_inv_l in Hf as ([k5 e5] & ? & H5 & Hf & ->).
  apply Forall2_cons_inv_l in Hf as ([k6 e6] & ? & H6 & Hf & ->).
  apply Forall2_cons_inv_l in Hf as ([k7 e7] & ? & H7 & Hf & ->).
  apply Forall2_cons_inv_l in Hf as ([k8 e8] & ? & H8 & Hf & ->).
  apply Forall2_nil_inv_l in Hf as ->.
  pose proof (fieldStep_key _ _ _ _ _ H1) as K1.
  pose proof (fieldStep_key _ _ _ _ _ H2) as K2.
  pose proof (fieldStep_key _ _ _ _ _ H3) as K3.
  pose proof (fieldStep_key _ _ _ _ _ H4) as K4.
  pose proof (fieldStep_key _ _ _ _ _ H5) as K5.
  pose proof (fieldStep_key _ _ _ _ _ H6) as K6.
  pose proof (fieldStep_key _ _ _ _ _ H7) as K7.
  pose proof (fieldStep_key _ _ _ _ _ H8) as K8.
  cbn [fst snd] in K1, K2, K3, K4, K5, K6, K7, K8. subst k1 k2 k3 k4 k5 k6 k7 k8.
  apply defaulted_field with (d := VBool false) in H1 as (v1 & E1 & V1); [|done].
  apply defaulted_field with (d := VBool false) in H2 as (v2 & E2 & V2); [|done].
  apply defaulted_field with (d := VBool false) in H3 as (v3 & E3 & V3); [|done].
  apply defaulted_field with (d := VBool false) in H4 as (v4 & E4 & V4); [|done].
  apply optional_field in H5; [|done].
  apply optional_field in H6; [|done].
  apply required_field in H7 as (v7 & E7 & V7); [|done].
  apply optional_field in H8; [|done].
  cbn [fst snd] in *. subst e1 e2 e3 e4 e7.
  apply Bool_reads in V1 as (required & -> & Hrequired).
  apply Bool_reads in V2 as (shared & -> & Hshared).
  apply Bool_reads in V3 as (readOnly & -> & HreadOnly).
  apply Bool_reads in V4 as (persistent & -> & Hpersistent).
  pose proof (storage_type_id _ _ _ V7) as Hty0.
  apply block_or_filesystem in V7 as Hty.
  assert (∃ ty, v7 = VStr ty ∧ (ty = StorageBlock ∨ ty = StorageFilesystem)) as (ty & -> & Hty')
    by (destruct Hty as [-> | ->]; eexists; eauto).
  assert (m !! "type" = Some (VStr ty)) as Htype.
  { destruct (m !! "type") as [?|]; cbn in Hty0; by subst. }
  destruct (parseFilesystem_read strict _ e8 _ H8) as (fs & Hfs & Rfs).
  assert (∃ loc, match default VNil e6 with VStr loc' => loc' | _ => EmptyString end = loc
                 ∧ default (VStr EmptyString) (m !! "location") = VStr loc)
    as (loc & Hloc & Rloc).
  { destruct (m !! "location") as [vin|]; [|subst e6; by eexists].
    destruct H6 as (v' & -> & Hv). destruct (String_form _ _ _ Hv) as [s ->].
    apply String_id in Hv as ->. by exists s. }
  assert (∃ lo hi,
            match default VNil e5 with
            | VCount lo' hi' => (lo', hi')
            | _ => ((-1)%Z, 1%Z)
            end = (lo, hi)
            ∧ match m !! "count" with
              | None => lo = (-1)%Z ∧ hi = 1%Z
              | Some v =>
                  (∃ c, reads_int v c ∧ (0 < c)%Z ∧ lo = (-1)%Z ∧ hi = c)
                  ∨ (∃ s a b, v = VStr s ∧ intOfString s = None
                              ∧ storageCountRE_FindStringSubmatch s = Some (a, b)
                              ∧ Atoi a = Ok lo ∧ (0 ≤ lo)%Z ∧ (-1 ≤ hi)%Z
                              ∧ match b with
                                | EmptyString => hi = (-1)%Z
                                | _ => Atoi b = Ok hi
                                end)
              end) as (lo & hi & Hcount & Rcount).
  { destruct (m !! "count") as [vin|]; [|subst e5; by exists (-1)%Z, 1%Z].
    destruct H5 as (v' & -> & (lo & hi & -> & Hv)%count_read). by exists lo, hi. }
  assert (∀ k, at_key (present
      [("required", Some (VBool required)); ("shared", Some (VBool shared));
       ("read-only", Some (VBool readOnly)); ("persistent", Some (VBool persistent));
       ("count", e5); ("location", e6); ("type", Some (VStr ty)); ("filesystem", e8)]) k
    = default VNil (default None (assoc k
      [("required", Some (VBool required)); ("shared", Some (VBool shared));
       ("read-only", Some (VBool readOnly)); ("persistent", Some (VBool persistent));
       ("count", e5); ("location", e6); ("type", Some (VStr ty)); ("filesystem", e8)])))
    as Hat.
  { intros k. unfold at_key. f_equal. apply present_lookup.
    apply (bool_decide_unpack _). vm_compute. exact I. }
  unfold parseStore. cbn [asMap]. change (Ok ?m0 ≫= ?f) with (f m0). cbv beta.
  rewrite !Hat. cbn [assoc String.eqb Ascii.eqb Bool.eqb from_option id asString asBool].
  cbn [mbind outcome_bind]. rewrite Hcount, Hloc, Hfs. cbn [mbind outcome_bind fst snd].
  eexists. split; [done |].
  cbn [st_Name st_Type st_CountMin st_CountMax st_Shared st_ReadOnly st_Persistent
       st_Location st_Filesystem].
  split.
  - split; [done |]. split; [done |].
    destruct (m !! "count") as [vc|].
    + destruct Rcount as [(c & _ & Hc & -> & ->) | (s & a & b & _ & _ & _ & _ & Hlo & Hhi & _)].
      * change (-1 =? -1)%Z with true. cbv iota. destruct required; lia.
      * destruct (Z.eqb_spec lo (-1)); lia.
    + destruct Rcount as [-> ->]. change (-1 =? -1)%Z with true. cbv iota.
      destruct required; lia.
  - exists m, required.
    cbn [st_Name st_Type st_CountMin st_CountMax st_Shared st_ReadOnly st_Persistent
         st_Location st_Filesystem].
    repeat (split; [done |]). unfold counts_of.
    cbn [st_Name st_Type st_CountMin st_CountMax st_Shared st_ReadOnly st_Persistent
         st_Location st_Filesystem].
    destruct (m !! "count") as [vc|].
    + destruct Rcount as [(c & Rc & Hc & -> & ->)
                         | (s & a & b & -> & Hi & Hre & Ha & Hlo & Hhi & Hb)].
      * left. exists c. by change (-1 =? -1)%Z with true.
      * right. exists s, a, b. destruct (Z.eqb_spec lo (-1)); [lia |]. done.
    + destruct Rcount as [-> ->]. by change (-1 =? -1)%Z with true.
Qed.

Lemma storage_read {coercion : StringCoercion} (strict : bool) (entry e : option Value) (p : list string) :
  match entry with
  | Some vin => ∃ v, e = Some v ∧ schema_StringMap (storageSchema strict) vin p = Ok v
  | None => e = None
  end →
  ∃ stores, parseStorage (default VNil e) = Ok stores
            ∧ (∀ k st, index stores k = Some st →
                 st_Name st = k
                 ∧ (st_Type st = StorageBlock ∨ st_Type st = StorageFilesystem)
                 ∧ (0 ≤ st_CountMin st)%Z ∧ (-1 ≤ st_CountMax st)%Z)
            ∧ storage_of entry stores.
Proof.
  intros He. destruct entry as [vin|]; [|subst e; by exists None].
  destruct He as (v & -> & Hv). unfold schema_StringMap in Hv.
  destruct vin as [| | | | |sm|]; try done.
  apply fmap_Ok in Hv as (sm' & Hsm & ->). rewrite map_mapM_Ok in Hsm.
  cbn [from_option id]. unfold parseStorage. cbn [isNil asMap].
  change (Ok sm' ≫= ?f) with (f sm'). cbv beta.
  assert (∀ k x', sm' !! k = Some x' →
            ∃ x st, sm !! k = Some x ∧ parseStore k x' = Ok st
                    ∧ (st_Name st = k
                       ∧ (st_Type st = StorageBlock ∨ st_Type st = StorageFilesystem)
                       ∧ (0 ≤ st_CountMin st)%Z ∧ (-1 ≤ st_CountMax st)%Z)
                    ∧ store_of x st) as Hparse.
  { intros k x' Hx'. specialize (Hsm k). destruct (sm !! k) as [x|]; [|congruence].
    destruct Hsm as (x'' & Hsch & Hx''). replace x'' with x' in * by congruence.
    destruct (parseStore_read strict k _ _ _ Hsch) as (st & Hst & Hinv & Hof).
    by exists x, st. }
  destruct (map_mapM_total parseStore sm') as [stores Hstores].
  { intros k x' Hx'. destruct (Hparse k x' Hx') as (x & st & _ & Hst & _). by exists st. }
  rewrite Hstores. exists (Some stores). split; [done |].
  rewrite map_mapM_Ok in Hstores. split.
  - intros k st Hst. cbn in Hst. specialize (Hstores k).
    destruct (sm' !! k) as [x'|] eqn:Hx'; [|congruence].
    destruct Hstores as (st' & Hst' & Hk). replace st' with st in * by congruence.
    destruct (Hparse k x' Hx') as (x & st'' & _ & Hst'' & Hinv & _).
    by replace st'' with st in * by congruence.
  - exists sm, stores. split; [done |]. split; [done |]. intros k.
    specialize (Hsm k). specialize (Hstores k). destruct (sm !! k) as [x|] eqn:Hx.
    + destruct Hsm as (x' & _ & Hx'). rewrite Hx' in Hstores.
      destruct Hstores as (st & Hst & Hk). exists st. split; [done |].
      destruct (Hparse k x' Hx') as (x0 & st' & Hx0 & Hst' & _ & Hof).
      replace st' with st in * by congruence. by replace x0 with x in * by congruence.
    + by rewrite Hsm in Hstores.
Qed.

(** ** The decoder, end to end *)

Section DecoderCases.
Context {coercion : StringCoercion}.
Variable strict : bool.
Variable IsValidSeries : string → bool.

Lemma ReadMeta_cases (doc : gmap string Value) :
  (∃ e, ReadMeta strict IsValidSeries doc = Err (MetadataError e))
  ∨ (∃ meta, decoded meta
             ∧ scalars_of doc meta
             ∧ mapping_of 0 (doc !! "provides") (m_Provides meta)
             ∧ mapping_of 1 (doc !! "requires") (m_Requires meta)
             ∧ mapping_of 1 (doc !! "peers") (m_Peers meta)
             ∧ storage_of (doc !! "storage") (m_Storage meta)
             ∧ ReadMeta strict IsValidSeries doc
               = match Meta_Check IsValidSeries meta with
                 | Some err => Err (Invalid err)
                 | None => Ok meta
                 end).
Proof.
  unfold ReadMeta.
  destruct (charmSchema strict (VMap doc) []) as [v|e|] eqn:Hschema;
    [|left; by exists e|by apply charmSchema_no_panic in Hschema].
  right. unfold charmSchema in Hschema. apply FieldMap_Ok in Hschema as (_ & outs & Hf & ->).
  unfold charmFields in Hf.
  apply Forall2_cons_inv_l in Hf as ([k1 e1] & ? & H1 & Hf & ->).
  apply Forall2_cons_inv_l in Hf as ([k2 e2] & ? & H2 & Hf & ->).
  apply Forall2_cons_inv_l in Hf as ([k3 e3] & ? & H3 & Hf & ->).
  apply Forall2_cons_inv_l in Hf as ([k4 e4] & ? & H4 & Hf & ->).
  apply Forall2_cons_inv_l in Hf as ([k5 e5] & ? & H5 & Hf & ->).
  apply Forall2_cons_inv_l in Hf as ([k6 e6] & ? & H6 & Hf & ->).
  apply Forall2_cons_inv_l in Hf as ([k7 e7] & ? & H7 & Hf & ->).
  apply Forall2_cons_inv_l in Hf as ([k8 e8] & ? & H8 & Hf & ->).
  apply Forall2_cons_inv_l in Hf as ([k9 e9] & ? & H9 & Hf & ->).
  apply Forall2_cons_inv_l in Hf as ([k10 e10] & ? & H10 & Hf & ->).
  apply Forall2_cons_inv_l in Hf as ([k11 e11] & ? & H11 & Hf & ->).
  apply Forall2_cons_inv_l in Hf as ([k12 e12] & ? & H12 & Hf & ->).
  apply Forall2_cons_inv_l in Hf as ([k13 e13] & ? & H13 & Hf & ->).
  apply Forall2_nil_inv_l in Hf as ->.
  pose proof (fieldStep_key _ _ _ _ _ H1) as K1.
  pose proof (fieldStep_key _ _ _ _ _ H2) as K2.
  pose proof (fieldStep_key _ _ _ _ _ H3) as K3.
  pose proof (fieldStep_key _ _ _ _ _ H4) as K4.
  pose proof (fieldStep_key _ _ _ _ _ H5) as K5.
  pose proof (fieldStep_key _ _ _ _ _ H6) as K6.
  pose proof (fieldStep_key _ _ _ _ _ H7) as K7.
  pose proof (fieldStep_key _ _ _ _ _ H8) as K8.
  pose proof (fieldStep_key _ _ _ _ _ H9) as K9.
  pose proof (fieldStep_key _ _ _ _ _ H10) as K10.
  pose proof (fieldStep_key _ _ _ _ _ H11) as K11.
  pose proof (fieldStep_key _ _ _ _ _ H12) as K12.
  pose proof (fieldStep_key _ _ _ _ _ H13) as K13.
  cbn [fst snd] in *. subst k1 k2 k3 k4 k5 k6 k7 k8 k9 k10 k11 k12 k13.
  apply required_field in H1 as (v1 & E1 & V1); [|done].
  apply required_field in H2 as (v2 & E2 & V2); [|done].
  apply required_field in H3 as (v3 & E3 & V3); [|done].
  apply defaulted_field with (d := VInt 1) in H8 as (v8 & E8 & V8); [|done].
  cbn [fst snd] in E1, E2, E3, E8. subst e1 e2 e3 e8.
  apply optional_field in H4; [|done].
  apply optional_field in H5; [|done].
  apply optional_field in H6; [|done].
  apply optional_field in H7; [|done].
  apply optional_field in H9; [|done].
  apply optional_field in H10; [|done].
  apply optional_field in H11; [|done].
  apply optional_field in H12; [|done].
  apply optional_field in H13; [|done].
  cbn [fst snd] in *.
  destruct (String_form _ _ _ V1) as [name ->]; apply String_id in V1 as Hname.
  destruct (String_form _ _ _ V2) as [summary ->]; apply String_id in V2 as Hsummary.
  destruct (String_form _ _ _ V3) as [description ->]; apply String_id in V3 as Hdescription.
  apply Int_reads in V8 as (format & -> & Hformat).
  destruct (relations_read strict VNil RoleProvider _ e5 _ (or_introl eq_refl) H5)
    as (provides & Hprov & Iprov & Rprov).
  destruct (relations_read strict (VInt 1) RoleRequirer _ e6 _
              (or_intror (ex_intro _ 1%Z eq_refl)) H6)
    as (requires & Hreq & Ireq & Rreq).
  destruct (relations_read strict (VInt 1) RolePeer _ e4 _
              (or_intror (ex_intro _ 1%Z eq_refl)) H4)
    as (peers & Hpeer & Ipeer & Rpeer).
  destruct (strings_read _ e10 _ H10) as (categories & Hcats & Rcats).
  destruct (strings_read _ e11 _ H11) as (tags & Htags & Rtags).
  destruct (storage_read strict _ e13 _ H13) as (storage & Hsto & Isto & Rsto).
  assert (∃ sub, (if isNil (default VNil e9) then Ok false
                  else asBool (default VNil e9)) = Ok sub
                 ∧ reads_bool (default (VBool false) (doc !! "subordinate")) sub)
    as (sub & Hsub & Rsub).
  { destruct (doc !! "subordinate") as [vin|];
      [|subst e9; exists false; split; [done | by left]].
    destruct H9 as (v' & -> & Hv). apply Bool_reads in Hv as (b & -> & Rb).
    by exists b. }
  assert (∃ rev, (if isNil (default VNil e7) then Ok 0%Z
                  else asInt64 (default VNil e7)) = Ok rev
                 ∧ reads_int (default (VInt 0) (doc !! "revision")) rev)
    as (rev & Hrev & Rrev).
  { destruct (doc !! "revision") as [vin|];
      [|subst e7; exists 0%Z; split; [done | by left]].
    destruct H7 as (v' & -> & Hv). apply Int_reads in Hv as (n & -> & Rn).
    by exists n. }
  assert (∃ series, (if isNil (default VNil e12) then Ok EmptyString
                     else asString (default VNil e12)) = Ok series
                    ∧ default (VStr EmptyString) (doc !! "series") = VStr series)
    as (series & Hseries & Rseries).
  { destruct (doc !! "series") as [vin|]; [|subst e12; by eexists].
    destruct H12 as (v' & -> & Hv). destruct (String_form _ _ _ Hv) as [s ->].
    apply String_id in Hv as ->. by exists s. }
  assert (∀ k, at_key (present
      [("name", Some (VStr name));
       ("summary", Some (VStr summary));
       ("description", Some (VStr description)); ("peers", e4);
       ("provides", e5); ("requires", e6); ("revision", e7);
       ("format", Some (VInt format));
       ("subordinate", e9); ("categories", e10); ("tags", e11); ("series", e12);
       ("storage", e13)]) k
    = default VNil (default None (assoc k
      [("name", Some (VStr name));
       ("summary", Some (VStr summary));
       ("description", Some (VStr description)); ("peers", e4);
       ("provides", e5); ("requires", e6); ("revision", e7);
       ("format", Some (VInt format));
       ("subordinate", e9); ("categories", e10); ("tags", e11); ("series", e12);
       ("storage", e13)]))) as Hat.
  { intros k. unfold at_key. f_equal. apply present_lookup.
    apply (bool_decide_unpack _). vm_compute. exact I. }
  cbn [asMap]. change (Ok ?m0 ≫= ?f) with (f m0). cbv beta.
  rewrite !Hat. cbn [assoc String.eqb Ascii.eqb Bool.eqb from_option id asString asInt64].
  cbn [mbind outcome_bind].
  rewrite Hprov, Hreq, Hpeer. cbn [mbind outcome_bind].
  rewrite Hcats, Htags. cbn [mbind outcome_bind].
  rewrite Hsub. cbn [mbind outcome_bind].
  rewrite Hrev. cbn [mbind outcome_bind].
  rewrite Hseries. cbn [mbind outcome_bind].
  rewrite Hsto. cbn [mbind outcome_bind].
  eexists. split; [|split; [|split; [|split; [|split; [|split; [|reflexivity]]]]]].
  - split; [|exact Isto].
    intros src role k r Hm Hk.
    destruct (in_mappings _ _ _ Hm) as [[-> ->]|[[-> ->]|[-> ->]]];
      cbn [m_Provides m_Requires m_Peers] in Hk; eauto.
  - unfold scalars_of.
    cbn [m_Name m_Summary m_Description m_Format m_Subordinate m_OldRevision
         m_Series m_Categories m_Tags].
    assert (∀ k s, default VNil (doc !! k) = VStr s → doc !! k = Some (VStr s)) as Hreqd.
    { intros k s. destruct (doc !! k) as [?|]; cbn; [by intros ->|done]. }
    repeat split; auto.
  - exact Rprov.
  - exact Rreq.
  - exact Rpeer.
  - exact Rsto.
Qed.
End DecoderCases.

Lemma decoded_errors (IsValidSeries : string → bool) (meta : Meta) (c : CheckError) :
  decoded meta → Meta_Check IsValidSeries meta = Some c → from_decoder c.
Proof.
  intros [Hrel Hsto] H. destruct (Check_error_phase _ _ _ H) as [Hr|[Hs|[Hs|Hs]]].
  - apply checkAll_error_origin in Hr as (src & role & k & r & n0 & Hm & Hk & Hc).
    destruct (Hrel _ _ _ _ Hm Hk) as (Hn & Hro & _).
    revert Hc. unfold checkRelation. rewrite Hn, Hro, !String.eqb_refl. cbn [negb].
    repeat (case_match; [by intros [= <-] |]). done.
  - unfold checkSubordinate in Hs. case_match; [|done]. by injection Hs as <-.
  - unfold checkSeries in Hs. case_match; [|done]. by injection Hs as <-.
  - unfold checkStorage in Hs. apply storage_error_of_body in Hs as (k & st & Hin & Hk).
    + apply elem_of_range in Hin. destruct (Hsto _ _ Hin) as (_ & Hty & Hmin & Hmax).
      revert Hk. unfold checkStore. rewrite flag_empty.
      case_match; [by intros [= <-] |]. case_match; [by intros [= <-] |].
      destruct (st_Type st =? EmptyString) eqn:Ety.
      { apply eqb_true in Ety. destruct Hty as [Hty|Hty]; by rewrite Hty in Ety. }
      destruct (st_CountMin st <? 0)%Z eqn:Emin; [lia |].
      destruct ((st_CountMax st =? 0)%Z || (st_CountMax st <? -1)%Z) eqn:Emax; [|done].
      intros [= <-]. cbn. apply orb_true_iff in Emax as [Emax | Emax]; lia.
    + apply NoDup_range.
    + intros k _. apply flag_empty.
Qed.

Section DecoderResults.
Context {coercion : StringCoercion}.
Variable strict : bool.
Variable IsValidSeries : string → bool.

(** X10. The type assertions of [ReadMeta] and of the parse functions it
    calls never fail: whatever the document, [ReadMeta] returns a record
    or an error, it does not panic. *)
Theorem ReadMeta_never_panics (doc : gmap string Value) :
  ReadMeta strict IsValidSeries doc ≠ Panic.
Proof.
  destruct (ReadMeta_cases strict IsValidSeries doc)
    as [[e ->] | (meta & _ & _ & _ & _ & _ & _ & ->)]; [done |].
  by destruct (Meta_Check IsValidSeries meta).
Qed.

(** X11. Every record that [ReadMeta] returns passes [Check], and in it
    every relation is named by its key and has the role of its mapping and
    the scope global or container, and every storage entry is named by its
    key, has the type block or filesystem, a minimum count of at least 0
    and a maximum count of at least -1. *)
Theorem ReadMeta_result_decoded (doc : gmap string Value) (R : Meta) :
  ReadMeta strict IsValidSeries doc = Ok R →
  decoded R ∧ Meta_Check IsValidSeries R = None.
Proof.
  intros H. destruct (ReadMeta_cases strict IsValidSeries doc)
    as [[e He] | (meta & Hd & _ & _ & _ & _ & _ & Hm)]; [congruence |].
  rewrite Hm in H. destruct (Meta_Check IsValidSeries meta) eqn:Hc; [done |].
  by injection H as <-.
Qed.

(** X13. A document in which [name], [summary] or [description] is missing
    or is not a string is rejected with a metadata error. *)
Theorem required_fields (doc : gmap string Value) (k : string) :
  k ∈ ["name"; "summary"; "description"] →
  (∀ s, doc !! k ≠ Some (VStr s)) →
  ∃ e, ReadMeta strict IsValidSeries doc = Err (MetadataError e).
Proof.
  intros Hk Hno. destruct (ReadMeta_cases strict IsValidSeries doc)
    as [He | (meta & _ & (Hn & Hs & Hd & _) & _)]; [done |].
  apply elem_of_cons in Hk as [-> | Hk]; [by destruct (Hno _ Hn) |].
  apply elem_of_cons in Hk as [-> | Hk]; [by destruct (Hno _ Hs) |].
  apply elem_of_cons in Hk as [-> | Hk]; [by destruct (Hno _ Hd) |].
  by apply elem_of_nil in Hk.
Qed.

(** X14. In a record that [ReadMeta] returns, the name, summary and
    description are the document's strings; the format is the integer that
    [schema.Int()] reads from the document's value, which is that value
    when it is an integer and otherwise the integer that the library makes
    of a string, or 1 when the document has none; subordinate and revision
    are what [schema.Bool()] and [schema.Int()] read from the document's
    values in the same way, or false and 0; the series is the document's
    string, or the empty string; and categories and tags are the
    document's lists of strings, nil when the document has none. *)
Theorem ReadMeta_scalars (doc : gmap string Value) (R : Meta) :
  ReadMeta strict IsValidSeries doc = Ok R → scalars_of doc R.
Proof.
  intros H. destruct (ReadMeta_cases strict IsValidSeries doc)
    as [[e He] | (meta & _ & Hs & _ & _ & _ & _ & Hm)]; [congruence |].
  rewrite Hm in H. destruct (Meta_Check IsValidSeries meta) eqn:Hc; [done |].
  by injection H as <-.
Qed.

(** X15. In a record that [ReadMeta] returns, each relation mapping is nil
    when the document has no such field, and otherwise has exactly the keys
    of the document's mapping; the relation under a key written as a string
    has that interface, is not optional, has the scope global and the limit
    0 under [provides] and 1 under [requires] and [peers]; the relation
    under a key written as a map has the map's interface and scope, what
    [schema.Bool()] reads from the map's [optional] and what [schema.Int()]
    reads from its [limit], each a boolean or an integer written as such
    or as a string that the library converts; where the map has none,
    they are false, global and that default limit; a [limit] written as
    null gives 0. *)
Theorem ReadMeta_relations (doc : gmap string Value) (R : Meta) :
  ReadMeta strict IsValidSeries doc = Ok R →
  mapping_of 0 (doc !! "provides") (m_Provides R)
  ∧ mapping_of 1 (doc !! "requires") (m_Requires R)
  ∧ mapping_of 1 (doc !! "peers") (m_Peers R).
Proof.
  intros H. destruct (ReadMeta_cases strict IsValidSeries doc)
    as [[e He] | (meta & _ & _ & Hp & Hr & Hq & _ & Hm)]; [congruence |].
  rewrite Hm in H. destruct (Meta_Check IsValidSeries meta) eqn:Hc; [done |].
  by injection H as <-.
Qed.
(** X16. In a record that [ReadMeta] returns, the storage is nil when the
    document has no [storage] field and otherwise has exactly the keys of
    the document's mapping.  Each entry has the document's type; its
    shared, read-only and persistent flags are what [schema.Bool()] reads
    from the document's values, booleans written as such or as strings
    that the library converts, or false; its location is the document's,
    or empty; its filesystem list is nil exactly when the document has
    none, and otherwise has one filesystem per element of the document's
    list; and its counts are (0 or 1, 1) without a count, (0 or c, c) for
    a count that [schema.Int()] reads as an integer c > 0, the first
    depending on what [schema.Bool()] reads from [required], and, for a
    string that is not read as an integer, the two numbers of the count
    pattern, with -1 for an empty second number. *)
Theorem ReadMeta_storage (doc : gmap string Value) (R : Meta) :
  ReadMeta strict IsValidSeries doc = Ok R →
  storage_of (doc !! "storage") (m_Storage R).
Proof.
  intros H. destruct (ReadMeta_cases strict IsValidSeries doc)
    as [[e He] | (meta & _ & _ & _ & _ & _ & Hs & Hm)]; [congruence |].
  rewrite Hm in H. destruct (Meta_Check IsValidSeries meta) eqn:Hc; [done |].
  by injection H as <-.
Qed.
End DecoderResults.

Section DecoderReader.
Context {coercion : StringCoercion} {E Text : Type}.
Variable strict : bool.
Variable IsValidSeries : string → bool.
Variable Unmarshal : Text → E + gmap string Value.

(** X12. [ReadMeta] returns an error of the reader and an error of
    [yaml.Unmarshal] as they are.  Every other error is either a schema
    error, wrapped as a metadata error, or an error of [Check]; and of the
    errors of [Check] it cannot be a mismatched relation name or role, a
    missing storage type, a negative minimum count or a duplicated storage
    name, and an invalid maximum count can only be 0. *)
Theorem ReadMeta_errors (r : E + Text) :
  (∀ err, ReadMeta_reader strict IsValidSeries Unmarshal r = inl err →
     r = inl err ∨ ∃ data, r = inr data ∧ Unmarshal data = inl err)
  ∧ (∀ err, r = inl err → ReadMeta_reader strict IsValidSeries Unmarshal r = inl err)
  ∧ (∀ data err, r = inr data → Unmarshal data = inl err →
       ReadMeta_reader strict IsValidSeries Unmarshal r = inl err)
  ∧ (∀ e, ReadMeta_reader strict IsValidSeries Unmarshal r = inr (Err e) →
       (∃ e', e = MetadataError e') ∨ (∃ c, e = Invalid c ∧ from_decoder c)).
Proof.
  unfold ReadMeta_reader. split_and!.
  - intros err H. destruct r as [err0 | data]; [left; congruence |].
    right. exists data. split; [done |]. destruct (Unmarshal data); congruence.
  - by intros err ->.
  - by intros data err -> ->.
  - intros e H. destruct r as [err0 | data]; [done |].
    destruct (Unmarshal data) as [err0 | doc]; [done |]. injection H as H.
    destruct (ReadMeta_cases strict IsValidSeries doc)
      as [[e' He] | (meta & Hd & _ & _ & _ & _ & _ & Hm)].
    + left. exists e'. congruence.
    + rewrite Hm in H. destruct (Meta_Check IsValidSeries meta) as [c|] eqn:Hc; [|done].
      injection H as <-. right. exists c. split; [done |]. by eapply decoded_errors.
Qed.
End DecoderReader.

Lemma ReadMeta_result_decoded_witness :
  decoded sample_record ∧ Meta_Check anySeries sample_record = None.
Proof.
  apply (ReadMeta_result_decoded (coercion := decimal) true anySeries
           sample_document sample_record).
  vm_compute. reflexivity.
Defined.

Lemma ReadMeta_errors_witness :
  (∃ e', Invalid (ReservedRelationName "wordpress" "juju-x") = MetadataError e')
  ∨ (∃ c, Invalid (ReservedRelationName "wordpress" "juju-x") = Invalid c ∧ from_decoder c).
Proof.
  apply (proj2 (proj2 (proj2
           (ReadMeta_errors (coercion := decimal) (E := string) true anySeries inr
              (inr (document [("peers", VMap {[ "juju-x" := VStr "http" ]})])))))).
  vm_compute. reflexivity.
Defined.

Lemma required_fields_witness :
  ∃ e, ReadMeta (coercion := decimal) true anySeries {[ "name" := VInt 3 ]}
       = Err (MetadataError e).
Proof.
  apply (required_fields (coercion := decimal) true anySeries {[ "name" := VInt 3 ]} "name").
  - apply elem_of_cons. by left.
  - intros s. vm_compute. discriminate.
Defined.

Lemma ReadMeta_scalars_witness :
  scalars_of (coercion := decimal) sample_document sample_record.
Proof.
  apply (ReadMeta_scalars (coercion := decimal) true anySeries sample_document sample_record).
  vm_compute. reflexivity.
Defined.

Lemma ReadMeta_relations_witness :
  mapping_of (coercion := decimal) 0 (sample_document !! "provides") (m_Provides sample_record)
  ∧ mapping_of (coercion := decimal) 1 (sample_document !! "requires")
      (m_Requires sample_record)
  ∧ mapping_of (coercion := decimal) 1 (sample_document !! "peers") (m_Peers sample_record).
Proof.
  apply (ReadMeta_relations (coercion := decimal) true anySeries
           sample_document sample_record).
  vm_compute. reflexivity.
Defined.

Lemma ReadMeta_storage_witness :
  storage_of (coercion := decimal) (sample_document !! "storage") (m_Storage sample_record).
Proof.
  apply (ReadMeta_storage (coercion := decimal) true anySeries
           sample_document sample_record).
  vm_compute. reflexivity.
Defined.

(** ** The normal form of the expander *)

Lemma ifaceExpC_keys {coercion : StringCoercion} (strict : bool) (limit x : Value) (rm : gmap string Value)
    (path : list string) (k : string) :
  ifaceExpC_Coerce strict limit x path = Ok (VMap rm) →
  is_Some (rm !! k) → k ∈ ["interface"; "limit"; "scope"; "optional"].
Proof.
  unfold ifaceExpC_Coerce.
  destruct (stringC x path) as [s| |] eqn:Hs; [| |done].
  { intros [= <-] [v Hk].
    destruct (decide (k = "interface")) as [-> | H1]; [repeat constructor |].
    destruct (decide (k = "limit")) as [-> | H2]; [repeat constructor |].
    destruct (decide (k = "optional")) as [-> | H3]; [repeat constructor |].
    destruct (decide (k = "scope")) as [-> | H4]; [repeat constructor |].
    by rewrite !lookup_insert_ne, lookup_empty in Hk. }
  destruct (mapC x path) as [y| |] eqn:Hmap; [|done..].
  apply mapC_id in Hmap as (m & -> & ->).
  intros (_ & outs & Hf & [= ->])%FieldMap_Ok Hk.
  apply present_key in Hk.
  apply Forall2_cons_inv_l in Hf as ([k1 e1] & ? & H1%fieldStep_key & Hf & ->).
  apply Forall2_cons_inv_l in Hf as ([k2 e2] & ? & H2%fieldStep_key & Hf & ->).
  apply Forall2_cons_inv_l in Hf as ([k3 e3] & ? & H3%fieldStep_key & Hf & ->).
  apply Forall2_cons_inv_l in Hf as ([k4 e4] & ? & H4%fieldStep_key & Hf & ->).
  apply Forall2_nil_inv_l in Hf as ->.
  cbn [fst snd] in *. by subst k1 k2 k3 k4.
Qed.

Lemma ifaceExpC_normal {coercion : StringCoercion} (strict : bool) (limit x x' : Value) (path : list string) :
  limit = VNil ∨ (∃ n, limit = VInt n) →
  ifaceExpC_Coerce strict limit x path = Ok x' →
  ∃ i l o s,
    x' = full_form i l o s
    ∧ (l = VNil ∨ ∃ n, l = VInt n)
    ∧ (s = ScopeGlobal ∨ s = ScopeContainer)
    ∧ ((x = VStr i ∧ l = limit ∧ o = false ∧ s = ScopeGlobal)
       ∨ (∃ m, x = VMap m
               ∧ m !! "interface" = Some (VStr i)
               ∧ match m !! "optional" with Some v => reads_bool v o | None => o = false end
               ∧ match m !! "scope" with Some v => v = VStr s | None => s = ScopeGlobal end
               ∧ match m !! "limit" with
                 | Some v => (v = VNil ∧ l = VNil)
                             ∨ ∃ n, v ≠ VNil ∧ l = VInt n ∧ reads_int v n
                 | None => l = limit
                 end)).
Proof.
  intros Hlimit H.
  destruct (ifaceExpC_spec _ _ _ _ _ Hlimit H)
    as (rm & i & l & o & s & -> & Hi & Hl & Hl' & Ho & Hs & Hs' & Hin).
  exists i, l, o, s. split; [|done].
  unfold full_form. f_equal. apply map_eq. intros k.
  destruct (decide (k = "interface")) as [-> | H1]; [by rewrite lookup_insert_eq |].
  rewrite lookup_insert_ne by done.
  destruct (decide (k = "limit")) as [-> | H2]; [by rewrite lookup_insert_eq |].
  rewrite lookup_insert_ne by done.
  destruct (decide (k = "optional")) as [-> | H3]; [by rewrite lookup_insert_eq |].
  rewrite lookup_insert_ne by done.
  destruct (decide (k = "scope")) as [-> | H4]; [by rewrite lookup_insert_eq |].
  rewrite lookup_insert_ne, lookup_empty by done.
  apply eq_None_not_Some. intros Hk.
  apply (ifaceExpC_keys _ _ _ _ _ _ H) in Hk.
  repeat (apply elem_of_cons in Hk as [-> | Hk]; [done |]). by apply elem_of_nil in Hk.
Qed.

Lemma full_form_fixed {coercion : StringCoercion} (strict : bool) (limit l : Value) (i s : string) (o : bool)
    (path : list string) :
  l = VNil ∨ (∃ n, l = VInt n) → s = ScopeGlobal ∨ s = ScopeContainer →
  ifaceExpC_Coerce strict limit (full_form i l o s) path = Ok (full_form i l o s).
Proof.
  intros [-> | [n ->]] [-> | ->]; destruct strict, o; vm_compute; reflexivity.
Qed.

(** X17. What [ifaceExpC.Coerce] returns without an error is always the
    fully specified form: a map with exactly the keys [interface], [limit],
    [optional] and [scope], where the limit is nil or an integer and the
    scope is global or container.  For a string it holds that string as
    the interface, the coercer's limit, false and global; for a map it
    holds the map's interface and scope, the boolean that [schema.Bool()]
    reads from the map's [optional] and nil for a [limit] of nil or else
    the integer that [schema.Int()] reads from it, the two written as such
    or as strings that the library converts; for those the map lacks it
    holds the coercer's limit, false and global.  Nothing but a string or
    a map is accepted. *)
Theorem ifaceExpC_results {coercion : StringCoercion} (strict : bool) (limit x x' : Value) (path : list string) :
  limit = VNil ∨ (∃ n, limit = VInt n) →
  ifaceExpC_Coerce strict limit x path = Ok x' →
  ∃ i l o s,
    x' = full_form i l o s
    ∧ (l = VNil ∨ ∃ n, l = VInt n)
    ∧ (s = ScopeGlobal ∨ s = ScopeContainer)
    ∧ ((x = VStr i ∧ l = limit ∧ o = false ∧ s = ScopeGlobal)
       ∨ (∃ m, x = VMap m
               ∧ m !! "interface" = Some (VStr i)
               ∧ match m !! "optional" with Some v => reads_bool v o | None => o = false end
               ∧ match m !! "scope" with Some v => v = VStr s | None => s = ScopeGlobal end
               ∧ match m !! "limit" with
                 | Some v => (v = VNil ∧ l = VNil)
                             ∨ ∃ n, v ≠ VNil ∧ l = VInt n ∧ reads_int v n
                 | None => l = limit
                 end)).
Proof. apply ifaceExpC_normal. Qed.

Lemma ifaceExpC_results_witness :
  ∃ i l o s,
    full_form "mysql" (VInt 1) false ScopeGlobal = full_form i l o s
    ∧ (l = VNil ∨ ∃ n, l = VInt n)
    ∧ (s = ScopeGlobal ∨ s = ScopeContainer)
    ∧ ((VStr "mysql" = VStr i ∧ l = VInt 1 ∧ o = false ∧ s = ScopeGlobal)
       ∨ (∃ m, VStr "mysql" = VMap m
               ∧ m !! "interface" = Some (VStr i)
               ∧ match m !! "optional" with
                 | Some v => reads_bool (coercion := decimal) v o
                 | None => o = false
                 end
               ∧ match m !! "scope" with Some v => v = VStr s | None => s = ScopeGlobal end
               ∧ match m !! "limit" with
                 | Some v => (v = VNil ∧ l = VNil)
                             ∨ ∃ n, v ≠ VNil ∧ l = VInt n
                                    ∧ reads_int (coercion := decimal) v n
                 | None => l = VInt 1
                 end)).
Proof.
  apply (ifaceExpC_results (coercion := decimal) true (VInt 1) (VStr "mysql")
           (full_form "mysql" (VInt 1) false ScopeGlobal) []).
  - right. by exists 1%Z.
  - reflexivity.
Defined.

(** X18. The fully specified form is a fixed point of the expander: what
    [ifaceExpC.Coerce] returns is returned unchanged by every expander,
    whatever its default limit and the path. *)
Theorem ifaceExpC_idempotent {coercion : StringCoercion} (strict strict' : bool) (limit limit' x x' : Value)
    (path path' : list string) :
  limit = VNil ∨ (∃ n, limit = VInt n) →
  ifaceExpC_Coerce strict limit x path = Ok x' →
  ifaceExpC_Coerce strict' limit' x' path' = Ok x'.
Proof.
  intros Hlimit H.
  destruct (ifaceExpC_normal _ _ _ _ _ Hlimit H) as (i & l & o & s & -> & Hl & Hs & _).
  by apply full_form_fixed.
Qed.

Lemma ifaceExpC_idempotent_witness :
  ifaceExpC_Coerce (coercion := decimal) false VNil
    (full_form "mysql" (VInt 1) false ScopeGlobal) ["provides"]
  = Ok (full_form "mysql" (VInt 1) false ScopeGlobal).
Proof.
  apply (ifaceExpC_idempotent (coercion := decimal) true false (VInt 1) VNil (VStr "mysql")
           (full_form "mysql" (VInt 1) false ScopeGlobal) [] ["provides"]).
  - right. by exists 1%Z.
  - reflexivity.
Defined.

(** ** Relations on the way out *)

(** X19. [marshaledRelation.GetYAML] drops the name and the role of a
    relation and nothing else: two relations of the same role, neither
    with an empty scope, that it maps to the same value have the same
    interface, optional flag, limit and scope. *)
Theorem marshaled_relation_keeps_fields (r1 r2 : Relation) :
  Role r1 = Role r2 → Scope r1 ≠ EmptyString → Scope r2 ≠ EmptyString →
  marshaledRelation_GetYAML r1 = marshaledRelation_GetYAML r2 →
  Interface r1 = Interface r2 ∧ Optional r1 = Optional r2
  ∧ Limit r1 = Limit r2 ∧ Scope r1 = Scope r2.
Proof.
  destruct r1 as [n1 ro i1 o1 l1 s1], r2 as [n2 ro2 i2 o2 l2 s2]. cbn [Role Scope].
  intros <- Hs1 Hs2. unfold marshaledRelation_GetYAML.
  cbn [Name Role Interface Optional Limit Scope].
  set (noLimit := if ro =? RoleProvider then 0%Z else 1%Z).
  destruct o1, o2; cbn [negb andb];
    destruct (Z.eqb_spec l1 noLimit) as [-> | Hl1];
    destruct (Z.eqb_spec l2 noLimit) as [-> | Hl2]; cbn [negb andb];
    destruct (s1 =? ScopeGlobal) eqn:E1; destruct (s2 =? ScopeGlobal) eqn:E2;
    cbn [negb]; strings; subst; intros [=]; subst; try done.
Qed.

Lemma marshaled_relation_keeps_fields_witness :
  let r1 := relation "db" RoleRequirer "mysql" ScopeContainer in
  let r2 := relation "database" RoleRequirer "mysql" ScopeContainer in
  Interface r1 = Interface r2 ∧ Optional r1 = Optional r2
  ∧ Limit r1 = Limit r2 ∧ Scope r1 = Scope r2.
Proof.
  intros r1 r2. apply (marshaled_relation_keeps_fields r1 r2).
  - reflexivity.
  - discriminate.
  - discriminate.
  - reflexivity.
Defined.

(** ** What the encoder writes *)

Lemma Encode_encoded_part (R : Meta) : Encode (encoded_part R) = Encode R.
Proof.
  unfold Encode, Meta_GetYAML, yaml_meta.
  cbn [encoded_part m_Name m_Summary m_Description m_Subordinate m_Provides m_Requires
       m_Peers m_Categories m_Tags m_Series y_Name y_Summary y_Description y_Provides
       y_Requires y_Peers y_Categories y_Tags y_Subordinate y_Series].
  assert (∀ rs : option (gmap string Relation),
    marshaledRelations (nonempty_map rs) = marshaledRelations rs) as Hrs.
  { intros rs. unfold marshaledRelations. by rewrite range_nonempty_map. }
  assert (∀ l : option (list string), default [] (nonempty_list l) = default [] l) as Hl.
  { by intros [[|x l]|]. }
  unfold yaml_strings. by rewrite !Hrs, !Hl.
Qed.

Section EncodeValid.
Context {coercion : StringCoercion} {E Text : Type}.
Variable IsValidSeries : string → bool.
Variable Marshal : gmap string Value → Text.
Variable Unmarshal : Text → E + gmap string Value.

(** X20. The round trip holds for every valid record, not only for
    decoded ones, whenever the YAML library reads back the tree that it
    wrote for the record: when every relation of [R] has the scope global
    or container, [R] passes [Check] and [yaml.Unmarshal] returns the tree
    of [R] for the text that [yaml.Marshal] wrote for it, [ReadMeta] on
    that text gives what the encoder keeps of [R], and encoding and
    decoding that again gives the same record. *)
Theorem encode_decode_valid_record (strict : bool) (R : Meta) :
  scoped R → Meta_Check IsValidSeries R = None →
  Unmarshal (Marshal (Encode R)) = inr (Encode R) →
  ReadMeta_reader strict IsValidSeries Unmarshal (inr (Marshal (Encode R)))
  = inr (Ok (encoded_part R))
  ∧ ReadMeta_reader strict IsValidSeries Unmarshal
      (inr (Marshal (Encode (encoded_part R))))
    = inr (Ok (encoded_part R)).
Proof.
  intros Hs Hv Hyaml.
  assert (ReadMeta strict IsValidSeries (Encode R) = Ok (encoded_part R)) as H
    by by apply ReadMeta_Encode.
  rewrite Encode_encoded_part. unfold ReadMeta_reader. by rewrite Hyaml, H.
Qed.
End EncodeValid.

(** X21. Two valid records whose relations have the scope global or
    container are encoded alike exactly when the encoder keeps the same of
    both: their names, summaries, descriptions, subordinate flags and
    series are equal, and their relation mappings, categories and tags are
    equal once an empty one is taken for nil. *)
Theorem Encode_same_iff (IsValidSeries : string → bool) (R1 R2 : Meta) :
  scoped R1 → scoped R2 →
  Meta_Check IsValidSeries R1 = None → Meta_Check IsValidSeries R2 = None →
  (Encode R1 = Encode R2 ↔ encoded_part R1 = encoded_part R2).
Proof.
  intros Hs1 Hs2 Hv1 Hv2. split.
  - intros H.
    pose proof (ReadMeta_Encode (coercion := decimal) true IsValidSeries R1 Hs1 Hv1) as H1.
    pose proof (ReadMeta_Encode (coercion := decimal) true IsValidSeries R2 Hs2 Hv2) as H2.
    rewrite H in H1. congruence.
  - intros H. by rewrite <- (Encode_encoded_part R1), H, Encode_encoded_part.
Qed.

Lemma scoped_sample (provides : option (gmap string Relation))
    (storage : option (gmap string Storage)) :
  (∀ k r, index provides k = Some r → Scope r = ScopeGlobal) →
  scoped (charm false provides None None storage).
Proof.
  intros Hp src role k r Hm Hk.
  destruct (in_mappings _ _ _ Hm) as [[-> ->]|[[-> ->]|[-> ->]]]; cbn in Hk; try done.
  left. by eapply Hp.
Qed.

Lemma encode_decode_valid_record_witness :
  let R := charm false (Some {[ "web" := relation "web" RoleProvider "http" ScopeGlobal ]})
             None None (Some ∅) in
  ReadMeta_reader (coercion := decimal) (E := string) true anySeries inr (inr (Encode R))
  = inr (Ok (encoded_part R))
  ∧ ReadMeta_reader (coercion := decimal) (E := string) true anySeries inr
      (inr (Encode (encoded_part R)))
    = inr (Ok (encoded_part R)).
Proof.
  intros R.
  apply (encode_decode_valid_record (coercion := decimal) (E := string) anySeries
           (λ t, t) inr true R).
  - apply scoped_sample. intros k r Hk. cbn in Hk.
    apply lookup_singleton_Some in Hk as [_ <-]. reflexivity.
  - vm_compute. reflexivity.
  - reflexivity.
Defined.

Lemma Encode_same_iff_witness :
  let R1 := charm false (Some {[ "web" := relation "web" RoleProvider "http" ScopeGlobal ]})
              None None None in
  let R2 := charm false (Some {[ "web" := relation "web" RoleProvider "http" ScopeGlobal ]})
              None None (Some ∅) in
  Encode R1 = Encode R2.
Proof.
  intros R1 R2. apply (Encode_same_iff anySeries R1 R2).
  - apply scoped_sample. intros k r Hk. cbn in Hk.
    apply lookup_singleton_Some in Hk as [_ <-]. reflexivity.
  - apply scoped_sample. intros k r Hk. cbn in Hk.
    apply lookup_singleton_Some in Hk as [_ <-]. reflexivity.
  - vm_compute. reflexivity.
  - vm_compute. reflexivity.
  - reflexivity.
Defined.
